(** * cokacdir: the terminal markdown renderer (utils/markdownRenderer)

    A shallow embedding of [renderMarkdown], [calculateTextWidth],
    [ProcessInlineText] and the layout computations of [BuildTable],
    together with the regular expressions they are written with.

    JavaScript strings are sequences of UTF-16 code units; they are
    modelled as [list N].  React elements are modelled by the data they
    are built from (the [Block] and [Span] variants below); React keys and
    theme colours are presentation only and are left out. *)

From Stdlib Require Import String Ascii.
From Stdlib Require Import List NArith ZArith Bool Arith Lia.
From Stdlib Require Import SpecFloat.
From Stdlib Require Import Sorted.
Import ListNotations.

(* ================================================================== *)
(** * JavaScript strings *)
(* ================================================================== *)

Module JsString.

Definition jsstring := list N.

Definition ch (a : ascii) : N := N_of_ascii a.

(** An ASCII literal as a JavaScript string. *)
Fixpoint lit (s : string) : jsstring :=
  match s with
  | EmptyString => []
  | String a s' => ch a :: lit s'
  end.

Arguments ch a%_char.
Arguments lit s%_string.

Definition LF : N := 0xA%N.
Definition CR : N := 0xD%N.

(** [s.startsWith(p)] *)
Fixpoint startsWith (s p : jsstring) {struct p} : bool :=
  match p, s with
  | [], _ => true
  | y :: p', x :: s' => N.eqb x y && startsWith s' p'
  | _ :: _, [] => false
  end.

(** [s.endsWith(p)] *)
Definition endsWith (s p : jsstring) : bool :=
  startsWith (rev s) (rev p).

(** [s.includes(p)] *)
Fixpoint includes (s p : jsstring) : bool :=
  startsWith s p ||
  match s with
  | [] => false
  | _ :: s' => includes s' p
  end.

(** [s.substring(a, b)] for integer arguments: negative arguments are
    clamped to 0, large ones to the length, and the two are swapped when
    [a > b]. *)
Definition substring (s : jsstring) (a b : Z) : jsstring :=
  let len := Z.of_nat (length s) in
  let a' := Z.min (Z.max a 0) len in
  let b' := Z.min (Z.max b 0) len in
  let from := Z.min a' b' in
  let to := Z.max a' b' in
  firstn (Z.to_nat (to - from)) (skipn (Z.to_nat from) s).

(** [s.slice(a, -b)] for [0 <= a] and [0 < b], the only form the renderer
    uses: drop [a] units in front and [b] units at the end. *)
Definition sliceBoth (s : jsstring) (a b : nat) : jsstring :=
  firstn (length s - b - a) (skipn a s).

(** White space and line terminators: what [trim] removes and what the
    class [\s] matches. *)
Definition whiteSpaceUnits : list N :=
  [0x9; 0xA; 0xB; 0xC; 0xD; 0x20; 0xA0; 0x1680;
   0x2000; 0x2001; 0x2002; 0x2003; 0x2004; 0x2005; 0x2006; 0x2007; 0x2008;
   0x2009; 0x200A; 0x2028; 0x2029; 0x202F; 0x205F; 0x3000; 0xFEFF]%N.

Definition isWhiteSpace (c : N) : bool :=
  existsb (N.eqb c) whiteSpaceUnits.

Fixpoint trimStart (s : jsstring) : jsstring :=
  match s with
  | c :: s' => if isWhiteSpace c then trimStart s' else s
  | [] => []
  end.

Definition trimEnd (s : jsstring) : jsstring := rev (trimStart (rev s)).

(** [s.trim()] *)
Definition trim (s : jsstring) : jsstring := trimEnd (trimStart s).

(** [s.split(sep)] for a one-unit separator. *)
Fixpoint splitOn (sep : N) (s : jsstring) : list jsstring :=
  match s with
  | [] => [[]]
  | c :: s' =>
      if N.eqb c sep then [] :: splitOn sep s'
      else match splitOn sep s' with
           | cur :: more => (c :: cur) :: more
           | [] => [[c]]
           end
  end.

(** [parts.join(sep)] *)
Fixpoint join (sep : jsstring) (parts : list jsstring) : jsstring :=
  match parts with
  | [] => []
  | [p] => p
  | p :: more => p ++ sep ++ join sep more
  end.

(** [text.split(/\r?\n/)]: a line ends at a line feed, and a carriage
    return directly before that line feed belongs to the separator. *)
Fixpoint splitLines (s : jsstring) : list jsstring :=
  match s with
  | [] => [[]]
  | c :: s' =>
      if N.eqb c LF then [] :: splitLines s'
      else if N.eqb c CR && match s' with d :: _ => N.eqb d LF | [] => false end
      then splitLines s'
      else match splitLines s' with
           | cur :: more => (c :: cur) :: more
           | [] => [[c]]
           end
  end.

(** Outcome of an operation that may throw. *)
Inductive JsError := RangeError.

Inductive outcome (A : Type) :=
| Returns (a : A)
| Throws (e : JsError).
Arguments Returns {A} a.
Arguments Throws {A} e.

Definition bind {A B} (m : outcome A) (f : A -> outcome B) : outcome B :=
  match m with
  | Returns a => f a
  | Throws e => Throws e
  end.

(** [s.repeat(count)] for an integer count: a negative count throws. *)
Definition repeat (s : jsstring) (count : Z) : outcome jsstring :=
  if (count <? 0)%Z then Throws RangeError
  else Returns (concat (List.repeat s (Z.to_nat count))).

End JsString.

Import JsString.

Notation "x <- m ;; k" := (JsString.bind m (fun x => k))
  (at level 61, m at next level, right associativity).

(* ================================================================== *)
(** * Regular expressions *)
(* ================================================================== *)

Module RegExp.

(** The part of the pattern syntax the renderer uses.  A quantifier
    carries its bounds and whether it is greedy; a group carries its
    number. *)
Inductive regex :=
| Empty
| Char (c : N)
| Class (p : N -> bool)
| Seq (r1 r2 : regex)
| Alt (r1 r2 : regex)
| Quant (r : regex) (min : nat) (max : option nat) (greedy : bool)
| Group (n : nat) (r : regex)
| AssertStart
| AssertEnd
| Backref (n : nat).

(** Character classes. *)
Definition inRange (lo hi c : N) : bool := (lo <=? c)%N && (c <=? hi)%N.

Definition lineTerminator (c : N) : bool :=
  N.eqb c 0xA || N.eqb c 0xD || N.eqb c 0x2028 || N.eqb c 0x2029.

(** [.] without the [s] flag *)
Definition dot (c : N) : bool := negb (lineTerminator c).
(** [.] with the [s] flag *)
Definition dotAll (c : N) : bool := true.
(** [\w] *)
Definition word (c : N) : bool :=
  inRange (ch "a") (ch "z") c || inRange (ch "A") (ch "Z") c
  || inRange (ch "0") (ch "9") c || N.eqb c (ch "_").
(** [\d] *)
Definition digit (c : N) : bool := inRange (ch "0") (ch "9") c.
(** [\s] and [\S] *)
Definition space (c : N) : bool := isWhiteSpace c.
Definition nonSpace (c : N) : bool := negb (isWhiteSpace c).
(** [[...]] over listed characters *)
Definition oneOf (s : string) (c : N) : bool := existsb (N.eqb c) (lit s).

(** Pattern builders. *)
Fixpoint cat (rs : list regex) : regex :=
  match rs with
  | [] => Empty
  | [r] => r
  | r :: rs' => Seq r (cat rs')
  end.

Fixpoint alt (rs : list regex) : regex :=
  match rs with
  | [] => Empty
  | [r] => r
  | r :: rs' => Alt r (alt rs')
  end.

Definition str (s : string) : regex := cat (map Char (lit s)).
Definition c1 (a : ascii) : regex := Char (ch a).
Definition star (r : regex) : regex := Quant r 0 None true.
Definition plus (r : regex) : regex := Quant r 1 None true.
Definition opt (r : regex) : regex := Quant r 0 (Some 1) true.
Definition atLeast (n : nat) (r : regex) : regex := Quant r n None true.
Definition lazyStar (r : regex) : regex := Quant r 0 None false.
Definition lazyPlus (r : regex) : regex := Quant r 1 None false.

(** A pattern written next to its source text. *)
Definition re (source : string) (r : regex) : regex := r.

Arguments re source%_string r.
Arguments oneOf s%_string c.
Arguments str s%_string.
Arguments c1 a%_char.

(** ** The backtracking matcher

    The matcher follows the continuation-passing semantics of the
    language definition: a matcher takes a match state and a
    continuation and returns the final state or fails. *)

Definition Captures := list (nat * option jsstring).

Record MatchState := {
  endIndex : nat;          (* units consumed so far *)
  rest : jsstring;         (* the input from [endIndex] on *)
  captures : Captures
}.

Definition Continuation := MatchState -> option MatchState.
Definition Matcher := MatchState -> Continuation -> option MatchState.

Fixpoint getCapture (n : nat) (caps : Captures) : option jsstring :=
  match caps with
  | [] => None
  | (k, v) :: caps' => if Nat.eqb k n then v else getCapture n caps'
  end.

Definition setCapture (n : nat) (v : option jsstring) (x : MatchState) : MatchState :=
  {| endIndex := endIndex x; rest := rest x; captures := (n, v) :: captures x |}.

Definition clearCaptures (parens : list nat) (x : MatchState) : MatchState :=
  {| endIndex := endIndex x; rest := rest x;
     captures := map (fun n => (n, None)) parens ++ captures x |}.

Fixpoint groupsOf (r : regex) : list nat :=
  match r with
  | Seq r1 r2 | Alt r1 r2 => groupsOf r1 ++ groupsOf r2
  | Quant r' _ _ _ => groupsOf r'
  | Group n r' => n :: groupsOf r'
  | _ => []
  end.

Definition step1 (p : N -> bool) : Matcher :=
  fun x c =>
    match rest x with
    | a :: t =>
        if p a
        then c {| endIndex := S (endIndex x); rest := t; captures := captures x |}
        else None
    | [] => None
    end.

Definition orElse (a : option MatchState) (b : unit -> option MatchState) :=
  match a with
  | Some z => Some z
  | None => b tt
  end.

(** The repeat matcher.  An iteration that is not required ([min = 0])
    and consumes nothing fails; the captures of the groups inside the
    quantified atom are reset at each iteration.  Every iteration either
    uses up one required repetition or consumes input, so [fuel] counts
    both. *)
Fixpoint repeatMatcher (m : Matcher) (parens : list nat) (greedy : bool)
    (fuel min : nat) (max : option nat) (x : MatchState) (c : Continuation)
    : option MatchState :=
  match fuel with
  | O => None
  | S fuel' =>
      match max with
      | Some O => c x
      | _ =>
          let d : Continuation := fun y =>
            if Nat.eqb min 0 && Nat.eqb (endIndex y) (endIndex x) then None
            else repeatMatcher m parens greedy fuel' (pred min)
                   (option_map pred max) y c in
          let xr := clearCaptures parens x in
          if negb (Nat.eqb min 0) then m xr d
          else if greedy then orElse (m xr d) (fun _ => c x)
          else orElse (c x) (fun _ => m xr d)
      end
  end.

Definition backrefMatcher (n : nat) : Matcher :=
  fun x c =>
    match getCapture n (captures x) with
    | None => c x
    | Some s =>
        if startsWith (rest x) s
        then c {| endIndex := endIndex x + length s;
                  rest := skipn (length s) (rest x);
                  captures := captures x |}
        else None
    end.

Fixpoint compile (r : regex) : Matcher :=
  match r with
  | Empty => fun x c => c x
  | Char a => step1 (N.eqb a)
  | Class p => step1 p
  | Seq r1 r2 => fun x c => compile r1 x (fun y => compile r2 y c)
  | Alt r1 r2 => fun x c => orElse (compile r1 x c) (fun _ => compile r2 x c)
  | Quant r' min max greedy =>
      fun x c =>
        repeatMatcher (compile r') (groupsOf r') greedy
          (S (min + length (rest x))) min max x c
  | Group n r' =>
      fun x c =>
        compile r' x (fun y =>
          c (setCapture n
               (Some (firstn (endIndex y - endIndex x) (rest x))) y))
  | AssertStart => fun x c => if Nat.eqb (endIndex x) 0 then c x else None
  | AssertEnd => fun x c => match rest x with [] => c x | _ => None end
  | Backref n => backrefMatcher n
  end.

(** ** [exec], [match], [test] and [replace] *)

Record MatchResult := {
  index : nat;                 (* where the match starts *)
  lastIndex : nat;             (* where it ends *)
  matched : jsstring;          (* element 0 of the result array *)
  groups : Captures            (* elements 1, 2, ... *)
}.

Definition group (n : nat) (m : MatchResult) : option jsstring :=
  getCapture n (groups m).

(** A captured group that took part in the match, as a string. *)
Definition groupStr (n : nat) (m : MatchResult) : jsstring :=
  match group n m with Some s => s | None => [] end.

(** Try the start positions from [i] on, leftmost first; [s] is the
    input from [i]. *)
Fixpoint scan (r : regex) (i : nat) (s : jsstring) : option MatchResult :=
  match compile r {| endIndex := i; rest := s; captures := [] |} Some with
  | Some y =>
      Some {| index := i; lastIndex := endIndex y;
              matched := firstn (endIndex y - i) s;
              groups := captures y |}
  | None =>
      match s with
      | [] => None
      | _ :: s' => scan r (S i) s'
      end
  end.

(** [r.exec(s)] with [r.lastIndex = from] (a sticky-free global
    pattern), and [s.match(r)] for a pattern without the [g] flag. *)
Definition execFrom (r : regex) (from : nat) (s : jsstring) : option MatchResult :=
  if from <=? length s then scan r from (skipn from s) else None.

Definition exec (r : regex) (s : jsstring) : option MatchResult := scan r 0 s.

Definition test (r : regex) (s : jsstring) : bool :=
  match exec r s with Some _ => true | None => false end.

(** [s.replace(r, '$1')] for a global pattern [r]: every match, found
    left to right, is replaced by its first group; after an empty match
    the search resumes one unit further. *)
Fixpoint replaceG1 (fuel : nat) (r : regex) (i : nat) (s : jsstring) : jsstring :=
  match fuel with
  | O => s
  | S fuel' =>
      match scan r i s with
      | None => s
      | Some m =>
          let before := firstn (index m - i) s in
          let after := skipn (lastIndex m - i) s in
          before ++ groupStr 1 m ++
            (if Nat.eqb (lastIndex m) (index m)
             then match after with
                  | [] => []
                  | a :: after' => a :: replaceG1 fuel' r (S (lastIndex m)) after'
                  end
             else replaceG1 fuel' r (lastIndex m) after)
      end
  end.

Definition replaceAll1 (r : regex) (s : jsstring) : jsstring :=
  replaceG1 (S (length s)) r 0 s.

(** ** What a successful match says about the input

    [Sem r i w post k k'] : at index [i], with [post] the input after
    it, the pattern [r] can consume [w] and turn the captures [k] into
    [k'].  The relation forgets the order in which the matcher tries the
    alternatives; every result of the matcher is in it. *)

Definition cleared (parens : list nat) (k : Captures) : Captures :=
  map (fun n => (n, @None jsstring)) parens ++ k.

Inductive Sem : regex -> nat -> jsstring -> jsstring -> Captures -> Captures -> Prop :=
| SemEmpty i post k : Sem Empty i [] post k k
| SemChar a i post k : Sem (Char a) i [a] post k k
| SemClass p a i post k : p a = true -> Sem (Class p) i [a] post k k
| SemSeq r1 r2 i w1 w2 post k k1 k2 :
    Sem r1 i w1 (w2 ++ post) k k1 ->
    Sem r2 (i + length w1) w2 post k1 k2 ->
    Sem (Seq r1 r2) i (w1 ++ w2) post k k2
| SemAltL r1 r2 i w post k k' :
    Sem r1 i w post k k' -> Sem (Alt r1 r2) i w post k k'
| SemAltR r1 r2 i w post k k' :
    Sem r2 i w post k k' -> Sem (Alt r1 r2) i w post k k'
| SemQuantStop r min max g i post k :
    min = 0 \/ max = Some 0 ->
    Sem (Quant r min max g) i [] post k k
| SemQuantIter r min max g i w1 w2 post k k1 k2 :
    max <> Some 0 ->
    (min = 0 -> w1 <> []) ->
    Sem r i w1 (w2 ++ post) (cleared (groupsOf r) k) k1 ->
    Sem (Quant r (pred min) (option_map pred max) g) (i + length w1) w2 post k1 k2 ->
    Sem (Quant r min max g) i (w1 ++ w2) post k k2
| SemGroup n r i w post k k' :
    Sem r i w post k k' ->
    Sem (Group n r) i w post k ((n, Some w) :: k')
| SemStart post k : Sem AssertStart 0 [] post k k
| SemEnd i k : Sem AssertEnd i [] [] k k
| SemBackref n i w post k :
    getCapture n k = None \/ getCapture n k = Some w ->
    (getCapture n k = None -> w = []) ->
    Sem (Backref n) i w post k k.

(** The state a matcher hands to its continuation, described from the
    state it started in. *)
Definition Reaches (r : regex) (x y : MatchState) : Prop :=
  exists w,
    rest x = w ++ rest y /\
    endIndex y = endIndex x + length w /\
    Sem r (endIndex x) w (rest y) (captures x) (captures y).

(** ** Consequences used to tell the line patterns apart *)

(** [Needs r B]: read off the pattern, every match of [r] consumes a
    unit outside [B]. *)
Fixpoint Needs (r : regex) (B : N -> Prop) : Prop :=
  match r with
  | Char a => ~ B a
  | Class p => forall c, p c = true -> ~ B c
  | Seq r1 r2 => Needs r1 B \/ Needs r2 B
  | Alt r1 r2 => Needs r1 B /\ Needs r2 B
  | Quant r' min max _ => 0 < min /\ max <> Some 0 /\ Needs r' B
  | Group _ r' => Needs r' B
  | _ => False
  end.

(** [accepts r c]: some atom of [r] can consume [c]. *)
Fixpoint accepts (r : regex) (c : N) : bool :=
  match r with
  | Char a => N.eqb a c
  | Class p => p c
  | Seq r1 r2 | Alt r1 r2 => accepts r1 c || accepts r2 c
  | Quant r' _ _ _ | Group _ r' => accepts r' c
  | Backref _ => true
  | _ => false
  end.

(** Patterns that start with [^] and end with [$]. *)
Fixpoint anchoredStart (r : regex) : bool :=
  match r with
  | AssertStart => true
  | Seq r1 _ => anchoredStart r1
  | Alt r1 r2 => anchoredStart r1 && anchoredStart r2
  | Group _ r' => anchoredStart r'
  | _ => false
  end.

Fixpoint anchoredEnd (r : regex) : bool :=
  match r with
  | AssertEnd => true
  | Seq _ r2 => anchoredEnd r2
  | Alt r1 r2 => anchoredEnd r1 && anchoredEnd r2
  | Group _ r' => anchoredEnd r'
  | _ => false
  end.

(** The lengths a quantifier allows. *)
Definition withinBounds (min : nat) (max : option nat) (n : nat) : Prop :=
  min <= n /\ match max with Some mx => n <= mx | None => True end.

(** ** Where a matcher may take the match

    [After x y]: the state [y] is further on in the input than [x], by
    the units between them.  A matcher is [Local] when its result depends
    on its continuation only at such states. *)

Definition After (x y : MatchState) : Prop :=
  exists w, rest x = w ++ rest y /\ endIndex y = endIndex x + length w.

Definition Local (m : Matcher) : Prop :=
  forall x c c', (forall y, After x y -> c y = c' y) -> m x c = m x c'.

End RegExp.

Import RegExp.

(* ================================================================== *)
(** * The markdown renderer *)
(* ================================================================== *)

Module Markdown.

Definition MARKER_BOLD : nat := 2.
Definition MARKER_ITALIC : nat := 1.
Definition MARKER_STRIKE : nat := 2.
Definition MARKER_CODE : nat := 1.
Definition MARKER_UNDERLINE_START : nat := 3.
Definition MARKER_UNDERLINE_END : nat := 4.

(** The box-drawing character of rules and table borders, U+2500. *)
Definition boxHorizontal : N := 0x2500%N.

(** ** [calculateTextWidth] *)

Definition reBoldG :=
  re "/\*\*(.*?)\*\*/g" (cat [str "**"; Group 1 (lazyStar (Class dot)); str "**"]).
Definition reStarG :=
  re "/\*(.*?)\*/g" (cat [c1 "*"; Group 1 (lazyStar (Class dot)); c1 "*"]).
Definition reUnderscoreG :=
  re "/_(.*?)_/g" (cat [c1 "_"; Group 1 (lazyStar (Class dot)); c1 "_"]).
Definition reStrikeG :=
  re "/~~(.*?)~~/g" (cat [str "~~"; Group 1 (lazyStar (Class dot)); str "~~"]).
Definition reCodeG :=
  re "/`(.*?)`/g" (cat [c1 "`"; Group 1 (lazyStar (Class dot)); c1 "`"]).
Definition reUnderlineG :=
  re "/<u>(.*?)<\/u>/g"
    (cat [str "<u>"; Group 1 (lazyStar (Class dot)); str "</u>"]).
Definition reLinkG :=
  re "/.*\[(.*?)\]\(.*\)/g"
    (cat [star (Class dot); c1 "["; Group 1 (lazyStar (Class dot)); c1 "]";
          c1 "("; star (Class dot); c1 ")"]).

(** The chain of [replace] calls that removes the markdown markers. *)
Definition plainTextOf (content : jsstring) : jsstring :=
  replaceAll1 reLinkG
    (replaceAll1 reUnderlineG
      (replaceAll1 reCodeG
        (replaceAll1 reStrikeG
          (replaceAll1 reUnderscoreG
            (replaceAll1 reStarG
              (replaceAll1 reBoldG content)))))).

Definition isHighSurrogate (c : N) : bool := inRange 0xD800 0xDBFF c.
Definition isLowSurrogate (c : N) : bool := inRange 0xDC00 0xDFFF c.

(** [for (const char of s)]: the string is walked by code points, a
    surrogate pair being one character; the result lists
    [char.charCodeAt(0)] for each of them. *)
Fixpoint charCodes (s : jsstring) : list N :=
  match s with
  | [] => []
  | a :: t =>
      match t with
      | b :: t' =>
          if isHighSurrogate a && isLowSurrogate b then a :: charCodes t'
          else a :: charCodes t
      | [] => [a]
      end
  end.

(** The test on [code] that selects the double-width characters. *)
Definition isWide (code : N) : bool :=
  (0x1100 <=? code)%N &&
  ((code <=? 0x115f)%N ||
   N.eqb code 0x2329 || N.eqb code 0x232a ||
   ((0x2e80 <=? code)%N && (code <=? 0xa4cf)%N && negb (N.eqb code 0x303f)) ||
   ((0xac00 <=? code)%N && (code <=? 0xd7a3)%N) ||
   ((0xf900 <=? code)%N && (code <=? 0xfaff)%N) ||
   ((0xfe10 <=? code)%N && (code <=? 0xfe1f)%N) ||
   ((0xfe30 <=? code)%N && (code <=? 0xfe6f)%N) ||
   ((0xff00 <=? code)%N && (code <=? 0xff60)%N) ||
   ((0xffe0 <=? code)%N && (code <=? 0xffe6)%N)).

Definition charWidth (code : N) : Z := if isWide code then 2 else 1.

Definition widthOfPlain (plainText : jsstring) : Z :=
  fold_left (fun width code => (width + charWidth code)%Z) (charCodes plainText) 0%Z.

Definition calculateTextWidth (content : jsstring) : Z :=
  widthOfPlain (plainTextOf content).

(** ** [ProcessInlineText] *)

Inductive Span :=
| Plain (text : jsstring)
| Bold (text : jsstring)
| Italic (text : jsstring)
| Strike (text : jsstring)
| Code (text : jsstring)
| Link (label url : jsstring)
| Underline (text : jsstring)
| AutoLink (url : jsstring).

Definition quickCheck := re "/[*_~`<[https?:]/" (Class (oneOf "*_~`<[https?:")).

Definition patternRegex :=
  re "/(\*\*.*?\*\*|\*.*?\*|_.*?_|~~.*?~~|\[.*?\]\(.*?\)|`+.+?`+|<u>.*?<\/u>|https?:\/\/\S+)/g"
    (Group 1 (alt [
      cat [str "**"; lazyStar (Class dot); str "**"];
      cat [c1 "*"; lazyStar (Class dot); c1 "*"];
      cat [c1 "_"; lazyStar (Class dot); c1 "_"];
      cat [str "~~"; lazyStar (Class dot); str "~~"];
      cat [c1 "["; lazyStar (Class dot); c1 "]"; c1 "("; lazyStar (Class dot); c1 ")"];
      cat [plus (c1 "`"); lazyPlus (Class dot); plus (c1 "`")];
      cat [str "<u>"; lazyStar (Class dot); str "</u>"];
      cat [str "http"; opt (c1 "s"); str "://"; plus (Class nonSpace)]
    ])).

Definition codePattern :=
  re "/^(`+)(.+?)\1$/s"
    (cat [AssertStart; Group 1 (plus (c1 "`")); Group 2 (lazyPlus (Class dotAll));
         Backref 1; AssertEnd]).

Definition linkPattern :=
  re "/\[(.*?)\]\((.*?)\)/"
    (cat [c1 "["; Group 1 (lazyStar (Class dot)); c1 "]";
         c1 "("; Group 2 (lazyStar (Class dot)); c1 ")"]).

Definition urlPattern :=
  re "/^https?:\/\//" (cat [AssertStart; str "http"; opt (c1 "s"); str "://"]).

Definition isNonEmpty (s : jsstring) : bool :=
  match s with [] => false | _ => true end.

(** The chain of tests applied to one match of [patternRegex]; [None] is
    the [formattedElement] left at [null]. *)
Definition formatMatch (content : jsstring) (m : MatchResult) : option Span :=
  let matchedText := matched m in
  if startsWith matchedText (lit "**") && endsWith matchedText (lit "**")
     && (MARKER_BOLD * 2 <? length matchedText)
  then Some (Bold (sliceBoth matchedText MARKER_BOLD MARKER_BOLD))
  else if (MARKER_ITALIC * 2 <? length matchedText)
     && ((startsWith matchedText (lit "*") && endsWith matchedText (lit "*"))
         || (startsWith matchedText (lit "_") && endsWith matchedText (lit "_")))
  then
    let prevChar :=
      substring content (Z.of_nat (index m) - 1) (Z.of_nat (index m)) in
    let nextChar :=
      substring content (Z.of_nat (lastIndex m)) (Z.of_nat (lastIndex m) + 1) in
    if negb (test (re "/\w/" (Class word)) prevChar)
       && negb (test (re "/\w/" (Class word)) nextChar)
    then Some (Italic (sliceBoth matchedText MARKER_ITALIC MARKER_ITALIC))
    else None
  else if startsWith matchedText (lit "~~") && endsWith matchedText (lit "~~")
     && (MARKER_STRIKE * 2 <? length matchedText)
  then Some (Strike (sliceBoth matchedText MARKER_STRIKE MARKER_STRIKE))
  else if startsWith matchedText (lit "`") && endsWith matchedText (lit "`")
     && (MARKER_CODE <? length matchedText)
  then
    match exec codePattern matchedText with
    | Some cp => if isNonEmpty (groupStr 2 cp) then Some (Code (groupStr 2 cp)) else None
    | None => None
    end
  else if startsWith matchedText (lit "[") && includes matchedText (lit "](")
     && endsWith matchedText (lit ")")
  then
    match exec linkPattern matchedText with
    | Some lp => Some (Link (groupStr 1 lp) (groupStr 2 lp))
    | None => None
    end
  else if startsWith matchedText (lit "<u>") && endsWith matchedText (lit "</u>")
  then Some (Underline (sliceBoth matchedText MARKER_UNDERLINE_START MARKER_UNDERLINE_END))
  else if test urlPattern matchedText
  then Some (AutoLink matchedText)
  else None.

(** The [while] loop over the matches of [patternRegex].  No match is
    empty, so the position grows at each turn and the loop is entered at
    most once per unit of [content]. *)
Fixpoint inlineLoop (fuel : nat) (content : jsstring) (currentPosition : nat)
    : list Span :=
  let remaining :=
    if currentPosition <? length content
    then [Plain (skipn currentPosition content)] else [] in
  match fuel with
  | O => remaining
  | S fuel' =>
      match execFrom patternRegex currentPosition content with
      | None => remaining
      | Some m =>
          (if currentPosition <? index m
           then [Plain (firstn (index m - currentPosition)
                          (skipn currentPosition content))]
           else [])
          ++ [match formatMatch content m with
              | Some el => el
              | None => Plain (matched m)
              end]
          ++ inlineLoop fuel' content (lastIndex m)
      end
  end.

Definition ProcessInlineText (content : jsstring) : list Span :=
  if negb (test quickCheck content) then [Plain content]
  else inlineLoop (S (length content)) content 0.

(** ** [BuildTable]: the layout of a table *)

(** The arithmetic of the shrink ratio is done on doubles: binary64
    numbers with round-to-nearest-even. *)
Module Number.

Definition number := spec_float.
Definition prec : Z := 53.
Definition emax : Z := 1024.

(** An integer as a number. *)
Definition ofZ (z : Z) : number := binary_normalize prec emax z 0 false.
Definition mul (a b : number) : number := SFmul prec emax a b.
Definition div (a b : number) : number := SFdiv prec emax a b.

(** [Math.floor] of a finite number, as an integer.  The numbers floored
    by the layout are products of finite numbers with a finite quotient;
    the other cases are given the value 0. *)
Definition floor (x : number) : Z :=
  match x with
  | S754_finite s m e =>
      let v := if s then Z.neg m else Z.pos m in
      if (0 <=? e)%Z then (v * 2 ^ e)%Z else (v / 2 ^ (- e))%Z
  | _ => 0%Z
  end.

End Number.

(** [l.map((x, index) => f(x, index))] *)
Definition mapi {A B} (f : A -> nat -> B) (l : list A) : list B :=
  map (fun p => f (snd p) (fst p)) (combine (seq 0 (length l)) l).

(** [Math.max(0, ...values)] *)
Definition maxOf (values : list Z) : Z := fold_left Z.max values 0%Z.

Definition widthPerColumn (columnHeaders : list jsstring)
    (dataRows : list (list jsstring)) : list Z :=
  mapi (fun headerText columnIndex =>
          let headerDisplayWidth := calculateTextWidth headerText in
          let maxDataWidth :=
            maxOf (map (fun rowData => calculateTextWidth (nth columnIndex rowData []))
                     dataRows) in
          (Z.max headerDisplayWidth maxDataWidth + 2)%Z)
       columnHeaders.

(** [widthPerColumn.reduce((sum, w) => sum + w + 1, 1)] *)
Definition totalRequiredWidth (widths : list Z) : Z :=
  fold_left (fun sum w => (sum + w + 1)%Z) widths 1%Z.

Definition shrinkRatio (totalRequired maxWidth : Z) : Number.number :=
  if (maxWidth <? totalRequired)%Z
  then Number.div (Number.ofZ maxWidth) (Number.ofZ totalRequired)
  else Number.ofZ 1.

Definition finalWidths (columnHeaders : list jsstring)
    (dataRows : list (list jsstring)) (maxWidth : Z) : list Z :=
  let widths := widthPerColumn columnHeaders dataRows in
  let ratio := shrinkRatio (totalRequiredWidth widths) maxWidth in
  map (fun w => Number.floor (Number.mul (Number.ofZ w) ratio)) widths.

Record Cell := {
  displayText : jsstring;
  paddingRequired : Z
}.

(** [buildCell]: the text shown in a cell and the blanks after it. *)
Definition buildCell (cellText : jsstring) (cellWidth : Z) : Cell :=
  let availableWidth := Z.max 0 (cellWidth - 2) in
  let actualWidth := calculateTextWidth cellText in
  let displayText :=
    if (availableWidth <? actualWidth)%Z
    then substring cellText 0 (Z.max 0 (availableWidth - 3)) ++ lit "..."
    else cellText in
  {| displayText := displayText;
     paddingRequired := Z.max 0 (availableWidth - calculateTextWidth displayText) |}.

(** [buildTableRow]: cell [idx] is laid out in [finalWidths[idx] || 0]
    columns. *)
Definition buildTableRow (widths : list Z) (rowCells : list jsstring) : list Cell :=
  mapi (fun cell idx => buildCell cell (nth idx widths 0%Z)) rowCells.

(** [buildBorderLine]: corner, one run of line characters per column
    joined by the junction, corner. *)
Definition buildBorderLine (widths : list Z) (leftCorner junction rightCorner : N)
    : outcome jsstring :=
  segments <-
    fold_right (fun width acc =>
                  rest <- acc ;;
                  seg <- JsString.repeat [boxHorizontal] width ;;
                  Returns (seg :: rest))
               (Returns []) widths ;;
  Returns ([leftCorner] ++ join [junction] segments ++ [rightCorner]).

Record TableLayout := {
  columnWidths : list Z;
  topBorder : jsstring;
  headerRow : list Cell;
  midBorder : jsstring;
  bodyRows : list (list Cell);
  bottomBorder : jsstring
}.

Definition BuildTable (columnHeaders : list jsstring)
    (dataRows : list (list jsstring)) (maxWidth : Z) : outcome TableLayout :=
  let widths := finalWidths columnHeaders dataRows maxWidth in
  top <- buildBorderLine widths 0x250C 0x252C 0x2510 ;;
  mid <- buildBorderLine widths 0x251C 0x253C 0x2524 ;;
  bottom <- buildBorderLine widths 0x2514 0x2534 0x2518 ;;
  Returns {| columnWidths := widths;
             topBorder := top;
             headerRow := buildTableRow widths columnHeaders;
             midBorder := mid;
             bodyRows := map (buildTableRow widths) dataRows;
             bottomBorder := bottom |}.

(** ** Blocks *)

Inductive ListType := ul | ol.

(** What [renderMarkdown] pushes on [blocks]: the element and the props
    it is created with. *)
Inductive Block :=
| Paragraph (content : jsstring)
| Header (level : nat) (headerText : jsstring)
| ListItem (listType : ListType) (marker indentation itemText : jsstring)
| CodeBlock (lines : list jsstring) (language : option jsstring)
| Table (columnHeaders : list jsstring) (dataRows : list (list jsstring))
        (maxWidth : Z)
| HorizontalRule (rule : jsstring)
| Spacer.

Definition isSpacer (b : Block) : bool :=
  match b with Spacer => true | _ => false end.

(** [BuildCodeBlock]: the optional language label and the text shown,
    the lines joined by line feeds and nothing else done to them. *)
Definition BuildCodeBlock (lines : list jsstring) (language : option jsstring)
    : option jsstring * jsstring :=
  (match language with
   | Some l => if isNonEmpty l then Some l else None
   | None => None
   end,
   join [LF] lines).

(** ** The line patterns of [renderMarkdown] *)

Module patterns.

(** The class written "[ \t]". *)
Definition spaceOrTab (c : N) : bool := N.eqb c 0x20 || N.eqb c 0x9.

Definition header :=
  re "/^ *(#{1,4}) +(.*)/"
    (cat [AssertStart; star (c1 " "); Group 1 (Quant (c1 "#") 1 (Some 4) true);
         plus (c1 " "); Group 2 (star (Class dot))]).

Definition codeFence :=
  re "/^ *(`{3,}|~{3,}) *(\w*?) *$/"
    (cat [AssertStart; star (c1 " ");
         Group 1 (Alt (atLeast 3 (c1 "`")) (atLeast 3 (c1 "~")));
         star (c1 " "); Group 2 (lazyStar (Class word)); star (c1 " "); AssertEnd]).

Definition unorderedList :=
  re "/^([ \t]*)([-*+]) +(.*)/"
    (cat [AssertStart; Group 1 (star (Class spaceOrTab));
         Group 2 (Class (oneOf "-*+")); plus (c1 " "); Group 3 (star (Class dot))]).

Definition orderedList :=
  re "/^([ \t]*)(\d+)\. +(.*)/"
    (cat [AssertStart; Group 1 (star (Class spaceOrTab));
         Group 2 (plus (Class digit)); c1 "."; plus (c1 " ");
         Group 3 (star (Class dot))]).

Definition horizontalRule :=
  re "/^ *([-*_] *){3,} *$/"
    (cat [AssertStart; star (c1 " ");
         atLeast 3 (Group 1 (Seq (Class (oneOf "-*_")) (star (c1 " "))));
         star (c1 " "); AssertEnd]).

Definition tableRow :=
  re "/^\s*\|(.+)\|\s*$/"
    (cat [AssertStart; star (Class space); c1 "|"; Group 1 (plus (Class dot));
         c1 "|"; star (Class space); AssertEnd]).

Definition tableSeparator :=
  re "/^\s*\|?\s*(:?-+:?)\s*(\|\s*(:?-+:?)\s*)+\|?\s*$/"
    (cat [AssertStart; star (Class space); opt (c1 "|"); star (Class space);
         Group 1 (cat [opt (c1 ":"); plus (c1 "-"); opt (c1 ":")]);
         star (Class space);
         plus (Group 2 (cat [c1 "|"; star (Class space);
                             Group 3 (cat [opt (c1 ":"); plus (c1 "-"); opt (c1 ":")]);
                             star (Class space)]));
         opt (c1 "|"); star (Class space); AssertEnd]).

End patterns.

(** ** The parser state of [renderMarkdown] *)

Record ParserState := {
  blocks : list Block;
  previousLineWasEmpty : bool;
  codeBlockActive : bool;
  codeBlockLines : list jsstring;
  codeBlockLanguage : option jsstring;
  codeBlockFence : jsstring;
  tableActive : bool;
  tableHeaderCells : list jsstring;
  tableDataRows : list (list jsstring)
}.

Definition initialState : ParserState :=
  {| blocks := []; previousLineWasEmpty := true;
     codeBlockActive := false; codeBlockLines := [];
     codeBlockLanguage := None; codeBlockFence := [];
     tableActive := false; tableHeaderCells := []; tableDataRows := [] |}.

(** [appendBlock]: every element built by the renderer is truthy, so
    the block is pushed and the flag reset. *)
Definition appendBlock (block : Block) (st : ParserState) : ParserState :=
  {| blocks := blocks st ++ [block]; previousLineWasEmpty := false;
     codeBlockActive := codeBlockActive st;
     codeBlockLines := codeBlockLines st;
     codeBlockLanguage := codeBlockLanguage st;
     codeBlockFence := codeBlockFence st;
     tableActive := tableActive st;
     tableHeaderCells := tableHeaderCells st;
     tableDataRows := tableDataRows st |}.

(** [blocks.push(<Box height=.../>); previousLineWasEmpty = true] *)
Definition pushSpacer (st : ParserState) : ParserState :=
  {| blocks := blocks st ++ [Spacer]; previousLineWasEmpty := true;
     codeBlockActive := codeBlockActive st;
     codeBlockLines := codeBlockLines st;
     codeBlockLanguage := codeBlockLanguage st;
     codeBlockFence := codeBlockFence st;
     tableActive := tableActive st;
     tableHeaderCells := tableHeaderCells st;
     tableDataRows := tableDataRows st |}.

(** Assignments to the four variables of the code block, and to the
    three of the table. *)
Definition setCodeBlock (active : bool) (lines : list jsstring)
    (language : option jsstring) (fence : jsstring) (st : ParserState)
    : ParserState :=
  {| blocks := blocks st; previousLineWasEmpty := previousLineWasEmpty st;
     codeBlockActive := active; codeBlockLines := lines;
     codeBlockLanguage := language; codeBlockFence := fence;
     tableActive := tableActive st;
     tableHeaderCells := tableHeaderCells st;
     tableDataRows := tableDataRows st |}.

Definition setTable (active : bool) (headerCells : list jsstring)
    (dataRows : list (list jsstring)) (st : ParserState) : ParserState :=
  {| blocks := blocks st; previousLineWasEmpty := previousLineWasEmpty st;
     codeBlockActive := codeBlockActive st;
     codeBlockLines := codeBlockLines st;
     codeBlockLanguage := codeBlockLanguage st;
     codeBlockFence := codeBlockFence st;
     tableActive := active; tableHeaderCells := headerCells;
     tableDataRows := dataRows |}.

(** [fenceMatch[1].startsWith(codeBlockFence[0]) &&
     fenceMatch[1].length >= codeBlockFence.length]; indexing the empty
    string gives [undefined], which [startsWith] reads as the text
    "undefined". *)
Definition closesFence (codeBlockFence fence : jsstring) : bool :=
  startsWith fence
    (match codeBlockFence with
     | c :: _ => [c]
     | [] => lit "undefined"
     end)
  && (length codeBlockFence <=? length fence).

(** [x || null] on a string *)
Definition orNull (s : jsstring) : option jsstring :=
  if isNonEmpty s then Some s else None.

(** [tableRowMatch[1].split('|').map((cell) => cell.trim())] *)
Definition splitCells (inner : jsstring) : list jsstring :=
  map trim (splitOn (ch "|") inner).

(** Pad with empty cells up to [n], then cut down to [n]. *)
Definition coerceCells (n : nat) (cells : list jsstring) : list jsstring :=
  firstn n (cells ++ List.repeat [] (n - length cells)).

(** A match result read as a condition. *)
Definition isSome {A} (o : option A) : bool :=
  match o with Some _ => true | None => false end.

(** A match that counts only under a side condition: [cond && m]. *)
Definition guard {A} (cond : bool) (m : option A) : option A :=
  if cond then m else None.

(** [lineIndex + 1 < lineArray.length &&
     lineArray[lineIndex + 1].match(patterns.tableSeparator)] *)
Definition nextIsSeparator (nextLine : option jsstring) : bool :=
  match nextLine with
  | Some l => test patterns.tableSeparator l
  | None => false
  end.

(** [Math.min(40, terminalWidth - 4)] copies of the rule character. *)
Definition ruleOf (terminalWidth : Z) : outcome jsstring :=
  JsString.repeat [boxHorizontal] (Z.min 40 (terminalWidth - 4)).

(** The flush of the table shared by the end of a table and the end of
    the input. *)
Definition flushTable (terminalWidth : Z) (st : ParserState) : ParserState :=
  if (0 <? length (tableHeaderCells st)) && (0 <? length (tableDataRows st))
  then appendBlock (Table (tableHeaderCells st) (tableDataRows st) terminalWidth) st
  else st.

(** The body of [lineArray.forEach]: one line, with the line after it
    when there is one. *)
Definition processLine (terminalWidth : Z) (st : ParserState)
    (currentLine : jsstring) (nextLine : option jsstring)
    : outcome ParserState :=
  if codeBlockActive st then
    (* Inside code block *)
    match exec patterns.codeFence currentLine with
    | Some fenceMatch =>
        if closesFence (codeBlockFence st) (groupStr 1 fenceMatch)
        then Returns
               (setCodeBlock false [] None []
                  (appendBlock (CodeBlock (codeBlockLines st) (codeBlockLanguage st)) st))
        else Returns
               (setCodeBlock true (codeBlockLines st ++ [currentLine])
                  (codeBlockLanguage st) (codeBlockFence st) st)
    | None =>
        Returns
          (setCodeBlock true (codeBlockLines st ++ [currentLine])
             (codeBlockLanguage st) (codeBlockFence st) st)
    end
  else
    let fenceMatch := exec patterns.codeFence currentLine in
    let headerMatch := exec patterns.header currentLine in
    let ulMatch := exec patterns.unorderedList currentLine in
    let olMatch := exec patterns.orderedList currentLine in
    let hrMatch := exec patterns.horizontalRule currentLine in
    let tableRowMatch := exec patterns.tableRow currentLine in
    let tableSepMatch := exec patterns.tableSeparator currentLine in
    match fenceMatch with
    | Some fm =>
        (* Code block start *)
        Returns (setCodeBlock true (codeBlockLines st)
                   (orNull (groupStr 2 fm)) (groupStr 1 fm) st)
    | None =>
    match guard (negb (tableActive st)) tableRowMatch with
    | Some rowMatch =>
        (* Table start detection *)
        if nextIsSeparator nextLine
        then Returns (setTable true (splitCells (groupStr 1 rowMatch)) [] st)
        else Returns (appendBlock (Paragraph currentLine) st)
    | None =>
    if tableActive st && isSome tableSepMatch then
      (* Skip separator line *)
      Returns st
    else
    match guard (tableActive st) tableRowMatch with
    | Some rowMatch =>
        (* Table data row *)
        Returns (setTable true (tableHeaderCells st)
                   (tableDataRows st ++
                    [coerceCells (length (tableHeaderCells st))
                       (splitCells (groupStr 1 rowMatch))]) st)
    | None =>
    if tableActive st && negb (isSome tableRowMatch) then
      (* Table end *)
      let st1 := setTable false [] [] (flushTable terminalWidth st) in
      (* Process current line *)
      if 0 <? length (trim currentLine)
      then Returns (appendBlock (Paragraph currentLine) st1)
      else Returns st1
    else if isSome hrMatch then
      (* Horizontal rule *)
      rule <- ruleOf terminalWidth ;;
      Returns (appendBlock (HorizontalRule rule) st)
    else
    match headerMatch with
    | Some hm =>
        (* Headers *)
        Returns (appendBlock (Header (length (groupStr 1 hm)) (groupStr 2 hm)) st)
    | None =>
    match ulMatch with
    | Some um =>
        (* Unordered list *)
        Returns (appendBlock
                   (ListItem ul (groupStr 2 um) (groupStr 1 um) (groupStr 3 um)) st)
    | None =>
    match olMatch with
    | Some om =>
        (* Ordered list *)
        Returns (appendBlock
                   (ListItem ol (groupStr 2 om) (groupStr 1 om) (groupStr 3 om)) st)
    | None =>
        (* Empty line or plain text *)
        if (length (trim currentLine) =? 0) && negb (codeBlockActive st)
        then if negb (previousLineWasEmpty st)
             then Returns (pushSpacer st)
             else Returns st
        else Returns (appendBlock (Paragraph currentLine) st)
    end end end end end end.

(** [lineArray.forEach(...)] *)
Fixpoint processLines (terminalWidth : Z) (st : ParserState)
    (lineArray : list jsstring) : outcome ParserState :=
  match lineArray with
  | [] => Returns st
  | currentLine :: more =>
      st' <- processLine terminalWidth st currentLine (hd_error more) ;;
      processLines terminalWidth st' more
  end.

(** After the loop: an unclosed code block, then an unclosed table. *)
Definition finish (terminalWidth : Z) (st : ParserState) : list Block :=
  let st1 :=
    if codeBlockActive st
    then appendBlock (CodeBlock (codeBlockLines st) (codeBlockLanguage st)) st
    else st in
  let st2 := if tableActive st1 then flushTable terminalWidth st1 else st1 in
  blocks st2.

Definition renderLines (terminalWidth : Z) (lineArray : list jsstring)
    : outcome (list Block) :=
  st <- processLines terminalWidth initialState lineArray ;;
  Returns (finish terminalWidth st).

Record RenderMarkdownOptions := { terminalWidth : option Z }.

(** [renderMarkdown(text, options)]: [None] is the [null] returned for
    the empty text. *)
Definition renderMarkdown (text : jsstring) (options : RenderMarkdownOptions)
    : outcome (option (list Block)) :=
  match text with
  | [] => Returns None
  | _ =>
      let width := match terminalWidth options with Some w => w | None => 80%Z end in
      bs <- renderLines width (splitLines text) ;;
      Returns (Some bs)
  end.

(** [MarkdownText]: [renderMarkdown(children, { terminalWidth: width })] *)
Definition MarkdownText (children : jsstring) (width : Z)
    : outcome (option (list Block)) :=
  renderMarkdown children {| terminalWidth := Some width |}.

End Markdown.

(* ================================================================== *)
(** * What is stated about the renderer *)
(* ================================================================== *)

Module Spec.

Import Markdown.

(** ** Lines *)

(** The test of the renderer: [currentLine.trim().length === 0]. *)
Definition isBlank (line : jsstring) : bool := length (trim line) =? 0.

(** White space, as a property of a unit. *)
Definition White (c : N) : Prop := isWhiteSpace c = true.

(** The two characters a fence is made of. *)
Definition isFenceChar (c : N) : Prop := c = ch "`" \/ c = ch "~".

(** A line that can stand in a text as it is: no line feed in it and no
    carriage return at its end. *)
Definition isLine (l : jsstring) : Prop :=
  ~ In LF l /\ forall l', l <> l' ++ [CR].

(** The characters the markers removed by [calculateTextWidth] are made
    of. *)
Definition isMarker (c : N) : bool := oneOf "*_~`<[" c.

(** The sum of the widths of the characters. *)
Definition sumOfWidths (plainText : jsstring) : Z :=
  fold_right Z.add 0%Z (map charWidth (charCodes plainText)).

(** ** Spacers *)

(** [spacedFrom prev bs]: walking [bs] with [prev] telling whether the
    block before was a spacer (or there was none), no spacer follows a
    spacer. *)
Fixpoint spacedFrom (prev : bool) (bs : list Block) : bool :=
  match bs with
  | [] => true
  | b :: bs' =>
      if isSpacer b then negb prev && spacedFrom true bs'
      else spacedFrom false bs'
  end.

(** Whether the walk ends on a spacer. *)
Definition endsOnSpacer (prev : bool) (bs : list Block) : bool :=
  fold_left (fun _ b => isSpacer b) bs prev.

(** The invariant of the loop: the blocks are well spaced, and the flag
    is false only after a block that is no spacer. *)
Definition spacedState (st : ParserState) : Prop :=
  spacedFrom true (blocks st) = true /\
  (previousLineWasEmpty st = false -> endsOnSpacer true (blocks st) = false).

(** ** Growth of the block list *)

(** [st'] has the blocks of [st] and maybe more after them. *)
Definition extends (st st' : ParserState) : Prop :=
  exists bs, blocks st' = blocks st ++ bs.

(** ** Tables *)

(** The table block pushed when a table is closed, if any. *)
Definition flushedTable (w : Z) (st : ParserState) : list Block :=
  match tableHeaderCells st, tableDataRows st with
  | _ :: _, _ :: _ => [Table (tableHeaderCells st) (tableDataRows st) w]
  | _, _ => []
  end.

(** ** Code blocks *)

(** The test applied to a line inside a code block opened by the run
    [fence]: the line matches the fence pattern and its run closes
    [fence]. *)
Definition closesCodeBlock (fence line : jsstring) : bool :=
  match exec patterns.codeFence line with
  | Some fenceMatch => closesFence fence (groupStr 1 fenceMatch)
  | None => false
  end.

(** The two things a line does inside a code block. *)
Definition closeCodeBlock (st : ParserState) : ParserState :=
  setCodeBlock false [] None []
    (appendBlock (CodeBlock (codeBlockLines st) (codeBlockLanguage st)) st).

Definition pushCodeLine (line : jsstring) (st : ParserState) : ParserState :=
  setCodeBlock true (codeBlockLines st ++ [line])
    (codeBlockLanguage st) (codeBlockFence st) st.

(** ** The inputs of the examples *)

(** The text of the examples: lines joined by line feeds. *)
Definition textOf (lines : list jsstring) : jsstring := join [LF] lines.

(** The three lines of the example table and the block they give. *)
Definition tableLines : list jsstring :=
  [lit "| A | B |"; lit "| - | - |"; lit "| 1 | 2 |"].

Definition tableBlock (w : Z) : Block :=
  Table [lit "A"; lit "B"] [[lit "1"; lit "2"]] w.

(** The state after the three lines of the example table. *)
Definition tableOpen : ParserState :=
  setTable true [lit "A"; lit "B"] [[lit "1"; lit "2"]] initialState.

(** The fence match of the line "```js". *)
Definition openFence : MatchResult :=
  Eval vm_compute in
    match exec patterns.codeFence (lit "```js") with
    | Some m => m
    | None => Build_MatchResult 0 0 [] []
    end.

(** Lines for the inside of a code block: markup, a fence of tildes,
    two backticks. *)
Definition fencedLines : list jsstring :=
  [lit "**not bold**"; lit "~~~"; lit "``"].

(** Six Hangul syllables, two columns each. *)
Definition hangul6 : jsstring := List.repeat 0xAC00%N 6.

End Spec.

(* ================================================================== *)
(** * What a pattern can start with *)
(* ================================================================== *)

Module Prefix.

(** [nullable r]: read off the pattern, [r] may match without consuming
    a unit. *)
Fixpoint nullable (r : regex) : bool :=
  match r with
  | Empty | AssertStart | AssertEnd | Backref _ => true
  | Char _ | Class _ => false
  | Seq r1 r2 => nullable r1 && nullable r2
  | Alt r1 r2 => nullable r1 || nullable r2
  | Quant r' min max _ =>
      Nat.eqb min 0 || nullable r'
      || match max with Some O => true | _ => false end
  | Group _ r' => nullable r'
  end.

(** [starts r c]: read off the pattern, a match of [r] that consumes
    something may consume [c] first. *)
Fixpoint starts (r : regex) (c : N) : bool :=
  match r with
  | Char a => N.eqb a c
  | Class p => p c
  | Seq r1 r2 => starts r1 c || (nullable r1 && starts r2 c)
  | Alt r1 r2 => starts r1 c || starts r2 c
  | Quant r' _ _ _ | Group _ r' => starts r' c
  | Backref _ => true
  | _ => false
  end.

End Prefix.

(* ================================================================== *)
(** * The shape of the blocks and the elements built from them *)
(* ================================================================== *)

Module Shape.

Import Markdown Spec.

(** The width [renderMarkdown] works with: [terminalWidth = 80] by
    default. *)
Definition widthOf (options : RenderMarkdownOptions) : Z :=
  match terminalWidth options with Some w => w | None => 80%Z end.

(** The four styles of the [switch] on the level of a header. *)
Inductive HeaderStyle := BoldLink | BoldPrimary | ItalicSecondary | PlainPrimary.

Definition headerStyle (level : nat) : HeaderStyle :=
  match level with
  | 1 | 2 => BoldLink
  | 3 => BoldPrimary
  | 4 => ItalicSecondary
  | _ => PlainPrimary
  end.

(** [BuildListItem]: the prefix shown before the text of an item, and
    the padding on its left. *)
Definition displayPrefix (listType : ListType) (marker : jsstring) : jsstring :=
  match listType with
  | ol => marker ++ lit ". "
  | ul => marker ++ lit " "
  end.

Definition paddingLeft (indentation : jsstring) : nat := length indentation + 1.

(** The language of a code block: none, or a word. *)
Definition isLanguage (language : option jsstring) : Prop :=
  match language with
  | None => True
  | Some l => l <> [] /\ Forall (fun c => word c = true) l
  end.

(** The rows of a table have one cell per header. *)
Definition rectangular (columnHeaders : list jsstring)
    (dataRows : list (list jsstring)) : Prop :=
  Forall (fun row => length row = length columnHeaders) dataRows.

(** What the renderer puts in a block, by kind, at terminal width
    [w]. *)
Definition wellFormed (w : Z) (b : Block) : Prop :=
  match b with
  | Header level headerText =>
      1 <= level <= 4 /\ Forall (fun c => dot c = true) headerText
  | ListItem ul marker indentation itemText =>
      (exists c, marker = [c] /\ oneOf "-*+" c = true) /\
      Forall (fun c => patterns.spaceOrTab c = true) indentation /\
      Forall (fun c => dot c = true) itemText
  | ListItem ol marker indentation itemText =>
      marker <> [] /\ Forall (fun c => digit c = true) marker /\
      Forall (fun c => patterns.spaceOrTab c = true) indentation /\
      Forall (fun c => dot c = true) itemText
  | CodeBlock _ language => isLanguage language
  | Table columnHeaders dataRows maxWidth =>
      columnHeaders <> [] /\ dataRows <> [] /\
      rectangular columnHeaders dataRows /\ maxWidth = w
  | HorizontalRule rule =>
      (4 <= w)%Z /\
      rule = List.repeat boxHorizontal (Z.to_nat (Z.min 40 (w - 4)))
  | Paragraph content => isBlank content = false
  | Spacer => True
  end.

(** A line cut in the parts a pattern reads in it: what comes before
    the text, a gap of one blank or more, the text, and what is left
    after it. *)
Definition cutFrom (line before text : jsstring) : Prop :=
  exists gap rest,
    1 <= gap /\ line = before ++ List.repeat (ch " ") gap ++ text ++ rest.

(** Where the text of a block comes from: a paragraph is a line of the
    text and a code block holds lines of the text; the text of a header
    stands in a line after blanks, as many hash characters as the level
    and a gap; the text of a list item stands in a line after the
    indentation, the marker (and the dot of an ordered item) and a gap. *)
Definition sourced (lineArray : list jsstring) (b : Block) : Prop :=
  match b with
  | Paragraph content => In content lineArray
  | CodeBlock lines _ => incl lines lineArray
  | Header level headerText =>
      exists line indent,
        In line lineArray /\
        cutFrom line (List.repeat (ch " ") indent ++ List.repeat (ch "#") level)
          headerText
  | ListItem ul marker indentation itemText =>
      exists line,
        In line lineArray /\ cutFrom line (indentation ++ marker) itemText
  | ListItem ol marker indentation itemText =>
      exists line,
        In line lineArray /\
        cutFrom line (indentation ++ marker ++ lit ".") itemText
  | _ => True
  end.

Definition sourcedState (lineArray : list jsstring) (st : ParserState) : Prop :=
  Forall (sourced lineArray) (blocks st) /\
  incl (codeBlockLines st) lineArray.

(** The invariant of the loop: the blocks pushed so far are well formed,
    and so is what is held back for the code block and the table. *)
Definition wellFormedState (w : Z) (st : ParserState) : Prop :=
  Forall (wellFormed w) (blocks st) /\
  isLanguage (codeBlockLanguage st) /\
  rectangular (tableHeaderCells st) (tableDataRows st).

End Shape.

(* ================================================================== *)
(** * Lines of prose *)
(* ================================================================== *)

Module Prose.

Import Markdown.

(** A unit no line pattern can start with: no white space, no digit
    and none of the characters the patterns begin with. *)
Definition plainStart (c : N) : bool :=
  negb (isWhiteSpace c) && negb (digit c) && negb (oneOf "#`~-*+_|:" c).

(** A line that starts with such a unit. *)
Definition plainLine (line : jsstring) : bool :=
  match line with
  | c :: _ => plainStart c
  | [] => false
  end.

(** What a line that is a paragraph whatever the table does to the
    state before it: an open table is closed first. *)
Definition closeTable (w : Z) (st : ParserState) : ParserState :=
  if tableActive st then setTable false [] [] (flushTable w st) else st.

End Prose.

(* ================================================================== *)
(** * The runs of a tokenized text *)
(* ================================================================== *)

Module Runs.

Import Markdown.

(** What can be said of every run [ProcessInlineText] builds from a
    text that is not empty: plain, bold, italic, struck and code runs
    show something, and a bare link starts with "http". *)
Definition shown (sp : Span) : Prop :=
  match sp with
  | Plain text | Bold text | Italic text | Strike text | Code text =>
      text <> []
  | AutoLink url => startsWith url (lit "http") = true
  | Link _ _ | Underline _ => True
  end.

(** Where a run stands in the content it is made from: between its
    markers, which are left out of the run.  An italic run has no word
    character right before its opening marker nor right after its
    closing one. *)
Definition standsIn (content : jsstring) (sp : Span) : Prop :=
  match sp with
  | Plain text | AutoLink text =>
      exists before after, content = before ++ text ++ after
  | Bold text =>
      exists before after,
        content = before ++ lit "**" ++ text ++ lit "**" ++ after
  | Strike text =>
      exists before after,
        content = before ++ lit "~~" ++ text ++ lit "~~" ++ after
  | Underline text =>
      exists before after,
        content = before ++ lit "<u>" ++ text ++ lit "</u>" ++ after
  | Italic text =>
      exists before after d,
        content = before ++ [d] ++ text ++ [d] ++ after /\
        (d = ch "*" \/ d = ch "_") /\
        (forall pre c, before = pre ++ [c] -> word c = false) /\
        (forall c rest, after = c :: rest -> word c = false)
  | Code text =>
      exists before after n,
        1 <= n /\
        content = before ++ List.repeat (ch "`") n ++ text
                         ++ List.repeat (ch "`") n ++ after
  | Link label url =>
      exists before after,
        content = before ++ lit "[" ++ label ++ lit "](" ++ url ++ lit ")"
                         ++ after
  end.

End Runs.

(* ================================================================== *)
(** * Cells of narrow characters *)
(* ================================================================== *)

Module Narrow.

Import Markdown Spec.

(** A unit that is one character, one column wide, and that no
    [replace] of [calculateTextWidth] touches: no marker character, no
    first half of a surrogate pair and no wide character. *)
Definition narrow (c : N) : bool :=
  negb (isMarker c) && negb (isHighSurrogate c) && negb (isWide c).

(** [buildCell] has no room to show anything of a text it cuts below
    this column width: 2 columns of padding and the 3 of the ellipsis. *)
Definition minimalCellWidth : Z := 5.

(** The text Ink shows for a run: the runs show their text, a link
    its label and its address in parentheses. *)
Definition runText (sp : Span) : jsstring :=
  match sp with
  | Plain text | Bold text | Italic text | Strike text | Code text
  | Underline text | AutoLink text => text
  | Link label url => label ++ lit " (" ++ url ++ lit ")"
  end.

(** The text shown for [<ProcessInlineText content=... />]. *)
Definition inlineText (content : jsstring) : jsstring :=
  concat (map runText (ProcessInlineText content)).

(** [' '.repeat(paddingRequired)]; the count is a maximum with 0 and so
    never negative. *)
Definition blanks (count : Z) : jsstring :=
  List.repeat (ch " ") (Z.to_nat count).

(** The text of a cell: what is shown of it and the blanks after. *)
Definition cellText (cell : Cell) : jsstring :=
  inlineText (displayText cell) ++ blanks (paddingRequired cell).

(** The text of a row of [buildTableRow]: a bar and a blank, the cells
    with a blank, a bar and a blank between them, a blank and a bar.
    The bar is U+2502. *)
Definition rowText (cells : list Cell) : jsstring :=
  [0x2502%N; ch " "]
  ++ concat (mapi (fun cell idx =>
                     cellText cell
                     ++ (if Z.of_nat idx <? Z.of_nat (length cells) - 1
                         then [ch " "; 0x2502%N; ch " "] else [])%Z)
               cells)
  ++ [ch " "; 0x2502%N].

(** A cell with room in its column: the text fits as it is, or the
    column has room for the ellipsis. *)
Definition hasRoom (cellText : jsstring) (cellWidth : Z) : Prop :=
  (minimalCellWidth <= cellWidth)%Z \/
  (Z.of_nat (length cellText) + 2 <= cellWidth)%Z.

End Narrow.

(* ================================================================== *)
(** * The file viewer (components/FileViewer) *)
(* ================================================================== *)

Module FileViewer.

(** [const visibleLines = 20] *)
Definition visibleLines : Z := 20.

(** ** Searching *)

(** [s.indexOf(p, from)] for [0 <= from]: the first place at or after
    [from] where [p] stands in [s]; [None] is the -1 of the language.
    The empty [p] is found at [from], or at the end of [s] when [from]
    is beyond it. *)
Fixpoint indexOfFrom (s p : jsstring) (i : nat) : option nat :=
  if startsWith s p then Some i
  else match s with
       | [] => None
       | _ :: s' => indexOfFrom s' p (S i)
       end.

Definition indexOf (s p : jsstring) (from : nat) : option nat :=
  indexOfFrom (skipn from s) p (Nat.min from (length s)).

(** [s.slice(a, b)] for [0 <= a] and [0 <= b]. *)
Definition slice (s : jsstring) (a b : nat) : jsstring :=
  firstn (b - a) (skipn a s).

(** The two kinds of [<Text>] that [highlightSearch] builds: as the
    line is, and on the warning background. *)
Inductive Part :=
| TextPart (text : jsstring)
| Highlight (text : jsstring).

Definition partText (p : Part) : jsstring :=
  match p with TextPart text | Highlight text => text end.

(** What [highlightSearch] returns: the line itself, or a fragment of
    parts. *)
Inductive Node :=
| Line (line : jsstring)
| Fragment (parts : list Part).

Definition nodeText (n : Node) : jsstring :=
  match n with
  | Line line => line
  | Fragment parts => concat (map partText parts)
  end.

Section Search.

(** [String.prototype.toLowerCase], whatever it does to the units. *)
Variable toLowerCase : jsstring -> jsstring.

(** The [while (index !== -1)] loop of [highlightSearch] and the
    [if (lastIndex < line.length)] after it.  [None] stands for a loop
    that has not come to its end within [fuel] turns. *)
Fixpoint highlightLoop (fuel : nat) (line lowerLine lowerTerm : jsstring)
    (termLength lastIndex : nat) (index : option nat) : option (list Part) :=
  match index with
  | None =>
      Some (if lastIndex <? length line
            then [TextPart (skipn lastIndex line)] else [])
  | Some i =>
      match fuel with
      | O => None
      | S fuel' =>
          option_map
            (fun parts =>
               (if lastIndex <? i then [TextPart (slice line lastIndex i)] else [])
               ++ Highlight (slice line i (i + termLength)) :: parts)
            (highlightLoop fuel' line lowerLine lowerTerm termLength
               (i + termLength)
               (indexOf lowerLine lowerTerm (i + termLength)))
      end
  end.

Definition highlightSearch (line term : jsstring) : option Node :=
  match term with
  | [] => Some (Line line)
  | _ =>
      let lowerLine := toLowerCase line in
      let lowerTerm := toLowerCase term in
      option_map
        (fun parts =>
           match parts with
           | [] => Line line
           | _ => Fragment parts
           end)
        (highlightLoop (S (length lowerLine)) line lowerLine lowerTerm
           (length term) 0 (indexOf lowerLine lowerTerm 0))
  end.

(** The [forEach] that collects the indices of the lines holding the
    term. *)
Fixpoint matchesFrom (idx : nat) (lines : list jsstring) (searchTerm : jsstring)
    : list nat :=
  match lines with
  | [] => []
  | line :: more =>
      (if includes (toLowerCase line) (toLowerCase searchTerm) then [idx] else [])
      ++ matchesFrom (S idx) more searchTerm
  end.

End Search.

(** ** Scrolling *)

Record Viewer := {
  lines : list jsstring;
  scrollOffset : Z;
  matchLines : list nat;
  currentMatch : Z
}.

Definition setScrollOffset (offset : Z) (v : Viewer) : Viewer :=
  {| lines := lines v; scrollOffset := offset;
     matchLines := matchLines v; currentMatch := currentMatch v |}.

Definition setCurrentMatch (n : Z) (v : Viewer) : Viewer :=
  {| lines := lines v; scrollOffset := scrollOffset v;
     matchLines := matchLines v; currentMatch := n |}.

(** The effect run when the search term changes. *)
Definition search (toLowerCase : jsstring -> jsstring) (searchTerm : jsstring)
    (v : Viewer) : Viewer :=
  match searchTerm with
  | [] => {| lines := lines v; scrollOffset := scrollOffset v;
             matchLines := []; currentMatch := currentMatch v |}
  | _ =>
      let matches := matchesFrom toLowerCase 0 (lines v) searchTerm in
      {| lines := lines v;
         scrollOffset :=
           match matches with
           | first :: _ => Z.max 0 (Z.of_nat first - 5)
           | [] => scrollOffset v
           end;
         matchLines := matches;
         currentMatch := 0 |}
  end.

(** The keys the viewer answers to outside the search mode, but for
    those that close it or open the search bar. *)
Inductive Key :=
| ArrowUp | ArrowDown | PageUp | PageDown | HomeKey | EndKey
| NextMatch | PreviousMatch.

(** [matchLines[i]]; the index is a remainder by the length of
    [matchLines], so the element is there. *)
Definition matchLine (v : Viewer) (i : Z) : Z :=
  Z.of_nat (nth (Z.to_nat i) (matchLines v) 0).

(** The handler given to [useInput]. *)
Definition press (key : Key) (v : Viewer) : Viewer :=
  let total := Z.of_nat (length (lines v)) in
  let count := Z.of_nat (length (matchLines v)) in
  match key with
  | ArrowUp => setScrollOffset (Z.max 0 (scrollOffset v - 1)) v
  | ArrowDown =>
      setScrollOffset (Z.min (total - visibleLines) (scrollOffset v + 1)) v
  | PageUp => setScrollOffset (Z.max 0 (scrollOffset v - visibleLines)) v
  | PageDown =>
      setScrollOffset
        (Z.min (total - visibleLines) (scrollOffset v + visibleLines)) v
  | HomeKey => setScrollOffset 0 v
  | EndKey => setScrollOffset (Z.max 0 (total - visibleLines)) v
  | NextMatch =>
      if (0 <? count)%Z then
        let next := Z.rem (currentMatch v + 1) count in
        setScrollOffset (Z.max 0 (matchLine v next - 5)) (setCurrentMatch next v)
      else v
  | PreviousMatch =>
      if (0 <? count)%Z then
        let prev := Z.rem (currentMatch v - 1 + count) count in
        setScrollOffset (Z.max 0 (matchLine v prev - 5)) (setCurrentMatch prev v)
      else v
  end.

(** [lines.slice(start, end)] for any integers: a negative index
    counts from the end. *)
Definition sliceLines {A} (l : list A) (from to : Z) : list A :=
  let len := Z.of_nat (length l) in
  let k := if (from <? 0)%Z then Z.max (len + from) 0 else Z.min from len in
  let final := if (to <? 0)%Z then Z.max (len + to) 0 else Z.min to len in
  firstn (Z.to_nat (final - k)) (skipn (Z.to_nat k) l).

(** [lines.slice(scrollOffset, scrollOffset + visibleLines)] *)
Definition visibleContent (v : Viewer) : list jsstring :=
  sliceLines (lines v) (scrollOffset v) (scrollOffset v + visibleLines).

(** The state the viewer is in while there are matches: the current
    match is one of them. *)
Definition onAMatch (v : Viewer) : Prop :=
  (0 <= currentMatch v < Z.of_nat (length (matchLines v)))%Z.

(** The keys that only move the window. *)
Definition isMove (key : Key) : bool :=
  match key with
  | NextMatch | PreviousMatch => false
  | _ => true
  end.

(** ** The viewers of the examples *)

(** Thirty empty lines, the window at line 5. *)
Definition thirtyLines : Viewer :=
  {| lines := List.repeat [] 30; scrollOffset := 5;
     matchLines := []; currentMatch := 0 |}.

(** Twelve lines, each holding its number. *)
Definition twelveLines : Viewer :=
  {| lines := map (fun n => [n]) [1; 2; 3; 4; 5; 6; 7; 8; 9; 10; 11; 12]%N;
     scrollOffset := 0; matchLines := []; currentMatch := 0 |}.

(** Forty lines with matches on lines 2, 17 and 30, the last one
    current. *)
Definition threeMatches : Viewer :=
  {| lines := List.repeat [] 40; scrollOffset := 0;
     matchLines := [2; 17; 30]; currentMatch := 2 |}.

(** Three lines, before any search. *)
Definition threeLines : Viewer :=
  {| lines := [lit "abc"; lit "xyz"; lit "b"]; scrollOffset := 7;
     matchLines := []; currentMatch := 5 |}.

(** ASCII letters to lower case, unit by unit. *)
Definition asciiLower (c : N) : N :=
  if RegExp.inRange (ch "A") (ch "Z") c then (c + 32)%N else c.

End FileViewer.

(* ================================================================== *)
(** * Platform detection (utils/platform) *)
(* ================================================================== *)

Module Platform.

(** [a === b] on strings *)
Definition sameString (a b : jsstring) : bool :=
  (length a =? length b) && startsWith a b.

Section Host.

(** [os.platform()] *)
Variable platform : jsstring.

Definition isWindows : bool := sameString platform (lit "win32").
Definition isMacOS : bool := sameString platform (lit "darwin").
Definition isLinux : bool := sameString platform (lit "linux").
Definition isUnixLike : bool := isMacOS || isLinux.

Record Features := { processManager : bool; diskUtils : bool; ai : bool }.

Definition features : Features :=
  {| processManager := isUnixLike; diskUtils := isUnixLike; ai := isUnixLike |}.

(** What [spawnSync('which', ['claude'], ...)] does: it throws, or it
    returns an exit status, if any, and the standard output, if any. *)
Inductive Spawn :=
| SpawnThrows
| SpawnReturns (status : option Z) (stdout : option jsstring).

(** [isClaudeCLIAvailable()], given what the spawn does when it is
    run. *)
Definition isClaudeCLIAvailable (which : Spawn) : bool :=
  if negb isUnixLike then false
  else match which with
       | SpawnThrows => false
       | SpawnReturns status stdout =>
           match status with Some 0%Z => true | _ => false end
           && match stdout with
              | Some out => Markdown.isNonEmpty (trim out)
              | None => false
              end
       end.

(** [checkClaudeCLI()]: the module variable [claudeAvailableCache] is
    passed in and out. *)
Definition checkClaudeCLI (which : Spawn) (claudeAvailableCache : option bool)
    : bool * option bool :=
  match claudeAvailableCache with
  | None =>
      let available := isClaudeCLIAvailable which in
      (available, Some available)
  | Some available => (available, Some available)
  end.

Definition resetClaudeCLICache (claudeAvailableCache : option bool)
    : option bool := None.

(** A run of calls to [checkClaudeCLI], each with what the spawn would
    do were it run at that time: the values returned and the cache
    left. *)
Fixpoint checks (spawns : list Spawn) (cache : option bool)
    : list bool * option bool :=
  match spawns with
  | [] => ([], cache)
  | which :: more =>
      let (available, cache') := checkClaudeCLI which cache in
      let (rest, final) := checks more cache' in
      (available :: rest, final)
  end.

End Host.

End Platform.

(* ================================================================== *)
(** * The history of the AI command modal (components/AICommandModal) *)
(* ================================================================== *)

Module Modal.

Import Markdown.



(** [stdout?.columns || 80] *)
Definition terminalWidth (columns : option Z) : Z :=
  match columns with
  | Some c => if (c =? 0)%Z then 80%Z else c
  | None => 80%Z
  end.







End Modal.

(* ================================================================== *)
(** * Facts about the matcher *)
(* ================================================================== *)

Module RegExpFacts.

(** ** Every success of the matcher is described by [Sem] *)

Lemma startsWith_app (s p : jsstring) :
  startsWith s p = true -> s = p ++ skipn (length p) s.
Proof.
  revert s; induction p as [|a p IH]; intros s H; simpl in *.
  - reflexivity.
  - destruct s as [|b s]; [discriminate|].
    apply andb_prop in H as [Hab Hp].
    apply N.eqb_eq in Hab; subst b.
    simpl. f_equal. now apply IH.
Qed.

Lemma step1_sound (p : N -> bool) x c z :
  step1 p x c = Some z ->
  exists a t, rest x = a :: t /\ p a = true /\
    c {| endIndex := S (endIndex x); rest := t; captures := captures x |} = Some z.
Proof.
  unfold step1. destruct (rest x) as [|a t]; [discriminate|].
  destruct (p a) eqn:Hp; [|discriminate].
  intros H. now exists a, t.
Qed.

Section RepeatSound.

Variable r : regex.
Hypothesis body_sound : forall x c z,
  compile r x c = Some z -> exists y, Reaches r x y /\ c y = Some z.

Lemma repeatMatcher_sound greedy fuel : forall min max x c z,
  repeatMatcher (compile r) (groupsOf r) greedy fuel min max x c = Some z ->
  exists y, Reaches (Quant r min max greedy) x y /\ c y = Some z.
Proof.
  induction fuel as [|fuel IH]; intros min max x c z H; simpl in H.
  - discriminate.
  - assert (Hstop : c x = Some z ->
              (min = 0 \/ max = Some 0) ->
              exists y, Reaches (Quant r min max greedy) x y /\ c y = Some z).
    { intros Hc Hm. exists x. split; [|exact Hc].
      exists []. simpl. repeat split; auto.
      now constructor. }
    assert (Hiter : max <> Some 0 ->
              compile r (clearCaptures (groupsOf r) x)
                (fun y =>
                   if Nat.eqb min 0 && Nat.eqb (endIndex y) (endIndex x) then None
                   else repeatMatcher (compile r) (groupsOf r) greedy fuel
                          (pred min) (option_map pred max) y c) = Some z ->
              exists y, Reaches (Quant r min max greedy) x y /\ c y = Some z).
    { intros Hmax Hm.
      apply body_sound in Hm as (y1 & (w1 & Hr1 & Hi1 & Hs1) & Hd).
      simpl in Hr1, Hi1, Hs1.
      destruct (Nat.eqb min 0 && Nat.eqb (endIndex y1) (endIndex x)) eqn:Hchk;
        [discriminate|].
      apply IH in Hd as (y2 & (w2 & Hr2 & Hi2 & Hs2) & Hc).
      exists y2. split; [|exact Hc].
      exists (w1 ++ w2). rewrite length_app, <- app_assoc.
      repeat split.
      - now rewrite Hr1, Hr2.
      - lia.
      - apply SemQuantIter with (k1 := captures y1); auto.
        + intros Hmin Hw. subst min w1. simpl in Hi1.
          rewrite Nat.add_0_r in Hi1. rewrite Hi1, !Nat.eqb_refl in Hchk.
          simpl in Hchk. discriminate.
        + now rewrite <- Hr2.
        + now rewrite <- Hi1. }
    destruct max as [[|mx]|].
    + apply Hstop; auto.
    + destruct (Nat.eqb min 0) eqn:Hmin; simpl in H.
      * apply Nat.eqb_eq in Hmin.
        destruct greedy; unfold orElse in H.
        -- match type of H with
           | match ?e with _ => _ end = _ => destruct e eqn:He
           end.
           ++ inversion H; subst. apply Hiter; [discriminate|exact He].
           ++ apply Hstop; auto.
        -- destruct (c x) eqn:Hc.
           ++ inversion H; subst. apply Hstop; auto.
           ++ apply Hiter; [discriminate|exact H].
      * apply Hiter; [discriminate|exact H].
    + destruct (Nat.eqb min 0) eqn:Hmin; simpl in H.
      * apply Nat.eqb_eq in Hmin.
        destruct greedy; unfold orElse in H.
        -- match type of H with
           | match ?e with _ => _ end = _ => destruct e eqn:He
           end.
           ++ inversion H; subst. apply Hiter; [discriminate|exact He].
           ++ apply Hstop; auto.
        -- destruct (c x) eqn:Hc.
           ++ inversion H; subst. apply Hstop; auto.
           ++ apply Hiter; [discriminate|exact H].
      * apply Hiter; [discriminate|exact H].
Qed.

End RepeatSound.

(** Every success of the matcher goes through a state described by
    [Sem]. *)
Theorem compile_sound (r : regex) : forall x c z,
  compile r x c = Some z -> exists y, Reaches r x y /\ c y = Some z.
Proof.
  induction r as [ | a | p | r1 IH1 r2 IH2 | r1 IH1 r2 IH2
                 | r IH min max greedy | n r IH | | | n ];
    intros x c z H; cbn [compile] in H.
  - exists x. split; [|exact H]. exists []. simpl.
    repeat split; auto. constructor.
  - apply step1_sound in H as (a' & t & Hr & Hp & Hc).
    apply N.eqb_eq in Hp; subst a'.
    eexists. split; [|exact Hc]. exists [a]. simpl.
    repeat split; auto; [lia|constructor].
  - apply step1_sound in H as (a & t & Hr & Hp & Hc).
    eexists. split; [|exact Hc]. exists [a]. simpl.
    repeat split; auto; [lia|now constructor].
  - apply IH1 in H as (y1 & (w1 & Hr1 & Hi1 & Hs1) & H).
    apply IH2 in H as (y2 & (w2 & Hr2 & Hi2 & Hs2) & H).
    exists y2. split; [|exact H].
    exists (w1 ++ w2). rewrite length_app, <- app_assoc.
    repeat split.
    + now rewrite Hr1, Hr2.
    + lia.
    + econstructor.
      * rewrite <- Hr2. exact Hs1.
      * rewrite <- Hi1. exact Hs2.
  - unfold orElse in H. destruct (compile r1 x c) eqn:H1.
    + inversion H; subst.
      apply IH1 in H1 as (y & (w & Hr & Hi & Hs) & Hc).
      exists y. split; [|exact Hc]. exists w. repeat split; auto.
      now apply SemAltL.
    + apply IH2 in H as (y & (w & Hr & Hi & Hs) & Hc).
      exists y. split; [|exact Hc]. exists w. repeat split; auto.
      now apply SemAltR.
  - eapply repeatMatcher_sound; eauto.
  - apply IH in H as (y & (w & Hr & Hi & Hs) & Hc).
    eexists. split; [|exact Hc].
    exists w. simpl. repeat split; auto.
    replace (endIndex y - endIndex x) with (length w) by lia.
    rewrite Hr, firstn_app, Nat.sub_diag, firstn_all. simpl.
    rewrite app_nil_r. now constructor.
  - destruct (Nat.eqb (endIndex x) 0) eqn:H0; [|discriminate].
    apply Nat.eqb_eq in H0.
    exists x. split; [|exact H]. exists []. simpl.
    repeat split; auto. rewrite H0. constructor.
  - destruct (rest x) eqn:Hr; [|discriminate].
    exists x. split; [|exact H]. exists []. simpl.
    repeat split; auto. rewrite Hr. constructor.
  - unfold backrefMatcher in H.
    destruct (getCapture n (captures x)) as [s|] eqn:Hg.
    + destruct (startsWith (rest x) s) eqn:Hs; [|discriminate].
      eexists. split; [|exact H]. exists s. simpl.
      repeat split; auto.
      * now apply startsWith_app.
      * constructor; [now right|]. rewrite Hg. discriminate.
    + exists x. split; [|exact H]. exists []. simpl.
      repeat split; auto. constructor; auto.
Qed.

(** What [scan] returns: the place of the match in the input and the
    captures, described by [Sem]. *)
Theorem scan_sound (r : regex) : forall s i m,
  scan r i s = Some m ->
  exists pre w post,
    s = pre ++ w ++ post /\
    index m = i + length pre /\
    lastIndex m = index m + length w /\
    matched m = w /\
    Sem r (index m) w post [] (groups m).
Proof.
  assert (Hhere : forall s i y0,
    compile r {| endIndex := i; rest := s; captures := [] |} Some = Some y0 ->
    exists w post,
      s = w ++ post /\ endIndex y0 = i + length w /\
      firstn (endIndex y0 - i) s = w /\
      Sem r i w post [] (captures y0)).
  { intros s i y0 Hc.
    apply compile_sound in Hc as (y & (w & Hr & Hi & Hs) & Hy).
    injection Hy as ->. simpl in *.
    exists w, (rest y0). repeat split; auto.
    replace (endIndex y0 - i) with (length w) by lia.
    rewrite Hr, firstn_app, Nat.sub_diag, firstn_all. simpl.
    now rewrite app_nil_r. }
  induction s as [|a s IH]; intros i m H; simpl in H.
  - destruct (compile r _ Some) as [y0|] eqn:Hc; [|discriminate].
    injection H as <-. simpl.
    apply Hhere in Hc as (w & post & Hs & Hi & Hf & Hsem).
    exists [], w, post. simpl. repeat split; auto; lia.
  - destruct (compile r _ Some) as [y0|] eqn:Hc.
    + injection H as <-. simpl.
      apply Hhere in Hc as (w & post & Hs & Hi & Hf & Hsem).
      exists [], w, post. simpl. repeat split; auto; lia.
    + apply IH in H as (pre & w & post & Hs & Hi & Hl & Hm & Hsem).
      exists (a :: pre), w, post. simpl.
      repeat split; auto; try lia. now rewrite Hs.
Qed.

Lemma Sem_Needs (B : N -> Prop) r i w post k k' :
  Sem r i w post k k' -> Needs r B -> exists c, In c w /\ ~ B c.
Proof.
  induction 1; simpl; intros HN; try contradiction.
  - exists a. split; [now left|exact HN].
  - exists a. split; [now left|now apply HN].
  - destruct HN as [HN|HN].
    + destruct (IHSem1 HN) as (c & Hc & HB). exists c.
      split; [apply in_or_app; now left|exact HB].
    + destruct (IHSem2 HN) as (c & Hc & HB). exists c.
      split; [apply in_or_app; now right|exact HB].
  - destruct HN as [HN _]. now apply IHSem.
  - destruct HN as [_ HN]. now apply IHSem.
  - destruct HN as (Hmin & Hmax & _). destruct H; [lia|contradiction].
  - destruct HN as (_ & _ & HN).
    destruct (IHSem1 HN) as (c & Hc & HB). exists c.
    split; [apply in_or_app; now left|exact HB].
  - now apply IHSem.
Qed.

Lemma Sem_accepts r i w post k k' :
  Sem r i w post k k' -> Forall (fun c => accepts r c = true) w.
Proof.
  induction 1; simpl; auto.
  - constructor; [apply N.eqb_refl|constructor].
  - apply Forall_app. split.
    + eapply Forall_impl; [|exact IHSem1]. simpl. intros c ->. reflexivity.
    + eapply Forall_impl; [|exact IHSem2]. simpl. intros c ->.
      apply orb_true_r.
  - eapply Forall_impl; [|exact IHSem]. simpl. intros c ->. reflexivity.
  - eapply Forall_impl; [|exact IHSem]. simpl. intros c ->. apply orb_true_r.
  - apply Forall_app. split; assumption.
  - apply Forall_forall. reflexivity.
Qed.

Lemma Sem_anchoredStart r i w post k k' :
  Sem r i w post k k' -> anchoredStart r = true -> i = 0.
Proof.
  induction 1; simpl; intros HA; try discriminate; auto.
  - apply andb_prop in HA as [HA _]. auto.
  - apply andb_prop in HA as [_ HA]. auto.
Qed.

Lemma Sem_anchoredEnd r i w post k k' :
  Sem r i w post k k' -> anchoredEnd r = true -> post = [].
Proof.
  induction 1; simpl; intros HA; try discriminate; auto.
  - apply andb_prop in HA as [HA _]. auto.
  - apply andb_prop in HA as [_ HA]. auto.
Qed.

(** A pattern without groups leaves the captures alone. *)
Lemma Sem_nogroups r i w post k k' :
  Sem r i w post k k' -> groupsOf r = [] -> k' = k.
Proof.
  induction 1; simpl; intros HG; auto; try discriminate.
  - apply app_eq_nil in HG as [H1 H2].
    rewrite (IHSem2 H2). now apply IHSem1.
  - apply app_eq_nil in HG as [H1 _]. auto.
  - apply app_eq_nil in HG as [_ H2]. auto.
  - rewrite (IHSem2 HG), (IHSem1 HG). unfold cleared. now rewrite HG.
Qed.

(** A repeated character consumes a run of that character, with a
    length inside the bounds of the quantifier. *)
Lemma Sem_Quant_Char a min max g i w post k k' :
  Sem (Quant (Char a) min max g) i w post k k' ->
  match max with Some mx => min <= mx | None => True end ->
  w = List.repeat a (length w) /\ withinBounds min max (length w).
Proof.
  remember (Quant (Char a) min max g) as r eqn:Hr.
  intros H. revert min max Hr.
  induction H; intros min' max' Hr Hb; try discriminate.
  - injection Hr as -> -> -> ->. simpl. unfold withinBounds.
    destruct H as [->| ->]; repeat split; auto; try lia;
      destruct max'; auto; lia.
  - injection Hr as -> -> -> ->. clear IHSem1.
    inversion H1; subst. simpl.
    destruct (IHSem2 _ _ eq_refl) as [Hw [Hlo Hhi]].
    { destruct max' as [[|mx]|]; simpl; auto; try lia; congruence. }
    unfold withinBounds. repeat split.
    + now rewrite <- Hw.
    + lia.
    + destruct max' as [[|mx]|]; simpl in *; auto; try lia; congruence.
Qed.

(** ** The fuel of the repeat matcher is enough

    A matcher hands its continuation only states further on in the
    input; so every turn of the repeat matcher uses up a required
    repetition or some input, and fuel beyond the amount [compile] gives
    changes nothing. *)

Lemma After_refl x : After x x.
Proof. exists []. simpl. split; [reflexivity|lia]. Qed.

Lemma After_trans x y z : After x y -> After y z -> After x z.
Proof.
  intros (w1 & Hr1 & Hi1) (w2 & Hr2 & Hi2). exists (w1 ++ w2).
  rewrite length_app, <- app_assoc, <- Hr2. split; [assumption|lia].
Qed.

Lemma After_length x y : After x y -> length (rest y) <= length (rest x).
Proof. intros (w & Hr & _). rewrite Hr, length_app. lia. Qed.

Lemma After_progress x y :
  After x y -> endIndex y <> endIndex x -> length (rest y) < length (rest x).
Proof.
  intros (w & Hr & Hi) Hne. rewrite Hr, length_app.
  destruct w; simpl in *; lia.
Qed.

Lemma Local_step1 p : Local (step1 p).
Proof.
  intros x c c' H. unfold step1.
  destruct (rest x) as [|a t] eqn:Hr; [reflexivity|].
  destruct (p a); [|reflexivity].
  apply H. exists [a]. simpl. split; [assumption|lia].
Qed.

Lemma Local_repeatMatcher m parens greedy :
  Local m ->
  forall fuel min max, Local (fun x c => repeatMatcher m parens greedy fuel min max x c).
Proof.
  intros Hm. induction fuel as [|fuel IH]; intros min max x c c' H; simpl.
  - reflexivity.
  - assert (Hd : m (clearCaptures parens x)
               (fun y =>
                  if Nat.eqb min 0 && Nat.eqb (endIndex y) (endIndex x) then None
                  else repeatMatcher m parens greedy fuel (pred min)
                         (option_map pred max) y c)
             = m (clearCaptures parens x)
               (fun y =>
                  if Nat.eqb min 0 && Nat.eqb (endIndex y) (endIndex x) then None
                  else repeatMatcher m parens greedy fuel (pred min)
                         (option_map pred max) y c')).
    { apply Hm. intros y Hy.
      destruct (Nat.eqb min 0 && Nat.eqb (endIndex y) (endIndex x));
        [reflexivity|].
      apply IH. intros z Hz. apply H.
      exact (After_trans _ _ _ Hy Hz). }
    rewrite Hd, (H x (After_refl x)). reflexivity.
Qed.

Lemma Local_compile r : Local (compile r).
Proof.
  induction r as [ | a | p | r1 IH1 r2 IH2 | r1 IH1 r2 IH2
                 | r IH min max greedy | n r IH | | | n ];
    intros x c c' H; cbn [compile].
  - apply H, After_refl.
  - now apply Local_step1.
  - now apply Local_step1.
  - apply IH1. intros y Hy. apply IH2. intros z Hz.
    apply H. exact (After_trans _ _ _ Hy Hz).
  - now rewrite (IH1 x c c' H), (IH2 x c c' H).
  - now apply (Local_repeatMatcher _ _ _ IH).
  - apply IH. intros y Hy. apply H. exact Hy.
  - destruct (Nat.eqb (endIndex x) 0); [apply H, After_refl|reflexivity].
  - destruct (rest x); [apply H, After_refl|reflexivity].
  - unfold backrefMatcher.
    destruct (getCapture n (captures x)) as [s|]; [|apply H, After_refl].
    destruct (startsWith (rest x) s) eqn:Hs; [|reflexivity].
    apply H. exists s. simpl. split; [|reflexivity].
    now apply startsWith_app.
Qed.

Lemma repeatMatcher_fuel m parens greedy :
  Local m ->
  forall fuel1 fuel2 min max x c,
    min + length (rest x) < fuel1 ->
    min + length (rest x) < fuel2 ->
    repeatMatcher m parens greedy fuel1 min max x c
    = repeatMatcher m parens greedy fuel2 min max x c.
Proof.
  intros Hm. induction fuel1 as [|fuel1 IH]; intros fuel2 min max x c H1 H2.
  - lia.
  - destruct fuel2 as [|fuel2]; [lia|]. simpl.
    assert (Hd : m (clearCaptures parens x)
               (fun y =>
                  if Nat.eqb min 0 && Nat.eqb (endIndex y) (endIndex x) then None
                  else repeatMatcher m parens greedy fuel1 (pred min)
                         (option_map pred max) y c)
             = m (clearCaptures parens x)
               (fun y =>
                  if Nat.eqb min 0 && Nat.eqb (endIndex y) (endIndex x) then None
                  else repeatMatcher m parens greedy fuel2 (pred min)
                         (option_map pred max) y c)).
    { apply Hm. intros y Hy.
      destruct (Nat.eqb min 0) eqn:Hmin; simpl.
      - apply Nat.eqb_eq in Hmin. subst min.
        destruct (Nat.eqb (endIndex y) (endIndex x)) eqn:Hi; [reflexivity|].
        apply Nat.eqb_neq in Hi.
        pose proof (After_progress _ _ Hy Hi) as Hlt. simpl in Hlt.
        apply IH; simpl; lia.
      - apply Nat.eqb_neq in Hmin.
        pose proof (After_length _ _ Hy) as Hle. simpl in Hle.
        apply IH; lia. }
    now rewrite Hd.
Qed.

(** The matcher of a quantifier is the repeat matcher with any amount of
    fuel from the amount [compile] gives. *)
Theorem compile_Quant_fuel r min max greedy x c fuel :
  min + length (rest x) < fuel ->
  compile (Quant r min max greedy) x c
  = repeatMatcher (compile r) (groupsOf r) greedy fuel min max x c.
Proof.
  intros H. cbn [compile].
  apply repeatMatcher_fuel; [apply Local_compile|lia|exact H].
Qed.

End RegExpFacts.

(* ================================================================== *)
(** * Facts about the line patterns *)
(* ================================================================== *)

Module PatternFacts.

Import RegExpFacts Markdown Spec.

Lemma exec_Sem r s m :
  exec r s = Some m ->
  exists pre w post,
    s = pre ++ w ++ post /\ index m = length pre /\
    Sem r (index m) w post [] (groups m).
Proof.
  unfold exec. intros H.
  apply scan_sound in H as (pre & w & post & Hs & Hi & _ & _ & Hsem).
  now exists pre, w, post.
Qed.

(** A pattern that needs a unit outside [B] matches no string made of
    units of [B]. *)
Lemma exec_Needs (B : N -> Prop) r s :
  Needs r B -> (forall c, In c s -> B c) -> exec r s = None.
Proof.
  intros HN HB. destruct (exec r s) as [m|] eqn:He; [|reflexivity].
  apply exec_Sem in He as (pre & w & post & Hs & _ & Hsem).
  destruct (Sem_Needs B _ _ _ _ _ _ Hsem HN) as (c & Hc & HnB).
  exfalso. apply HnB, HB. subst s.
  apply in_or_app; right; apply in_or_app; now left.
Qed.

(** A match of a pattern anchored at both ends covers the whole
    string. *)
Lemma exec_anchored r s m :
  exec r s = Some m ->
  anchoredStart r = true -> anchoredEnd r = true ->
  Sem r 0 s [] [] (groups m).
Proof.
  intros He Ha Hz.
  apply exec_Sem in He as (pre & w & post & Hs & Hi & Hsem).
  pose proof (Sem_anchoredStart _ _ _ _ _ _ Hsem Ha) as H0.
  pose proof (Sem_anchoredEnd _ _ _ _ _ _ Hsem Hz) as Hp.
  rewrite H0 in *. subst post.
  destruct pre; [|simpl in Hi; discriminate].
  simpl in Hs. rewrite app_nil_r in Hs. now subst w.
Qed.

(** Two patterns cannot both match when one is anchored and the other
    needs a unit the first never consumes. *)
Lemma exec_disjoint r1 r2 s m :
  exec r1 s = Some m ->
  anchoredStart r1 = true -> anchoredEnd r1 = true ->
  Needs r2 (fun c => accepts r1 c = true) ->
  exec r2 s = None.
Proof.
  intros He Ha Hz HN.
  apply exec_Needs with (B := fun c => accepts r1 c = true); [exact HN|].
  pose proof (Sem_accepts _ _ _ _ _ _ (exec_anchored _ _ _ He Ha Hz)) as Hall.
  now apply Forall_forall.
Qed.

(** ** Blank lines *)

Lemma trimStart_cases s :
  (trimStart s = [] /\ Forall (fun c => isWhiteSpace c = true) s) \/
  (exists c t, trimStart s = c :: t /\ isWhiteSpace c = false).
Proof.
  induction s as [|a s IH]; simpl.
  - left. split; auto.
  - destruct (isWhiteSpace a) eqn:Ha.
    + destruct IH as [[H1 H2]|H]; [left|right; exact H].
      split; auto.
    + right. now exists a, s.
Qed.

Lemma trimStart_nonblank_last s c t :
  trimStart (s ++ [c]) = t -> isWhiteSpace c = false -> t <> [].
Proof.
  revert t; induction s as [|a s IH]; simpl; intros t Ht Hc.
  - rewrite Hc in Ht. subst t. discriminate.
  - destruct (isWhiteSpace a).
    + eapply IH; eauto.
    + subst t. discriminate.
Qed.

Lemma isBlank_spec line :
  isBlank line = true -> forall c, In c line -> isWhiteSpace c = true.
Proof.
  unfold isBlank, trim, trimEnd. intros H.
  apply Nat.eqb_eq in H. rewrite length_rev in H.
  apply length_zero_iff_nil in H.
  destruct (trimStart_cases line) as [[_ Hall]|(c & t & Ht & Hc)].
  - now apply Forall_forall.
  - exfalso. rewrite Ht in H. simpl in H.
    now apply (trimStart_nonblank_last _ _ _ H).
Qed.

Lemma isBlank_nil : isBlank [] = true.
Proof. reflexivity. Qed.

Ltac needs_atom :=
  match goal with
  | |- ~ _ => let H := fresh in intro H; vm_compute in H; discriminate H
  | |- forall c, _ -> ~ _ =>
      let c := fresh "c" in let H := fresh "H" in let H' := fresh "H" in
      intros c H H'; cbv [oneOf lit existsb ch] in H;
      repeat (apply orb_prop in H as [H|H]);
      try discriminate H;
      apply N.eqb_eq in H; subst c; vm_compute in H'; discriminate H'
  end.

Ltac needs :=
  cbn [Needs];
  first [ needs_atom
        | split; [lia | split; [discriminate | needs]]
        | split; [needs | needs]
        | left; needs
        | right; needs ].

Lemma header_needs : Needs patterns.header White.
Proof. cbv [patterns.header re cat star plus c1]. needs. Qed.

Lemma codeFence_needs : Needs patterns.codeFence White.
Proof. cbv [patterns.codeFence re cat star atLeast c1]. needs. Qed.

Lemma unorderedList_needs : Needs patterns.unorderedList White.
Proof. cbv [patterns.unorderedList re cat star plus c1]. needs. Qed.

Lemma orderedList_needs : Needs patterns.orderedList White.
Proof. cbv [patterns.orderedList re cat star plus c1]. needs. Qed.

Lemma horizontalRule_needs : Needs patterns.horizontalRule White.
Proof. cbv [patterns.horizontalRule re cat star atLeast c1]. needs. Qed.

Lemma tableRow_needs : Needs patterns.tableRow White.
Proof. cbv [patterns.tableRow re cat star plus c1]. needs. Qed.

Lemma tableSeparator_needs : Needs patterns.tableSeparator White.
Proof. cbv [patterns.tableSeparator re cat star plus opt c1]. needs. Qed.

(** A blank line matches none of the line patterns. *)
Lemma blank_matches_nothing line :
  isBlank line = true ->
  exec patterns.codeFence line = None /\
  exec patterns.header line = None /\
  exec patterns.unorderedList line = None /\
  exec patterns.orderedList line = None /\
  exec patterns.horizontalRule line = None /\
  exec patterns.tableRow line = None /\
  exec patterns.tableSeparator line = None.
Proof.
  intros Hb. pose proof (isBlank_spec _ Hb) as Hall.
  repeat split; apply exec_Needs with (B := White); auto.
  - apply codeFence_needs.
  - apply header_needs.
  - apply unorderedList_needs.
  - apply orderedList_needs.
  - apply horizontalRule_needs.
  - apply tableRow_needs.
  - apply tableSeparator_needs.
Qed.

(** ** Fences, table rows and separators exclude each other *)

Lemma separator_is_no_fence line :
  test patterns.tableSeparator line = true ->
  exec patterns.codeFence line = None.
Proof.
  unfold test. destruct (exec patterns.tableSeparator line) eqn:He;
    [intros _|discriminate].
  eapply exec_disjoint; eauto.
  cbv [patterns.codeFence re cat star atLeast c1]. needs.
Qed.

Lemma fence_is_no_tableRow line m :
  exec patterns.codeFence line = Some m ->
  exec patterns.tableRow line = None.
Proof.
  intros He. eapply exec_disjoint; eauto.
  cbv [patterns.tableRow re cat star plus c1]. needs.
Qed.

Lemma tableRow_is_no_fence line m :
  exec patterns.tableRow line = Some m ->
  exec patterns.codeFence line = None.
Proof.
  intros He. destruct (exec patterns.codeFence line) eqn:Hf; [|reflexivity].
  apply fence_is_no_tableRow in Hf. congruence.
Qed.

(** ** The fence run captured by the fence pattern *)

Ltac inv H := inversion H; subst; clear H.

Ltac inv_sem :=
  repeat match goal with
  | H : Sem (Seq _ _) _ _ _ _ _ |- _ => inv H
  | H : Sem (Group _ _) _ _ _ _ _ |- _ => inv H
  | H : Sem (Alt _ _) _ _ _ _ _ |- _ => inv H
  | H : Sem AssertStart _ _ _ _ _ |- _ => inv H
  | H : Sem AssertEnd _ _ _ _ _ |- _ => inv H
  end.

Lemma codeFence_run line m :
  exec patterns.codeFence line = Some m ->
  exists c n,
    group 1 m = Some (List.repeat c n) /\ 3 <= n /\ isFenceChar c.
Proof.
  intros He.
  apply exec_anchored in He; [|reflexivity|reflexivity].
  cbv [patterns.codeFence re cat] in He.
  inv_sem;
    match goal with
    | H : Sem (atLeast 3 (c1 ?a)) _ ?w _ _ _ |- _ =>
        destruct (Sem_Quant_Char _ _ _ _ _ _ _ _ _ H I) as [Hw [Hn _]];
        exists (ch a), (length w)
    end;
    repeat match goal with
    | H : Sem _ _ _ _ _ _ |- _ => apply Sem_nogroups in H; [|reflexivity]
    end;
    subst; unfold group.
  - match goal with H : groups m = _ |- _ => rewrite H end.
    rewrite <- Hw. simpl. repeat split; auto. now left.
  - match goal with H : groups m = _ |- _ => rewrite H end.
    rewrite <- Hw. simpl. repeat split; auto. now right.
Qed.

End PatternFacts.

(* ================================================================== *)
(** * Properties of the renderer *)
(* ================================================================== *)

Module Properties.

Import RegExpFacts PatternFacts Markdown Spec.

(** ** The loops over the matches run to their end

    [replaceAll1] and [ProcessInlineText] give their loops one turn per
    unit of the string and one more; every turn moves on in the string,
    so more turns change nothing. *)

Lemma replaceG1_fuel r : forall fuel1 fuel2 i s,
  length s < fuel1 -> length s < fuel2 ->
  replaceG1 fuel1 r i s = replaceG1 fuel2 r i s.
Proof.
  induction fuel1 as [|fuel1 IH]; intros fuel2 i s H1 H2; [lia|].
  destruct fuel2 as [|fuel2]; [lia|]. simpl.
  destruct (scan r i s) as [m|] eqn:Hs; [|reflexivity].
  apply scan_sound in Hs as (pre & w & post & Hs & Hi & Hl & _ & _).
  assert (Hlen : length s = length pre + length w + length post).
  { rewrite Hs, !length_app. lia. }
  f_equal. f_equal.
  destruct (Nat.eqb (lastIndex m) (index m)) eqn:He.
  - destruct (skipn (lastIndex m - i) s) as [|a after'] eqn:Ha; [reflexivity|].
    f_equal.
    assert (Hla : length (a :: after') <= length s).
    { rewrite <- Ha, length_skipn. lia. }
    simpl in Hla. apply IH; lia.
  - apply Nat.eqb_neq in He.
    assert (Hla : length (skipn (lastIndex m - i) s) < length s).
    { rewrite length_skipn. lia. }
    apply IH; lia.
Qed.

Lemma patternRegex_needs : Needs patternRegex (fun _ => False).
Proof.
  cbv [patternRegex re alt cat str lit map c1 plus].
  cbn [Needs].
  repeat split; left;
    first [tauto | repeat split; [lia | discriminate | tauto]].
Qed.

Lemma execFrom_patternRegex_moves content pos m :
  execFrom patternRegex pos content = Some m ->
  pos < lastIndex m /\ lastIndex m <= length content.
Proof.
  unfold execFrom. destruct (Nat.leb_spec pos (length content)) as [Hp|];
    [|discriminate].
  intros Hs.
  apply scan_sound in Hs as (pre & w & post & Hs & Hi & Hl & _ & Hsem).
  destruct (Sem_Needs _ _ _ _ _ _ _ Hsem patternRegex_needs) as (c & Hc & _).
  assert (Hw : 1 <= length w) by (destruct w; [contradiction|simpl; lia]).
  assert (Hlen : length (skipn pos content)
                 = length pre + length w + length post).
  { rewrite Hs, !length_app. lia. }
  rewrite length_skipn in Hlen. lia.
Qed.

Lemma inlineLoop_fuel content : forall fuel1 fuel2 pos,
  length content - pos < fuel1 -> length content - pos < fuel2 ->
  inlineLoop fuel1 content pos = inlineLoop fuel2 content pos.
Proof.
  induction fuel1 as [|fuel1 IH]; intros fuel2 pos H1 H2; [lia|].
  destruct fuel2 as [|fuel2]; [lia|]. simpl.
  destruct (execFrom patternRegex pos content) as [m|] eqn:He; [|reflexivity].
  destruct (execFrom_patternRegex_moves _ _ _ He) as [Hlo Hhi].
  f_equal. f_equal. apply IH; lia.
Qed.

(** ** Lines and texts *)

Lemma splitLines_single l : ~ In LF l -> splitLines l = [l].
Proof.
  induction l as [|c l IH]; intros Hn; [reflexivity|].
  simpl. destruct (N.eqb_spec c LF) as [->|Hc]; [exfalso; apply Hn; now left|].
  assert (Hl : ~ In LF l) by (intros H; apply Hn; now right).
  rewrite (IH Hl).
  destruct l as [|d l]; [now rewrite andb_false_r|].
  destruct (N.eqb_spec d LF) as [->|Hd]; [exfalso; apply Hl; now left|].
  now rewrite andb_false_r.
Qed.

Lemma splitLines_line l more :
  isLine l -> splitLines (l ++ LF :: more) = l :: splitLines more.
Proof.
  induction l as [|c l IH]; intros [Hn Hcr]; [reflexivity|].
  cbn [app]. cbn [splitLines].
  destruct (N.eqb_spec c LF) as [->|Hc]; [exfalso; apply Hn; now left|].
  assert (Hl : isLine l).
  { split; [intros H; apply Hn; now right|].
    intros l' ->. exact (Hcr (c :: l') eq_refl). }
  rewrite (IH Hl).
  destruct l as [|d l]; cbn [app].
  - rewrite N.eqb_refl, andb_true_r.
    destruct (N.eqb_spec c CR) as [->|_]; [|reflexivity].
    exfalso. exact (Hcr [] eq_refl).
  - destruct (N.eqb_spec d LF) as [->|Hd];
      [exfalso; apply Hn; right; now left|].
    now rewrite andb_false_r.
Qed.

(** Lines joined by line feeds are split into the same lines. *)
Lemma splitLines_textOf lines :
  lines <> [] -> Forall isLine lines -> splitLines (textOf lines) = lines.
Proof.
  unfold textOf. induction lines as [|l lines IH]; intros Hne Hall;
    [contradiction|].
  inversion Hall as [|? ? Hl Hrest]; subst.
  destruct lines as [|l2 lines].
  - simpl. apply splitLines_single. apply Hl.
  - change (join [LF] (l :: l2 :: lines))
      with (l ++ LF :: join [LF] (l2 :: lines)).
    rewrite (splitLines_line l _ Hl). f_equal.
    apply IH; [discriminate|assumption].
Qed.

(** ** Widths of texts without markers *)

Lemma scan_Needs (B : N -> Prop) r :
  Needs r B -> forall s i, (forall c, In c s -> B c) -> scan r i s = None.
Proof.
  intros HN s i HB. destruct (scan r i s) as [m|] eqn:He; [|reflexivity].
  apply scan_sound in He as (pre & w & post & Hs & _ & _ & _ & Hsem).
  destruct (Sem_Needs B _ _ _ _ _ _ Hsem HN) as (c & Hc & HnB).
  exfalso. apply HnB, HB. subst s.
  apply in_or_app; right; apply in_or_app; now left.
Qed.

Lemma replaceAll1_without_match (B : N -> Prop) r s :
  Needs r B -> (forall c, In c s -> B c) -> replaceAll1 r s = s.
Proof.
  intros HN HB. unfold replaceAll1. simpl.
  now rewrite (scan_Needs B r HN s 0 HB).
Qed.

Lemma widthOfPlain_sum s : widthOfPlain s = sumOfWidths s.
Proof.
  unfold widthOfPlain, sumOfWidths.
  assert (H : forall codes acc,
            fold_left (fun width code => (width + charWidth code)%Z) codes acc
            = (acc + fold_right Z.add 0 (map charWidth codes))%Z).
  { induction codes as [|a codes IH]; intros acc; simpl; [lia|].
    rewrite IH. lia. }
  now rewrite H.
Qed.

(** A text without marker characters is its own plain text, and its
    width is the sum of the widths of its characters: 2 for the wide
    ones and 1 for the others. *)
Lemma calculateTextWidth_without_markers s :
  (forall c, In c s -> isMarker c = false) ->
  plainTextOf s = s /\ calculateTextWidth s = sumOfWidths s.
Proof.
  intros HB.
  assert (Hplain : plainTextOf s = s).
  { unfold plainTextOf.
    rewrite (replaceAll1_without_match (fun c => isMarker c = false) reBoldG s);
      [|cbv [reBoldG re cat str lit map c1]; needs|exact HB].
    rewrite (replaceAll1_without_match (fun c => isMarker c = false) reStarG s);
      [|cbv [reStarG re cat c1]; needs|exact HB].
    rewrite (replaceAll1_without_match (fun c => isMarker c = false) reUnderscoreG s);
      [|cbv [reUnderscoreG re cat c1]; needs|exact HB].
    rewrite (replaceAll1_without_match (fun c => isMarker c = false) reStrikeG s);
      [|cbv [reStrikeG re cat str lit map c1]; needs|exact HB].
    rewrite (replaceAll1_without_match (fun c => isMarker c = false) reCodeG s);
      [|cbv [reCodeG re cat c1]; needs|exact HB].
    rewrite (replaceAll1_without_match (fun c => isMarker c = false) reUnderlineG s);
      [|cbv [reUnderlineG re cat str lit map c1]; needs|exact HB].
    rewrite (replaceAll1_without_match (fun c => isMarker c = false) reLinkG s);
      [|cbv [reLinkG re cat star c1]; needs|exact HB].
    reflexivity. }
  split; [exact Hplain|].
  unfold calculateTextWidth. rewrite Hplain. apply widthOfPlain_sum.
Qed.

(** One wide character is 2 columns wide, one ASCII character 1. *)
Lemma calculateTextWidth_examples :
  calculateTextWidth [0xAC00%N] = 2%Z /\
  calculateTextWidth (lit "a") = 1%Z /\
  calculateTextWidth ([0xAC00%N] ++ lit "ab") = 4%Z.
Proof. repeat split; vm_compute; reflexivity. Qed.

(** ** Spacers *)

Lemma spacedFrom_app prev bs b :
  spacedFrom prev (bs ++ [b]) =
  spacedFrom prev bs && negb (isSpacer b && endsOnSpacer prev bs).
Proof.
  revert prev; induction bs as [|a bs IH]; intros prev; simpl.
  - unfold endsOnSpacer. simpl.
    destruct (isSpacer b), prev; reflexivity.
  - unfold endsOnSpacer in *. simpl.
    destruct (isSpacer a); rewrite IH; simpl.
    + now rewrite andb_assoc.
    + reflexivity.
Qed.

Lemma endsOnSpacer_app prev bs b :
  endsOnSpacer prev (bs ++ [b]) = isSpacer b.
Proof. unfold endsOnSpacer. now rewrite fold_left_app. Qed.

Lemma spacedFrom_no_leading_spacer bs rest :
  spacedFrom true bs = true -> bs <> Spacer :: rest.
Proof. intros H ->. discriminate H. Qed.

Lemma spacedFrom_no_adjacent_spacers bs : forall prev pre post,
  spacedFrom prev bs = true -> bs <> pre ++ Spacer :: Spacer :: post.
Proof.
  induction bs as [|b bs IH]; intros prev pre post H E.
  - destruct pre; discriminate.
  - destruct pre as [|p pre]; simpl in E.
    + injection E as -> ->. simpl in H.
      rewrite andb_false_r in H. discriminate.
    + injection E as -> E. simpl in H.
      destruct (isSpacer p).
      * apply andb_prop in H as [_ H]. exact (IH _ _ _ H E).
      * exact (IH _ _ _ H E).
Qed.

Lemma spacedState_initial : spacedState initialState.
Proof. split; [reflexivity|discriminate]. Qed.

Lemma spacedState_appendBlock b st :
  isSpacer b = false -> spacedState st -> spacedState (appendBlock b st).
Proof.
  intros Hb [Hs Hf]. split; simpl.
  - now rewrite spacedFrom_app, Hs, Hb.
  - intros _. now rewrite endsOnSpacer_app.
Qed.

Lemma spacedState_pushSpacer st :
  previousLineWasEmpty st = false -> spacedState st -> spacedState (pushSpacer st).
Proof.
  intros Hp [Hs Hf]. split; simpl.
  - now rewrite spacedFrom_app, Hs, (Hf Hp).
  - discriminate.
Qed.

Lemma spacedState_setCodeBlock a l g f st :
  spacedState st -> spacedState (setCodeBlock a l g f st).
Proof. intros H; exact H. Qed.

Lemma spacedState_setTable a h d st :
  spacedState st -> spacedState (setTable a h d st).
Proof. intros H; exact H. Qed.

Lemma spacedState_flushTable w st :
  spacedState st -> spacedState (flushTable w st).
Proof.
  intros H. unfold flushTable.
  destruct (_ && _); [apply spacedState_appendBlock|]; auto.
Qed.

Create HintDb spaced.

#[local] Hint Resolve spacedState_appendBlock spacedState_pushSpacer
  spacedState_setCodeBlock spacedState_setTable spacedState_flushTable
  : spaced.

Lemma spacedState_processLine w st line next st' :
  processLine w st line next = Returns st' ->
  spacedState st -> spacedState st'.
Proof.
  unfold processLine, ruleOf, JsString.repeat, bind. intros H Hst.
  repeat match type of H with
  | Returns _ = Returns _ => injection H as <-
  | Throws _ = Returns _ => discriminate H
  | context [match ?e with _ => _ end] => destruct e eqn:?
  end; auto 6 with spaced.
  apply spacedState_pushSpacer; auto.
  now apply negb_true_iff.
Qed.

Lemma spacedState_processLines w lines : forall st st',
  processLines w st lines = Returns st' ->
  spacedState st -> spacedState st'.
Proof.
  induction lines as [|l lines IH]; intros st st' H Hst; simpl in H.
  - now injection H as <-.
  - destruct (processLine w st l (hd_error lines)) as [st1|] eqn:H1;
      [|discriminate].
    simpl in H. eapply IH; eauto.
    eapply spacedState_processLine; eauto.
Qed.

Lemma spaced_finish w st :
  spacedState st -> spacedFrom true (finish w st) = true.
Proof.
  intros Hst. unfold finish.
  assert (H1 : spacedState
            (if codeBlockActive st
             then appendBlock (CodeBlock (codeBlockLines st) (codeBlockLanguage st)) st
             else st)).
  { destruct (codeBlockActive st); auto with spaced. }
  destruct (tableActive _); [apply (spacedState_flushTable w) in H1|]; apply H1.
Qed.

(** ** Blocks are only ever added at the end *)

Lemma extends_refl st : extends st st.
Proof. exists []. now rewrite app_nil_r. Qed.

Lemma extends_trans st1 st2 st3 :
  extends st1 st2 -> extends st2 st3 -> extends st1 st3.
Proof.
  intros [b1 H1] [b2 H2]. exists (b1 ++ b2).
  now rewrite H2, H1, app_assoc.
Qed.

Lemma extends_appendBlock b st : extends st (appendBlock b st).
Proof. now exists [b]. Qed.

Lemma extends_pushSpacer st : extends st (pushSpacer st).
Proof. now exists [Spacer]. Qed.

Lemma extends_flushTable w st : extends st (flushTable w st).
Proof.
  unfold flushTable. destruct (_ && _);
    [apply extends_appendBlock|apply extends_refl].
Qed.

Lemma extends_setCodeBlock a l g f st st' :
  extends st st' -> extends st (setCodeBlock a l g f st').
Proof. intros H; exact H. Qed.

Lemma extends_setTable a h d st st' :
  extends st st' -> extends st (setTable a h d st').
Proof. intros H; exact H. Qed.

Create HintDb grows.

#[local] Hint Resolve extends_refl extends_appendBlock extends_pushSpacer
  extends_flushTable extends_setCodeBlock extends_setTable : grows.

Lemma extends_appendBlock_after b st st' :
  extends st st' -> extends st (appendBlock b st').
Proof. intros H. eapply extends_trans; eauto with grows. Qed.

#[local] Hint Resolve extends_appendBlock_after : grows.

Lemma extends_processLine w st line next st' :
  processLine w st line next = Returns st' -> extends st st'.
Proof.
  unfold processLine, ruleOf, JsString.repeat, bind. intros H.
  repeat match type of H with
  | Returns _ = Returns _ => injection H as <-
  | Throws _ = Returns _ => discriminate H
  | context [match ?e with _ => _ end] => destruct e eqn:?
  end; auto 6 with grows.
Qed.

Lemma extends_processLines w lines : forall st st',
  processLines w st lines = Returns st' -> extends st st'.
Proof.
  induction lines as [|l lines IH]; intros st st' H; simpl in H.
  - injection H as <-. apply extends_refl.
  - destruct (processLine w st l (hd_error lines)) as [st1|] eqn:H1;
      [|discriminate].
    simpl in H. eapply extends_trans.
    + eapply extends_processLine; eauto.
    + now apply IH.
Qed.

Lemma finish_extends w st : exists bs, finish w st = blocks st ++ bs.
Proof.
  unfold finish.
  set (st1 := if codeBlockActive st then _ else st).
  assert (H1 : extends st st1).
  { subst st1. destruct (codeBlockActive st); auto with grows. }
  assert (H2 : extends st1 (if tableActive st1 then flushTable w st1 else st1)).
  { destruct (tableActive st1); auto with grows. }
  exact (extends_trans _ _ _ H1 H2).
Qed.

(** ** The only failure is the rule drawn with a negative length *)

Lemma ruleOf_returns w : (4 <= w)%Z -> exists rule, ruleOf w = Returns rule.
Proof.
  intros Hw. unfold ruleOf, JsString.repeat.
  destruct (Z.ltb_spec (Z.min 40 (w - 4)) 0); [lia|]. eauto.
Qed.

(** With four columns or more the rule has [min(40, w - 4)] columns. *)
Lemma ruleOf_length w :
  (4 <= w)%Z ->
  exists rule, ruleOf w = Returns rule /\
               Z.of_nat (length rule) = Z.min 40 (w - 4).
Proof.
  intros Hw. unfold ruleOf, JsString.repeat.
  destruct (Z.ltb_spec (Z.min 40 (w - 4)) 0); [lia|].
  eexists. split; [reflexivity|].
  assert (Hlen : forall n, length (concat (List.repeat [boxHorizontal] n)) = n).
  { induction n; simpl; auto. }
  rewrite Hlen. lia.
Qed.

Lemma processLine_returns w st line next :
  (4 <= w)%Z -> exists st', processLine w st line next = Returns st'.
Proof.
  intros Hw. destruct (ruleOf_returns w Hw) as [rule Hr].
  unfold processLine. rewrite Hr. unfold bind.
  repeat match goal with
  | |- exists st', Returns _ = Returns st' => eexists; reflexivity
  | |- context [match ?e with _ => _ end] => destruct e eqn:?
  end.
Qed.

Lemma processLine_throws w st line next e :
  processLine w st line next = Throws e -> (w < 4)%Z.
Proof.
  intros H. destruct (Z.ltb_spec w 4) as [|Hw]; [assumption|].
  destruct (processLine_returns w st line next Hw) as [st' H']. congruence.
Qed.

Lemma processLines_returns w lines : forall st,
  (4 <= w)%Z -> exists st', processLines w st lines = Returns st'.
Proof.
  induction lines as [|l lines IH]; intros st Hw; simpl.
  - eauto.
  - destruct (processLine_returns w st l (hd_error lines) Hw) as [st1 ->].
    simpl. now apply IH.
Qed.

(** With four columns or more, [renderMarkdown] returns. *)
Lemma renderMarkdown_returns text w :
  (4 <= w)%Z -> exists r, MarkdownText text w = Returns r.
Proof.
  intros Hw. unfold MarkdownText, renderMarkdown, renderLines. simpl.
  destruct text as [|c text]; [eauto|].
  destruct (processLines_returns w (splitLines (c :: text)) initialState Hw)
    as [st ->].
  simpl. eauto.
Qed.

(** ** Leading blank lines *)

Lemma processLine_blank_start w blank next :
  isBlank blank = true ->
  processLine w initialState blank next = Returns initialState.
Proof.
  intros Hb.
  destruct (blank_matches_nothing _ Hb)
    as (Hf & Hh & Hu & Ho & Hr & Ht & Hs).
  unfold processLine. simpl.
  rewrite Hf, Hh, Hu, Ho, Hr, Ht. simpl.
  unfold isBlank in Hb. now rewrite Hb.
Qed.

Lemma processLines_blank_start w blanks rest :
  Forall (fun l => isBlank l = true) blanks ->
  processLines w initialState (blanks ++ rest) =
  processLines w initialState rest.
Proof.
  induction 1 as [|b blanks Hb _ IH]; simpl; [reflexivity|].
  now rewrite (processLine_blank_start w b _ Hb).
Qed.

(** C9.  Whatever the text and the options, the blocks [renderMarkdown]
    returns never begin with a [Spacer] and never hold two [Spacer]s in a
    row; and blank lines at the start of the text give no block at all:
    the result is that of rendering the lines after them. *)
Theorem spacers_never_lead_nor_repeat text options bs
    (Hrender : renderMarkdown text options = Returns (Some bs)) :
  (forall rest, bs <> Spacer :: rest) /\
  (forall pre post, bs <> pre ++ Spacer :: Spacer :: post) /\
  (forall blanks rest,
      splitLines text = blanks ++ rest ->
      Forall (fun l => isBlank l = true) blanks ->
      renderLines
        (match terminalWidth options with Some w => w | None => 80%Z end)
        rest = Returns bs).
Proof.
  unfold renderMarkdown in Hrender.
  destruct text as [|c text]; [discriminate|].
  set (w := match terminalWidth options with Some w => w | None => 80%Z end) in *.
  destruct (renderLines w (splitLines (c :: text))) as [bs'|] eqn:Hr;
    [|discriminate].
  simpl in Hrender. injection Hrender as ->.
  assert (Hsp : spacedFrom true bs = true).
  { unfold renderLines in Hr.
    destruct (processLines w initialState _) as [st|] eqn:Hp; [|discriminate].
    simpl in Hr. injection Hr as <-.
    apply spaced_finish.
    eapply spacedState_processLines; eauto. apply spacedState_initial. }
  repeat split.
  - intros rest. now apply spacedFrom_no_leading_spacer.
  - intros pre post. now apply spacedFrom_no_adjacent_spacers with (prev := true).
  - intros blanks rest Hs Hb. rewrite <- Hr, Hs.
    unfold renderLines. now rewrite processLines_blank_start.
Qed.

(** Two blank lines, a paragraph, two blank lines, a paragraph: one
    spacer in all. *)
Lemma spacers_never_lead_nor_repeat_witness :
  (forall rest, [Paragraph (lit "a"); Spacer; Paragraph (lit "b")] <> Spacer :: rest) /\
  (forall pre post,
      [Paragraph (lit "a"); Spacer; Paragraph (lit "b")]
      <> pre ++ Spacer :: Spacer :: post) /\
  (forall blanks rest,
      splitLines (textOf [[]; []; lit "a"; []; []; lit "b"]) = blanks ++ rest ->
      Forall (fun l => isBlank l = true) blanks ->
      renderLines 80 rest
      = Returns [Paragraph (lit "a"); Spacer; Paragraph (lit "b")]).
Proof.
  exact (spacers_never_lead_nor_repeat
           (textOf [[]; []; lit "a"; []; []; lit "b"])
           {| terminalWidth := None |}
           [Paragraph (lit "a"); Spacer; Paragraph (lit "b")]
           eq_refl).
Defined.

(** ** The worked example *)

(** C5.  The text
    "# Title\n\nSome **bold** and _em_ text.\n\n| A | B |\n| - | - |\n| 1 | 2 |\n"
    at width 80 gives, in this order, the header of level 1 "Title", a
    spacer, the paragraph, a spacer and the table with headers A, B and
    the one row 1, 2; and the text of the paragraph is tokenized into
    Plain "Some ", Bold "bold", Plain " and ", Italic "em",
    Plain " text.". *)
Theorem end_to_end_example :
  MarkdownText
    (textOf ([lit "# Title"; []; lit "Some **bold** and _em_ text."; []]
             ++ tableLines ++ [[]])) 80
  = Returns (Some [Header 1 (lit "Title"); Spacer;
                   Paragraph (lit "Some **bold** and _em_ text."); Spacer;
                   Table [lit "A"; lit "B"] [[lit "1"; lit "2"]] 80])
  /\ ProcessInlineText (lit "Some **bold** and _em_ text.")
     = [Plain (lit "Some "); Bold (lit "bold"); Plain (lit " and ");
        Italic (lit "em"); Plain (lit " text.")]
  /\ ProcessInlineText (lit "Title") = [Plain (lit "Title")].
Proof. repeat split; vm_compute; reflexivity. Qed.

(** ** Where the code leaves the stated behaviour *)

(** C2.  A table followed by a fenced code block: the fence line opens
    the code block without closing the table, so the code block is pushed
    when its closing fence comes and the table only at the end of the
    input, after it.  In general a fence line met outside a code block
    changes nothing but the variables of the code block, table open or
    not. *)
Theorem table_before_fence_is_emitted_after_the_code :
  MarkdownText (textOf (tableLines ++ [lit "```"; lit "code"; lit "```"])) 80
  = Returns (Some [CodeBlock [lit "code"] None; tableBlock 80]) /\
  (forall w st line next fm,
      codeBlockActive st = false ->
      exec patterns.codeFence line = Some fm ->
      processLine w st line next
      = Returns (setCodeBlock true (codeBlockLines st)
                   (orNull (groupStr 2 fm)) (groupStr 1 fm) st)).
Proof.
  split.
  - vm_compute. reflexivity.
  - intros w st line next fm Hc Hf. unfold processLine.
    now rewrite Hc, Hf.
Qed.

(** C4.  A rule line at a width below 4: the repeat count
    [Math.min(40, terminalWidth - 4)] is negative and [repeat] throws.
    From width 4 on [renderMarkdown] returns whatever the text, and the
    rule has [min(40, width - 4)] columns. *)
Theorem horizontal_rule_throws_below_width_4 :
  MarkdownText (lit "---") 3 = Throws RangeError /\
  MarkdownText (lit "---") 2 = Throws RangeError /\
  MarkdownText (lit "---") 1 = Throws RangeError /\
  (forall text w, (4 <= w)%Z -> exists r, MarkdownText text w = Returns r) /\
  (forall w, (4 <= w)%Z ->
     exists rule, MarkdownText (lit "---") w = Returns (Some [HorizontalRule rule])
                  /\ Z.of_nat (length rule) = Z.min 40 (w - 4)).
Proof.
  split; [|split; [|split; [|split]]].
  - vm_compute. reflexivity.
  - vm_compute. reflexivity.
  - vm_compute. reflexivity.
  - exact renderMarkdown_returns.
  - intros w Hw. destruct (ruleOf_length w Hw) as (rule & Hr & Hl).
    exists rule. split; [|exact Hl].
    unfold MarkdownText, renderMarkdown, renderLines.
    cbn [lit terminalWidth].
    replace (splitLines [ch "-"; ch "-"; ch "-"]) with [lit "---"]
      by (vm_compute; reflexivity).
    cbn [processLines hd_error]. unfold processLine.
    replace (exec patterns.codeFence (lit "---")) with (@None MatchResult)
      by (vm_compute; reflexivity).
    replace (exec patterns.tableRow (lit "---")) with (@None MatchResult)
      by (vm_compute; reflexivity).
    replace (isSome (exec patterns.horizontalRule (lit "---"))) with true
      by (vm_compute; reflexivity).
    cbn [initialState codeBlockActive tableActive guard negb andb].
    rewrite Hr. reflexivity.
Qed.

(** C6.  A cell is cut by code units, and the ellipsis is added
    whatever the room.  The table with the one header of six Hangul
    syllables and the one row "x", laid out in 12 columns: the column is
    10 wide, its inner width is 8, and the header cell is shown as five
    syllables and "...", 13 columns wide.  The table with the one header
    "abcd" laid out in 4 columns: the column is 3 wide, its inner width
    is 1, and the header cell is shown as "...", 3 columns wide. *)
Theorem truncated_cell_overflows_its_column :
  (finalWidths [hangul6] [[lit "x"]] 12 = [10%Z] /\
   (10 - 2 < calculateTextWidth hangul6)%Z /\
   displayText (buildCell hangul6 10) = List.repeat 0xAC00%N 5 ++ lit "..." /\
   calculateTextWidth (displayText (buildCell hangul6 10)) = 13%Z) /\
  (finalWidths [lit "abcd"] [[lit "x"]] 4 = [3%Z] /\
   (3 - 2 < calculateTextWidth (lit "abcd"))%Z /\
   displayText (buildCell (lit "abcd") 3) = lit "..." /\
   calculateTextWidth (displayText (buildCell (lit "abcd") 3)) = 3%Z).
Proof. repeat split; vm_compute; reflexivity. Qed.

(** C7.  A link with text before it: the last [replace] of
    [calculateTextWidth] matches from the start of the line, so the text
    before the link is removed with the markers, and the width of
    "ab [x](y)" is 1, not the 4 columns of "ab x".  The text after a link
    is kept.  In general the width is the sum of the widths of the
    characters left by the replacements, 2 for the wide ones and 1 for
    the others, and a text without marker characters is left as it
    is. *)
Theorem link_with_text_before_it_loses_the_text :
  plainTextOf (lit "ab [x](y)") = lit "x" /\
  calculateTextWidth (lit "ab [x](y)") = 1%Z /\
  sumOfWidths (lit "ab x") = 4%Z /\
  plainTextOf (lit "[x](y) ab") = lit "x ab" /\
  calculateTextWidth (lit "[x](y) ab") = 4%Z /\
  (forall s, calculateTextWidth s = sumOfWidths (plainTextOf s)) /\
  (forall s, (forall c, In c s -> isMarker c = false) -> plainTextOf s = s).
Proof.
  split; [|split; [|split; [|split; [|split; [|split]]]]].
  - vm_compute. reflexivity.
  - vm_compute. reflexivity.
  - vm_compute. reflexivity.
  - vm_compute. reflexivity.
  - vm_compute. reflexivity.
  - intros s. apply widthOfPlain_sum.
  - intros s H. apply (calculateTextWidth_without_markers s H).
Qed.

(** ** The line that ends a table *)

Lemma processLines_cons w st line more :
  processLines w st (line :: more)
  = bind (processLine w st line (hd_error more))
         (fun st' => processLines w st' more).
Proof. reflexivity. Qed.

(** C1.  The line that ends a table is not classified again.  A
    header line, a rule line and a list item right after the rows of a
    table: each closes the table and is pushed
    as a paragraph holding the raw line, not as the header, the rule or
    the list item the same line gives on its own; and the same line
    gives the header, the rule or the list item again as soon as one
    blank line stands between the rows and it, so it is the branch that
    ends the table that leaves the line unclassified. *)
Lemma line_after_table_is_not_reclassified :
  (MarkdownText (textOf (tableLines ++ [lit "# Title"])) 80
   = Returns (Some [tableBlock 80; Paragraph (lit "# Title")]) /\
   MarkdownText (textOf (tableLines ++ [lit "# Title"])) 80
   <> Returns (Some [tableBlock 80; Header 1 (lit "Title")]) /\
   MarkdownText (lit "# Title") 80 = Returns (Some [Header 1 (lit "Title")])) /\
  (MarkdownText (textOf (tableLines ++ [lit "---"])) 80
   = Returns (Some [tableBlock 80; Paragraph (lit "---")]) /\
   (forall rule,
      MarkdownText (textOf (tableLines ++ [lit "---"])) 80
      <> Returns (Some [tableBlock 80; HorizontalRule rule])) /\
   exists rule,
     MarkdownText (lit "---") 80 = Returns (Some [HorizontalRule rule])) /\
  (MarkdownText (textOf (tableLines ++ [lit "- item"])) 80
   = Returns (Some [tableBlock 80; Paragraph (lit "- item")]) /\
   MarkdownText (textOf (tableLines ++ [lit "- item"])) 80
   <> Returns (Some [tableBlock 80; ListItem ul (lit "-") [] (lit "item")]) /\
   MarkdownText (lit "- item") 80
   = Returns (Some [ListItem ul (lit "-") [] (lit "item")])) /\
  (MarkdownText (textOf (tableLines ++ [[]; lit "# Title"])) 80
   = Returns (Some [tableBlock 80; Header 1 (lit "Title")]) /\
   (exists rule,
      MarkdownText (textOf (tableLines ++ [[]; lit "---"])) 80
      = Returns (Some [tableBlock 80; HorizontalRule rule])) /\
   MarkdownText (textOf (tableLines ++ [[]; lit "- item"])) 80
   = Returns (Some [tableBlock 80; ListItem ul (lit "-") [] (lit "item")])).
Proof.
  assert (H1 : MarkdownText (textOf (tableLines ++ [lit "# Title"])) 80
               = Returns (Some [tableBlock 80; Paragraph (lit "# Title")]))
    by (vm_compute; reflexivity).
  assert (H2 : MarkdownText (textOf (tableLines ++ [lit "---"])) 80
               = Returns (Some [tableBlock 80; Paragraph (lit "---")]))
    by (vm_compute; reflexivity).
  assert (H3 : MarkdownText (textOf (tableLines ++ [lit "- item"])) 80
               = Returns (Some [tableBlock 80; Paragraph (lit "- item")]))
    by (vm_compute; reflexivity).
  split; [|split; [|split]].
  - split; [exact H1|split].
    + rewrite H1. discriminate.
    + vm_compute. reflexivity.
  - split; [exact H2|split].
    + intros rule. rewrite H2. discriminate.
    + eexists. vm_compute. reflexivity.
  - split; [exact H3|split].
    + rewrite H3. discriminate.
    + vm_compute. reflexivity.
  - split; [|split].
    + vm_compute. reflexivity.
    + eexists. vm_compute. reflexivity.
    + vm_compute. reflexivity.
Qed.

Lemma blocks_flushTable w st :
  blocks (flushTable w st) = blocks st ++ flushedTable w st.
Proof.
  unfold flushTable, flushedTable.
  destruct (tableHeaderCells st), (tableDataRows st); simpl;
    now rewrite ?app_nil_r.
Qed.

Lemma codeBlockActive_flushTable w st :
  codeBlockActive (flushTable w st) = codeBlockActive st.
Proof. unfold flushTable. now destruct (_ && _). Qed.

(** In a table, a line that is no fence, no pipe row and no separator
    closes the table and is pushed as a paragraph unless it is blank. *)
Lemma processLine_table_end w st line next
    (Hcode : codeBlockActive st = false)
    (Htable : tableActive st = true)
    (Hfence : exec patterns.codeFence line = None)
    (Hrow : exec patterns.tableRow line = None)
    (Hsep : exec patterns.tableSeparator line = None) :
  exists st',
    processLine w st line next = Returns st' /\
    tableActive st' = false /\
    codeBlockActive st' = false /\
    blocks st' =
      blocks st ++ flushedTable w st
      ++ (if isBlank line then [] else [Paragraph line]).
Proof.
  unfold processLine. rewrite Hcode, Htable, Hfence, Hrow, Hsep. simpl.
  unfold isBlank.
  destruct (length (trim line)) as [|n] eqn:Hlen; simpl;
    eexists; (split; [reflexivity|]); simpl;
    rewrite codeBlockActive_flushTable, Hcode, blocks_flushTable;
    repeat split.
  - now rewrite app_nil_r.
  - now rewrite app_assoc.
Qed.

Lemma tableOpen_reached w more :
  processLines w initialState (tableLines ++ more)
  = processLines w tableOpen more.
Proof.
  unfold tableLines. cbn [app].
  rewrite processLines_cons. cbn [hd_error].
  replace (processLine w initialState (lit "| A | B |") (Some (lit "| - | - |")))
    with (Returns (setTable true [lit "A"; lit "B"] [] initialState))
    by (vm_compute; reflexivity).
  cbn [bind]. rewrite processLines_cons. cbn [hd_error].
  replace (processLine w (setTable true [lit "A"; lit "B"] [] initialState)
             (lit "| - | - |") (Some (lit "| 1 | 2 |")))
    with (Returns (setTable true [lit "A"; lit "B"] [] initialState))
    by (vm_compute; reflexivity).
  cbn [bind]. rewrite processLines_cons.
  replace (processLine w (setTable true [lit "A"; lit "B"] [] initialState)
             (lit "| 1 | 2 |") (hd_error more))
    with (Returns tableOpen)
    by (vm_compute; reflexivity).
  reflexivity.
Qed.

(** The branch that ends a table, for every line.  In a table, a line
    that is no fence, no pipe row and no separator closes the table: the
    table block is pushed when there are data rows, and the line itself
    is pushed as a paragraph when it is not blank, whatever else it
    looks like.  After the rows of the example table such a line gives
    the table and the paragraph of the line. *)
Theorem line_closing_a_table_becomes_a_paragraph w st line next
    (Hcode : codeBlockActive st = false)
    (Htable : tableActive st = true)
    (Hfence : exec patterns.codeFence line = None)
    (Hrow : exec patterns.tableRow line = None)
    (Hsep : exec patterns.tableSeparator line = None) :
  (exists st',
     processLine w st line next = Returns st' /\
     tableActive st' = false /\
     codeBlockActive st' = false /\
     blocks st' =
       blocks st ++ flushedTable w st
       ++ (if isBlank line then [] else [Paragraph line])) /\
  renderLines w (tableLines ++ [line])
  = Returns (tableBlock w :: (if isBlank line then [] else [Paragraph line])).
Proof.
  split.
  - now apply processLine_table_end.
  - unfold renderLines. rewrite tableOpen_reached, processLines_cons.
    destruct (processLine_table_end w tableOpen line (hd_error [])
                eq_refl eq_refl Hfence Hrow Hsep)
      as (st' & -> & Ht & Hc & Hb).
    cbn [bind processLines]. unfold finish. now rewrite Hc, Ht, Hb.
Qed.

Lemma line_closing_a_table_becomes_a_paragraph_witness :
  (exists st',
     processLine 80 tableOpen (lit "# Title") None = Returns st' /\
     tableActive st' = false /\
     codeBlockActive st' = false /\
     blocks st' =
       blocks tableOpen ++ flushedTable 80 tableOpen
       ++ (if isBlank (lit "# Title") then [] else [Paragraph (lit "# Title")])) /\
  renderLines 80 (tableLines ++ [lit "# Title"])
  = Returns (tableBlock 80
             :: (if isBlank (lit "# Title") then []
                 else [Paragraph (lit "# Title")])).
Proof.
  apply (line_closing_a_table_becomes_a_paragraph
           80 tableOpen (lit "# Title") None);
    vm_compute; reflexivity.
Defined.

(** A line that is not blank, met outside tables and code blocks as
    the last line of the input, gives exactly one block at the end of the
    run, and no spacer. *)
Lemma last_line_gives_one_block w st line
    (Hcode : codeBlockActive st = false)
    (Htable : tableActive st = false)
    (Hline : isBlank line = false) :
  match bind (processLine w st line None)
             (fun st' => Returns (finish w st')) with
  | Returns bs => exists b, bs = blocks st ++ [b] /\ isSpacer b = false
  | Throws _ => (w < 4)%Z
  end.
Proof.
  unfold isBlank in Hline.
  assert (Hpush : forall b, isSpacer b = false ->
            exists b', finish w (appendBlock b st) = blocks st ++ [b']
                       /\ isSpacer b' = false).
  { intros b Hb. exists b. unfold finish. simpl.
    rewrite Hcode. simpl. now rewrite Htable. }
  unfold processLine, ruleOf, JsString.repeat.
  rewrite Hcode, Htable, Hline. simpl.
  destruct (exec patterns.codeFence line) as [fm|].
  { simpl. unfold finish. simpl. rewrite Htable. simpl.
    eexists. split; reflexivity. }
  destruct (exec patterns.tableRow line); simpl; [now apply Hpush|].
  destruct (isSome (exec patterns.horizontalRule line)).
  { destruct (Z.ltb_spec (Z.min 40 (w - 4)) 0); simpl; [lia|now apply Hpush]. }
  destruct (exec patterns.header line); simpl; [now apply Hpush|].
  destruct (exec patterns.unorderedList line); simpl; [now apply Hpush|].
  destruct (exec patterns.orderedList line); simpl; now apply Hpush.
Qed.

(** C10.  With a table open that has data rows, a blank line closes it
    and pushes the table and nothing else.  The line after that, when it
    is not blank, adds at most one block, never a spacer; a second blank
    line adds a spacer.  After the rows of the example table: a blank
    line and a last line that is not blank give the table and the block
    of that line; two blank lines and that line give the table, a
    spacer and the block of that line. *)
Theorem blank_line_closing_a_table_gives_no_spacer
    w st blank line next next'
    (Hcode : codeBlockActive st = false)
    (Htable : tableActive st = true)
    (Hheader : tableHeaderCells st <> [])
    (Hrows : tableDataRows st <> [])
    (Hblank : isBlank blank = true)
    (Hline : isBlank line = false) :
  (exists st1,
     processLine w st blank next = Returns st1 /\
     blocks st1 =
       blocks st ++ [Table (tableHeaderCells st) (tableDataRows st) w] /\
     match processLine w st1 line next' with
     | Returns st2 =>
         exists bs, blocks st2 = blocks st1 ++ bs /\
                    length bs <= 1 /\
                    Forall (fun b => isSpacer b = false) bs
     | Throws _ => (w < 4)%Z
     end /\
     (forall blank2, isBlank blank2 = true ->
        processLine w st1 blank2 next' = Returns (pushSpacer st1))) /\
  match renderLines w (tableLines ++ [blank; line]) with
  | Returns bs => exists b, bs = [tableBlock w; b] /\ isSpacer b = false
  | Throws _ => (w < 4)%Z
  end /\
  (forall blank2, isBlank blank2 = true ->
     match renderLines w (tableLines ++ [blank; blank2; line]) with
     | Returns bs =>
         exists b, bs = [tableBlock w; Spacer; b] /\ isSpacer b = false
     | Throws _ => (w < 4)%Z
     end).
Proof.
  destruct (blank_matches_nothing _ Hblank)
    as (Hf & _ & _ & _ & _ & Ht & Hs).
  assert (Hend : forall st0 nxt,
            codeBlockActive st0 = false -> tableActive st0 = true ->
            tableHeaderCells st0 <> [] -> tableDataRows st0 <> [] ->
            exists st1,
              processLine w st0 blank nxt = Returns st1 /\
              tableActive st1 = false /\ codeBlockActive st1 = false /\
              previousLineWasEmpty st1 = false /\
              blocks st1 =
                blocks st0
                ++ [Table (tableHeaderCells st0) (tableDataRows st0) w]).
  { intros st0 nxt Hc0 Ht0 Hh0 Hr0.
    destruct (processLine_table_end w st0 blank nxt Hc0 Ht0 Hf Ht Hs)
      as (st1 & H1 & Ht1 & Hc1 & Hb1).
    rewrite Hblank, app_nil_r in Hb1.
    exists st1. repeat split; auto.
    - unfold processLine in H1.
      rewrite Hc0, Ht0, Hf, Ht, Hs in H1. simpl in H1.
      unfold isBlank in Hblank. apply Nat.eqb_eq in Hblank.
      rewrite Hblank in H1. simpl in H1. injection H1 as <-.
      unfold flushTable.
      destruct (tableHeaderCells st0), (tableDataRows st0); simpl; congruence.
    - rewrite Hb1. f_equal. unfold flushedTable.
      destruct (tableHeaderCells st0), (tableDataRows st0); congruence. }
  assert (Hspacer : forall st1 blank2 nxt,
            codeBlockActive st1 = false -> tableActive st1 = false ->
            previousLineWasEmpty st1 = false ->
            isBlank blank2 = true ->
            processLine w st1 blank2 nxt = Returns (pushSpacer st1)).
  { intros st1 blank2 nxt Hc1 Ht1 Hp1 Hb2.
    destruct (blank_matches_nothing _ Hb2)
      as (Hf2 & Hh2 & Hu2 & Ho2 & Hr2 & Ht2 & Hs2).
    unfold processLine.
    rewrite Hc1, Ht1, Hf2, Hh2, Hu2, Ho2, Hr2, Ht2, Hp1. simpl.
    unfold isBlank in Hb2. now rewrite Hb2. }
  split; [|split].
  - destruct (Hend st next Hcode Htable Hheader Hrows)
      as (st1 & H1 & Ht1 & Hc1 & Hp1 & Hb1).
    exists st1. repeat split; auto.
    destruct (processLine w st1 line next') as [st2|e] eqn:H2.
    + unfold processLine, ruleOf, JsString.repeat, bind in H2.
      rewrite Hc1, Ht1 in H2. simpl in H2.
      unfold isBlank in Hline. rewrite Hline in H2. simpl in H2.
      repeat match type of H2 with
      | Returns _ = Returns _ => injection H2 as <-
      | Throws _ = Returns _ => discriminate H2
      | context [match ?e with _ => _ end] => destruct e eqn:?
      end; simpl;
      first [ solve [exists []; rewrite app_nil_r; repeat split; auto]
            | solve [eexists [_]; repeat split; auto] ].
    + eapply processLine_throws; eauto.
  - unfold renderLines. rewrite tableOpen_reached, processLines_cons.
    destruct (Hend tableOpen (hd_error [line]) eq_refl eq_refl)
      as (st1 & -> & Ht1 & Hc1 & Hp1 & Hb1); try discriminate.
    cbn [bind]. rewrite processLines_cons. cbn [hd_error].
    pose proof (last_line_gives_one_block w st1 line Hc1 Ht1 Hline) as Hlast.
    destruct (processLine w st1 line None) as [st2|e]; cbn [bind] in *;
      [|exact Hlast].
    cbn [processLines bind]. destruct Hlast as (b & -> & Hb).
    exists b. now rewrite Hb1.
  - intros blank2 Hb2.
    unfold renderLines. rewrite tableOpen_reached, processLines_cons.
    destruct (Hend tableOpen (hd_error [blank2; line]) eq_refl eq_refl)
      as (st1 & -> & Ht1 & Hc1 & Hp1 & Hb1); try discriminate.
    cbn [bind]. rewrite processLines_cons. cbn [hd_error].
    rewrite (Hspacer st1 blank2 (Some line) Hc1 Ht1 Hp1 Hb2). cbn [bind].
    rewrite processLines_cons. cbn [hd_error].
    pose proof (last_line_gives_one_block w (pushSpacer st1) line Hc1 Ht1 Hline)
      as Hlast.
    destruct (processLine w (pushSpacer st1) line None) as [st2|e];
      cbn [bind] in *; [|exact Hlast].
    cbn [processLines bind]. destruct Hlast as (b & -> & Hb).
    exists b. simpl. now rewrite Hb1.
Qed.

Lemma blank_line_closing_a_table_gives_no_spacer_witness :
  (exists st1,
     processLine 80 tableOpen [] (Some (lit "next")) = Returns st1 /\
     blocks st1 =
       blocks tableOpen
       ++ [Table (tableHeaderCells tableOpen) (tableDataRows tableOpen) 80] /\
     match processLine 80 st1 (lit "next") None with
     | Returns st2 =>
         exists bs, blocks st2 = blocks st1 ++ bs /\
                    length bs <= 1 /\
                    Forall (fun b => isSpacer b = false) bs
     | Throws _ => (80 < 4)%Z
     end /\
     (forall blank2, isBlank blank2 = true ->
        processLine 80 st1 blank2 None = Returns (pushSpacer st1))) /\
  match renderLines 80 (tableLines ++ [[]; lit "next"]) with
  | Returns bs => exists b, bs = [tableBlock 80; b] /\ isSpacer b = false
  | Throws _ => (80 < 4)%Z
  end /\
  (forall blank2, isBlank blank2 = true ->
     match renderLines 80 (tableLines ++ [[]; blank2; lit "next"]) with
     | Returns bs =>
         exists b, bs = [tableBlock 80; Spacer; b] /\ isSpacer b = false
     | Throws _ => (80 < 4)%Z
     end).
Proof.
  apply (blank_line_closing_a_table_gives_no_spacer
           80 tableOpen [] (lit "next") (Some (lit "next")) None);
    try (vm_compute; reflexivity); discriminate.
Defined.

(** ** Table recognition *)


Lemma processLine_table_header w st hdr sep m
    (Hcode : codeBlockActive st = false)
    (Htable : tableActive st = false)
    (Hhdr : exec patterns.tableRow hdr = Some m)
    (Hsep : test patterns.tableSeparator sep = true) :
  processLine w st hdr (Some sep)
  = Returns (setTable true (splitCells (groupStr 1 m)) [] st).
Proof.
  unfold processLine.
  rewrite Hcode, Htable, (tableRow_is_no_fence _ _ Hhdr), Hhdr. simpl.
  now rewrite Hsep.
Qed.

Lemma processLine_table_separator w st sep next
    (Hcode : codeBlockActive st = false)
    (Htable : tableActive st = true)
    (Hsep : test patterns.tableSeparator sep = true) :
  processLine w st sep next = Returns st.
Proof.
  unfold processLine.
  rewrite Hcode, Htable, (separator_is_no_fence _ Hsep). simpl.
  unfold test in Hsep.
  now destruct (exec patterns.tableSeparator sep).
Qed.

(** C8.  The three lines of the example table give exactly one table
    block with headers A, B and the one row 1, 2.  The header line
    followed by a line that is no separator (or by nothing) is pushed as a
    paragraph holding the line.  A header line and its separator with no
    data row after them give no block: nothing at the end of the input,
    and nothing but the paragraph of the closing line when a line closes
    the table. *)
Theorem table_recognition w rest hdr sep m
    (Hnext : nextIsSeparator (hd_error rest) = false)
    (Hhdr : exec patterns.tableRow hdr = Some m)
    (Hsep : test patterns.tableSeparator sep = true) :
  renderLines w tableLines
  = Returns [Table [lit "A"; lit "B"] [[lit "1"; lit "2"]] w] /\
  (forall bs, renderLines w (lit "| A | B |" :: rest) = Returns bs ->
              exists bs', bs = Paragraph (lit "| A | B |") :: bs') /\
  ((4 <= w)%Z ->
   exists bs', renderLines w (lit "| A | B |" :: rest)
               = Returns (Paragraph (lit "| A | B |") :: bs')) /\
  renderLines w [hdr; sep] = Returns [] /\
  (forall line,
      exec patterns.codeFence line = None ->
      exec patterns.tableRow line = None ->
      exec patterns.tableSeparator line = None ->
      renderLines w [hdr; sep; line]
      = Returns (if isBlank line then [] else [Paragraph line])).
Proof.
  assert (Hfirst : processLine w initialState (lit "| A | B |") (hd_error rest)
                   = Returns (appendBlock (Paragraph (lit "| A | B |")) initialState)).
  { unfold processLine.
    replace (exec patterns.codeFence (lit "| A | B |")) with (@None MatchResult)
      by (vm_compute; reflexivity).
    destruct (exec patterns.tableRow (lit "| A | B |")) eqn:He;
      [|vm_compute in He; discriminate].
    simpl. now rewrite Hnext. }
  assert (Hpara : forall bs,
            renderLines w (lit "| A | B |" :: rest) = Returns bs ->
            exists bs', bs = Paragraph (lit "| A | B |") :: bs').
  { intros bs H. unfold renderLines in H.
    rewrite processLines_cons, Hfirst in H. cbn [bind] in H.
    destruct (processLines w _ rest) as [st|] eqn:Hp; [|discriminate].
    cbn [bind] in H. injection H as <-.
    apply extends_processLines in Hp as [b1 H1].
    destruct (finish_extends w st) as [b2 H2].
    exists (b1 ++ b2). rewrite H2, H1. reflexivity. }
  assert (Hstart : processLines w initialState [hdr; sep]
                   = Returns (setTable true (splitCells (groupStr 1 m)) []
                                initialState)).
  { rewrite processLines_cons. cbn [hd_error].
    rewrite (processLine_table_header w initialState hdr sep m
               eq_refl eq_refl Hhdr Hsep). cbn [bind].
    rewrite processLines_cons. cbn [hd_error].
    now rewrite (processLine_table_separator w
                   (setTable true (splitCells (groupStr 1 m)) [] initialState)
                   sep None eq_refl eq_refl Hsep). }
  split; [|split; [|split; [|split]]].
  - vm_compute. reflexivity.
  - exact Hpara.
  - intros Hw.
    destruct (renderLines w (lit "| A | B |" :: rest)) as [bs|] eqn:Hr.
    + destruct (Hpara bs eq_refl) as [bs' ->]. now exists bs'.
    + exfalso. unfold renderLines in Hr.
      destruct (processLines_returns w (lit "| A | B |" :: rest) initialState Hw)
        as [st Hst].
      rewrite Hst in Hr. discriminate.
  - unfold renderLines. rewrite Hstart. cbn [bind].
    unfold finish, flushTable. simpl. now rewrite andb_false_r.
  - intros line Hf Hr Hs. unfold renderLines.
    rewrite processLines_cons. cbn [hd_error].
    rewrite (processLine_table_header w initialState hdr sep m
               eq_refl eq_refl Hhdr Hsep). cbn [bind].
    rewrite processLines_cons. cbn [hd_error].
    rewrite (processLine_table_separator w
               (setTable true (splitCells (groupStr 1 m)) [] initialState)
               sep (Some line) eq_refl eq_refl Hsep). cbn [bind].
    rewrite processLines_cons. cbn [hd_error].
    destruct (processLine_table_end w
                (setTable true (splitCells (groupStr 1 m)) [] initialState)
                line None eq_refl eq_refl Hf Hr Hs)
      as (st' & -> & Ht & Hc & Hb).
    cbn [bind processLines]. unfold finish. rewrite Hc, Ht. rewrite Hb.
    unfold flushedTable. simpl.
    now destruct (splitCells (groupStr 1 m)).
Qed.

Lemma table_recognition_witness :
  renderLines 80 tableLines
  = Returns [Table [lit "A"; lit "B"] [[lit "1"; lit "2"]] 80] /\
  (forall bs, renderLines 80 [lit "| A | B |"; lit "no separator"] = Returns bs ->
              exists bs', bs = Paragraph (lit "| A | B |") :: bs') /\
  ((4 <= 80)%Z ->
   exists bs', renderLines 80 [lit "| A | B |"; lit "no separator"]
               = Returns (Paragraph (lit "| A | B |") :: bs')) /\
  renderLines 80 [lit "| A | B |"; lit "| - | - |"] = Returns [] /\
  (forall line,
      exec patterns.codeFence line = None ->
      exec patterns.tableRow line = None ->
      exec patterns.tableSeparator line = None ->
      renderLines 80 [lit "| A | B |"; lit "| - | - |"; line]
      = Returns (if isBlank line then [] else [Paragraph line])).
Proof.
  destruct (exec patterns.tableRow (lit "| A | B |")) as [m|] eqn:He;
    [|vm_compute in He; discriminate He].
  apply (table_recognition 80 [lit "no separator"]
           (lit "| A | B |") (lit "| - | - |") m);
    [vm_compute; reflexivity | exact He | vm_compute; reflexivity].
Defined.

(** ** Code fences *)

Lemma processLine_in_code w st line next :
  codeBlockActive st = true ->
  processLine w st line next
  = Returns (if closesCodeBlock (codeBlockFence st) line
             then closeCodeBlock st else pushCodeLine line st).
Proof.
  intros Hc. unfold processLine, closesCodeBlock. rewrite Hc.
  destruct (exec patterns.codeFence line); [|reflexivity].
  now destruct (closesFence _ _).
Qed.

Lemma startsWith_repeat c' n' c :
  startsWith (List.repeat c' n') [c] = (0 <? n') && N.eqb c' c.
Proof. destruct n'; simpl; [reflexivity|]. now rewrite andb_true_r. Qed.

(** Between two runs, [closesFence] asks for the same character and a
    closing run at least as long. *)
Lemma closesFence_runs c n c' n' :
  1 <= n ->
  closesFence (List.repeat c n) (List.repeat c' n')
  = N.eqb c' c && (n <=? n').
Proof.
  intros Hn. unfold closesFence.
  rewrite !repeat_length.
  destruct n as [|n]; [lia|].
  change (List.repeat c (S n)) with (c :: List.repeat c n). cbv iota beta.
  rewrite startsWith_repeat.
  destruct n' as [|n']; simpl.
  - now rewrite andb_false_r.
  - reflexivity.
Qed.

Lemma codeFence_groupStr line m :
  exec patterns.codeFence line = Some m ->
  exists c n, groupStr 1 m = List.repeat c n /\ 3 <= n /\ isFenceChar c.
Proof.
  intros He. destruct (codeFence_run _ _ He) as (c & n & Hg & Hn & Hc).
  exists c, n. unfold groupStr. now rewrite Hg.
Qed.

(** The lines between the fences are pushed on the buffer as they
    are. *)
Lemma processLines_interior w interior : forall st more,
  codeBlockActive st = true ->
  (forall l, In l interior -> closesCodeBlock (codeBlockFence st) l = false) ->
  processLines w st (interior ++ more)
  = processLines w
      (setCodeBlock true (codeBlockLines st ++ interior)
         (codeBlockLanguage st) (codeBlockFence st) st)
      more.
Proof.
  induction interior as [|l interior IH]; intros st more Hc Hno.
  - simpl. rewrite app_nil_r.
    destruct st; simpl in *. now subst.
  - change ((l :: interior) ++ more) with (l :: (interior ++ more)).
    rewrite processLines_cons, (processLine_in_code w st l _ Hc).
    rewrite (Hno l (or_introl eq_refl)). cbn [bind].
    rewrite IH; [|reflexivity|].
    + simpl. now rewrite <- app_assoc.
    + intros l' Hl'. simpl. apply Hno. now right.
Qed.

Lemma splitLines_nonempty text first more :
  splitLines text = first :: more -> more <> [] -> text <> [].
Proof. intros H Hm ->. simpl in H. injection H as _ <-. now apply Hm. Qed.

(** C3.  An opening fence, interior lines none of which closes it, and
    a closing fence give exactly one code block, holding exactly the
    interior lines as they are; what is shown is these lines joined by
    line feeds.  The run of the opening fence is three or more backticks
    or tildes, and so is the run of any line that matches the fence
    pattern; such a line closes the code block exactly when its run has
    the same character and is at least as long. *)
Theorem fence_round_trip text w open interior close fm
    (Hsplit : splitLines text = open :: interior ++ [close])
    (Hopen : exec patterns.codeFence open = Some fm)
    (Hinterior : forall l, In l interior ->
                   closesCodeBlock (groupStr 1 fm) l = false)
    (Hclose : closesCodeBlock (groupStr 1 fm) close = true) :
  MarkdownText text w
  = Returns (Some [CodeBlock interior (orNull (groupStr 2 fm))]) /\
  snd (BuildCodeBlock interior (orNull (groupStr 2 fm))) = join [LF] interior /\
  exists c n,
    groupStr 1 fm = List.repeat c n /\ 3 <= n /\ isFenceChar c /\
    forall line m,
      exec patterns.codeFence line = Some m ->
      exists c' n',
        groupStr 1 m = List.repeat c' n' /\ 3 <= n' /\ isFenceChar c' /\
        forall st next,
          codeBlockActive st = true ->
          codeBlockFence st = groupStr 1 fm ->
          processLine w st line next
          = Returns (if N.eqb c' c && (n <=? n')
                     then closeCodeBlock st else pushCodeLine line st).
Proof.
  split; [|split].
  - assert (Hne : text <> []).
    { apply (splitLines_nonempty _ _ _ Hsplit). now destruct interior. }
    unfold MarkdownText, renderMarkdown.
    destruct text as [|a text]; [contradiction|].
    rewrite Hsplit. cbn [terminalWidth]. unfold renderLines.
    rewrite processLines_cons.
    assert (H1 : processLine w initialState open (hd_error (interior ++ [close]))
                 = Returns (setCodeBlock true [] (orNull (groupStr 2 fm))
                              (groupStr 1 fm) initialState)).
    { unfold processLine. simpl. now rewrite Hopen. }
    rewrite H1. cbn [bind].
    rewrite processLines_interior; [|reflexivity|exact Hinterior].
    rewrite processLines_cons, processLine_in_code; [|reflexivity].
    cbn [codeBlockFence setCodeBlock]. rewrite Hclose.
    reflexivity.
  - reflexivity.
  - destruct (codeFence_groupStr _ _ Hopen) as (c & n & Hg & Hn & Hc).
    exists c, n. repeat split; auto.
    intros line m Hm.
    destruct (codeFence_groupStr _ _ Hm) as (c' & n' & Hg' & Hn' & Hc').
    exists c', n'. repeat split; auto.
    intros st next Ha Hf.
    rewrite processLine_in_code by assumption.
    unfold closesCodeBlock. rewrite Hm, Hf, Hg, Hg'.
    rewrite closesFence_runs by lia. reflexivity.
Qed.

Lemma fence_round_trip_witness :
  MarkdownText (textOf ([lit "```js"] ++ fencedLines ++ [lit "````"])) 80
  = Returns (Some [CodeBlock fencedLines (orNull (groupStr 2 openFence))]) /\
  snd (BuildCodeBlock fencedLines (orNull (groupStr 2 openFence)))
  = join [LF] fencedLines /\
  exists c n,
    groupStr 1 openFence = List.repeat c n /\ 3 <= n /\ isFenceChar c /\
    forall line m,
      exec patterns.codeFence line = Some m ->
      exists c' n',
        groupStr 1 m = List.repeat c' n' /\ 3 <= n' /\ isFenceChar c' /\
        forall st next,
          codeBlockActive st = true ->
          codeBlockFence st = groupStr 1 openFence ->
          processLine 80 st line next
          = Returns (if N.eqb c' c && (n <=? n')
                     then closeCodeBlock st else pushCodeLine line st).
Proof.
  apply (fence_round_trip
           (textOf ([lit "```js"] ++ fencedLines ++ [lit "````"])) 80
           (lit "```js") fencedLines (lit "````") openFence).
  - vm_compute. reflexivity.
  - vm_compute. reflexivity.
  - intros l [<-|[<-|[<-|[]]]]; vm_compute; reflexivity.
  - vm_compute. reflexivity.
Defined.

End Properties.

(* ================================================================== *)
(** * More properties of the renderer *)
(* ================================================================== *)

Module Coverage.

Import RegExpFacts PatternFacts Properties Markdown Spec Prefix Shape Prose Runs
  Narrow.

(** ** What a match starts with *)

Lemma Sem_nullable r i w post k k' :
  Sem r i w post k k' -> w = [] -> nullable r = true.
Proof.
  induction 1; simpl; intros Hw; try discriminate; auto.
  - apply app_eq_nil in Hw as [Hw1 Hw2]. now rewrite IHSem1, IHSem2.
  - now rewrite IHSem.
  - rewrite IHSem; auto. apply orb_true_r.
  - destruct H as [->| ->]; [reflexivity|]. now rewrite !orb_true_r.
  - apply app_eq_nil in Hw as [Hw1 Hw2]. rewrite (IHSem1 Hw1).
    now rewrite orb_true_r.
Qed.

Lemma Sem_starts r i w post k k' :
  Sem r i w post k k' -> forall c t, w = c :: t -> starts r c = true.
Proof.
  induction 1; simpl; intros c t Hw; try discriminate; eauto.
  - injection Hw as -> _. apply N.eqb_refl.
  - injection Hw as -> _. assumption.
  - destruct w1 as [|a w1]; simpl in Hw.
    + rewrite (Sem_nullable _ _ _ _ _ _ H eq_refl), (IHSem2 _ _ Hw).
      apply orb_true_r.
    + injection Hw as -> _. now rewrite (IHSem1 _ _ eq_refl).
  - now rewrite (IHSem _ _ Hw).
  - rewrite (IHSem _ _ Hw). apply orb_true_r.
  - destruct w1 as [|a w1]; simpl in Hw.
    + exact (IHSem2 _ _ Hw).
    + injection Hw as -> _. exact (IHSem1 _ _ eq_refl).
Qed.

Lemma Sem_nonempty r i w post k k' :
  Sem r i w post k k' -> nullable r = false -> w <> [].
Proof.
  intros H Hn Hw. rewrite (Sem_nullable _ _ _ _ _ _ H Hw) in Hn. discriminate.
Qed.

(** A pattern anchored at the start that cannot match the empty string
    matches no line whose first unit it cannot start with. *)
Lemma exec_starts r c s :
  anchoredStart r = true -> nullable r = false -> starts r c = false ->
  exec r (c :: s) = None.
Proof.
  intros Ha Hn Hs. destruct (exec r (c :: s)) as [m|] eqn:He; [|reflexivity].
  apply exec_Sem in He as (pre & w & post & Hl & Hi & Hsem).
  pose proof (Sem_anchoredStart _ _ _ _ _ _ Hsem Ha) as H0.
  rewrite H0 in Hi. destruct pre; [|discriminate]. simpl in Hl.
  destruct w as [|a w].
  - rewrite (Sem_nullable _ _ _ _ _ _ Hsem eq_refl) in Hn. discriminate.
  - injection Hl as -> _.
    rewrite (Sem_starts _ _ _ _ _ _ Hsem _ _ eq_refl) in Hs. discriminate.
Qed.

(** ** What the line patterns capture *)

Ltac run_of a Hw Hb :=
  match goal with
  | H : Sem (Quant (c1 a) _ _ _) _ _ _ _ _ |- _ =>
      destruct (Sem_Quant_Char _ _ _ _ _ _ _ _ _ H ltac:(simpl; lia)) as [Hw Hb]
  end.

Ltac units_of r Hall :=
  match goal with
  | H : Sem r _ _ _ _ _ |- _ => pose proof (Sem_accepts _ _ _ _ _ _ H) as Hall
  end.

Ltac captures_of m :=
  repeat match goal with
  | H : Sem _ _ _ _ _ _ |- _ => apply Sem_nogroups in H; [|reflexivity]
  end;
  subst; unfold groupStr, group;
  match goal with
  | H : _ = groups m |- _ => rewrite <- H
  | H : groups m = _ |- _ => rewrite H
  end;
  cbn [getCapture Nat.eqb].

Lemma header_shape line m :
  exec patterns.header line = Some m ->
  1 <= length (groupStr 1 m) <= 4 /\
  Forall (fun c => dot c = true) (groupStr 2 m).
Proof.
  intros He.
  apply exec_Sem in He as (pre & w & post & Hl & Hi & Hsem).
  cbv [patterns.header re cat] in Hsem.
  inv_sem.
  run_of "#"%char Hrun Hbound.
  units_of (star (Class dot)) Hdot.
  captures_of m.
  split; [|exact Hdot].
  destruct Hbound as [Hlo Hhi]. split; assumption.
Qed.

Lemma unorderedList_shape line m :
  exec patterns.unorderedList line = Some m ->
  (exists c, groupStr 2 m = [c] /\ oneOf "-*+" c = true) /\
  Forall (fun c => patterns.spaceOrTab c = true) (groupStr 1 m) /\
  Forall (fun c => dot c = true) (groupStr 3 m).
Proof.
  intros He.
  apply exec_Sem in He as (pre & w & post & Hl & Hi & Hsem).
  cbv [patterns.unorderedList re cat] in Hsem.
  inv_sem.
  units_of (star (Class dot)) Hdot.
  units_of (star (Class patterns.spaceOrTab)) Hindent.
  match goal with
  | H : Sem (Class (oneOf "-*+")) _ _ _ _ _ |- _ => inv H
  end.
  captures_of m.
  split; [|split]; [eexists; split; [reflexivity|assumption]| |]; assumption.
Qed.

Lemma orderedList_shape line m :
  exec patterns.orderedList line = Some m ->
  groupStr 2 m <> [] /\
  Forall (fun c => digit c = true) (groupStr 2 m) /\
  Forall (fun c => patterns.spaceOrTab c = true) (groupStr 1 m) /\
  Forall (fun c => dot c = true) (groupStr 3 m).
Proof.
  intros He.
  apply exec_Sem in He as (pre & w & post & Hl & Hi & Hsem).
  cbv [patterns.orderedList re cat] in Hsem.
  inv_sem.
  units_of (star (Class dot)) Hdot.
  units_of (star (Class patterns.spaceOrTab)) Hindent.
  units_of (plus (Class digit)) Hdigit.
  match goal with
  | H : Sem (plus (Class digit)) _ _ _ _ _ |- _ =>
      pose proof (Sem_nonempty _ _ _ _ _ _ H eq_refl) as Hmarker
  end.
  captures_of m.
  split; [|split; [|split]]; assumption.
Qed.

Lemma codeFence_language line m :
  exec patterns.codeFence line = Some m ->
  isLanguage (orNull (groupStr 2 m)).
Proof.
  intros He.
  apply exec_Sem in He as (pre & w & post & Hl & Hi & Hsem).
  cbv [patterns.codeFence re cat] in Hsem.
  inv_sem;
    units_of (lazyStar (Class word)) Hword;
    captures_of m;
    unfold orNull;
    match goal with
    | |- isLanguage (if isNonEmpty ?l then _ else _) =>
        destruct l; simpl; [exact I|split; [discriminate|assumption]]
    end.
Qed.

(** ** Every block pushed is well formed *)

Lemma coerceCells_length n cells : length (coerceCells n cells) = n.
Proof.
  unfold coerceCells.
  rewrite length_firstn, length_app, repeat_length. lia.
Qed.

Lemma wellFormedState_initial w : wellFormedState w initialState.
Proof. repeat split; constructor. Qed.

Lemma wellFormedState_appendBlock w b st :
  wellFormed w b -> wellFormedState w st -> wellFormedState w (appendBlock b st).
Proof.
  intros Hb (Hbs & Hl & Hr). split; [|split]; simpl; auto.
  apply Forall_app. split; [assumption|]. now constructor.
Qed.

Lemma wellFormedState_pushSpacer w st :
  wellFormedState w st -> wellFormedState w (pushSpacer st).
Proof.
  intros (Hbs & Hl & Hr). split; [|split]; simpl; auto.
  apply Forall_app. split; [assumption|]. now constructor.
Qed.

Lemma wellFormedState_setCodeBlock w a l g f st :
  isLanguage g -> wellFormedState w st ->
  wellFormedState w (setCodeBlock a l g f st).
Proof. intros Hg (Hbs & Hl & Hr). split; [|split]; simpl; auto. Qed.

Lemma wellFormedState_setTable w a h d st :
  rectangular h d -> wellFormedState w st ->
  wellFormedState w (setTable a h d st).
Proof. intros Hd (Hbs & Hl & Hr). split; [|split]; simpl; auto. Qed.

Lemma wellFormed_flushed w st :
  rectangular (tableHeaderCells st) (tableDataRows st) ->
  (0 <? length (tableHeaderCells st)) && (0 <? length (tableDataRows st)) = true ->
  wellFormed w (Table (tableHeaderCells st) (tableDataRows st) w).
Proof.
  intros Hr Hg. apply andb_prop in Hg as [Hh Hd].
  apply Nat.ltb_lt in Hh, Hd. simpl.
  split; [|split; [|split]]; auto.
  - intros E. rewrite E in Hh. simpl in Hh. lia.
  - intros E. rewrite E in Hd. simpl in Hd. lia.
Qed.

Lemma wellFormedState_flushTable w st :
  wellFormedState w st -> wellFormedState w (flushTable w st).
Proof.
  intros Hst. unfold flushTable.
  destruct (_ && _) eqn:Hg; [|assumption].
  apply wellFormedState_appendBlock; [|assumption].
  apply wellFormed_flushed; [apply Hst|assumption].
Qed.

Lemma wellFormed_rule w rule :
  ruleOf w = Returns rule -> wellFormed w (HorizontalRule rule).
Proof.
  unfold ruleOf, JsString.repeat.
  destruct (Z.ltb_spec (Z.min 40 (w - 4)) 0) as [|Hw]; [discriminate|].
  intros H. injection H as <-. simpl. split; [lia|].
  generalize (Z.to_nat (Z.min 40 (w - 4))) as n.
  induction n as [|n IH]; simpl; [reflexivity|]. now rewrite IH.
Qed.

Lemma wellFormed_paragraph w line :
  isBlank line = false -> wellFormed w (Paragraph line).
Proof. intros H. exact H. Qed.

Lemma tableRow_nonblank line m :
  exec patterns.tableRow line = Some m -> isBlank line = false.
Proof.
  intros He. destruct (isBlank line) eqn:Hb; [|reflexivity].
  destruct (blank_matches_nothing _ Hb) as (_ & _ & _ & _ & _ & Ht & _).
  congruence.
Qed.

Lemma isLanguage_None : isLanguage None.
Proof. exact I. Qed.

Lemma rectangular_nil h : rectangular h [].
Proof. constructor. Qed.

Lemma rectangular_coerced h rows cells :
  rectangular h rows -> rectangular h (rows ++ [coerceCells (length h) cells]).
Proof.
  intros H. apply Forall_app. split; [assumption|].
  constructor; [apply coerceCells_length|constructor].
Qed.

Lemma wellFormed_codeBlock w lines language :
  isLanguage language -> wellFormed w (CodeBlock lines language).
Proof. intros H. exact H. Qed.

Lemma trimmed_nonblank line :
  (0 <? length (trim line)) = true -> isBlank line = false.
Proof.
  unfold isBlank. intros H. apply Nat.ltb_lt in H. apply Nat.eqb_neq. lia.
Qed.

Create HintDb shape.

#[local] Hint Resolve isLanguage_None rectangular_nil rectangular_coerced
  wellFormed_codeBlock trimmed_nonblank : shape.

#[local] Hint Resolve wellFormedState_appendBlock wellFormedState_pushSpacer
  wellFormedState_setCodeBlock wellFormedState_setTable
  wellFormedState_flushTable wellFormed_rule codeFence_language
  wellFormed_paragraph : shape.

Lemma wellFormedState_processLine w st line next st' :
  processLine w st line next = Returns st' ->
  wellFormedState w st -> wellFormedState w st'.
Proof.
  unfold processLine, bind. intros H Hst.
  pose proof Hst as (Hbs & Hlang & Hrect).
  repeat match type of H with
  | Returns _ = Returns _ => injection H as <-
  | Throws _ = Returns _ => discriminate H
  | context [match ?e with _ => _ end] => destruct e eqn:?
  end;
  repeat match goal with
  | H : guard ?c _ = Some _ |- _ =>
      unfold guard in H; destruct c; [|discriminate H]
  | H : exec patterns.header _ = Some _ |- _ => apply header_shape in H
  | H : exec patterns.unorderedList _ = Some _ |- _ =>
      apply unorderedList_shape in H
  | H : exec patterns.orderedList _ = Some _ |- _ =>
      apply orderedList_shape in H
  | H : exec patterns.tableRow _ = Some _ |- _ => apply tableRow_nonblank in H
  | H : (0 <? length (trim _)) = true |- _ => apply trimmed_nonblank in H
  | H : (length (trim _) =? 0) && negb false = false |- _ =>
      rewrite andb_true_r in H; fold (isBlank line) in H
  end;
  eauto 7 with shape.
Qed.

Lemma wellFormedState_processLines w lines : forall st st',
  processLines w st lines = Returns st' ->
  wellFormedState w st -> wellFormedState w st'.
Proof.
  induction lines as [|l lines IH]; intros st st' H Hst; simpl in H.
  - now injection H as <-.
  - destruct (processLine w st l (hd_error lines)) as [st1|] eqn:H1;
      [|discriminate].
    simpl in H. eapply IH; eauto.
    eapply wellFormedState_processLine; eauto.
Qed.

Lemma wellFormed_finish w st :
  wellFormedState w st -> Forall (wellFormed w) (finish w st).
Proof.
  intros Hst. unfold finish.
  assert (H1 : wellFormedState w
            (if codeBlockActive st
             then appendBlock (CodeBlock (codeBlockLines st) (codeBlockLanguage st)) st
             else st)).
  { destruct (codeBlockActive st); auto with shape.
    apply wellFormedState_appendBlock; [apply Hst|assumption]. }
  destruct (tableActive _); [apply (wellFormedState_flushTable w) in H1|];
    apply H1.
Qed.

(** Every block [renderMarkdown] returns is well formed at the width it
    worked with. *)
Lemma renderMarkdown_wellFormed text options bs :
  renderMarkdown text options = Returns (Some bs) ->
  Forall (wellFormed (widthOf options)) bs.
Proof.
  unfold renderMarkdown, widthOf. destruct text as [|c text]; [discriminate|].
  set (w := match terminalWidth options with Some w => w | None => 80%Z end).
  unfold renderLines.
  destruct (processLines w initialState _) as [st|] eqn:Hp; [|discriminate].
  simpl. intros H. injection H as <-.
  apply wellFormed_finish.
  eapply wellFormedState_processLines; eauto.
  apply wellFormedState_initial.
Qed.

(** ** Where the patterns read the text of a line *)

Lemma header_line line m :
  exec patterns.header line = Some m ->
  exists indent,
    cutFrom line
      (List.repeat (ch " ") indent
       ++ List.repeat (ch "#") (length (groupStr 1 m)))
      (groupStr 2 m).
Proof.
  intros He.
  apply exec_Sem in He as (pre & w & post & Hl & Hi & Hsem).
  pose proof (Sem_anchoredStart _ _ _ _ _ _ Hsem eq_refl) as H0.
  rewrite H0 in Hi. destruct pre; [|discriminate]. simpl in Hl.
  cbv [patterns.header re cat] in Hsem.
  inv_sem.
  run_of "#"%char Hrun Hbound.
  match goal with
  | H : Sem (star (c1 " ")) _ ?w _ _ _ |- _ =>
      destruct (Sem_Quant_Char _ _ _ _ _ _ _ _ _ H I) as [Hsp _];
      exists (length w)
  end.
  match goal with
  | H : Sem (plus (c1 " ")) _ ?w _ _ _ |- _ =>
      destruct (Sem_Quant_Char _ _ _ _ _ _ _ _ _ H I) as [Hgap [Hgap1 _]];
      exists (length w), post
  end.
  split; [exact Hgap1|].
  captures_of m.
  rewrite <- Hsp, <- Hrun, <- Hgap. cbn [app].
  rewrite <- !app_assoc. reflexivity.
Qed.

Lemma unorderedList_line line m :
  exec patterns.unorderedList line = Some m ->
  cutFrom line (groupStr 1 m ++ groupStr 2 m) (groupStr 3 m).
Proof.
  intros He.
  apply exec_Sem in He as (pre & w & post & Hl & Hi & Hsem).
  pose proof (Sem_anchoredStart _ _ _ _ _ _ Hsem eq_refl) as H0.
  rewrite H0 in Hi. destruct pre; [|discriminate]. simpl in Hl.
  cbv [patterns.unorderedList re cat] in Hsem.
  inv_sem.
  match goal with
  | H : Sem (plus (c1 " ")) _ ?w _ _ _ |- _ =>
      destruct (Sem_Quant_Char _ _ _ _ _ _ _ _ _ H I) as [Hgap [Hgap1 _]];
      exists (length w), post
  end.
  split; [exact Hgap1|].
  match goal with
  | H : Sem (Class (oneOf "-*+")) _ _ _ _ _ |- _ => inv H
  end.
  captures_of m.
  rewrite <- Hgap. cbn [app].
  repeat (rewrite <- app_assoc || rewrite <- app_comm_cons).
  reflexivity.
Qed.

Lemma orderedList_line line m :
  exec patterns.orderedList line = Some m ->
  cutFrom line (groupStr 1 m ++ groupStr 2 m ++ lit ".") (groupStr 3 m).
Proof.
  intros He.
  apply exec_Sem in He as (pre & w & post & Hl & Hi & Hsem).
  pose proof (Sem_anchoredStart _ _ _ _ _ _ Hsem eq_refl) as H0.
  rewrite H0 in Hi. destruct pre; [|discriminate]. simpl in Hl.
  cbv [patterns.orderedList re cat] in Hsem.
  inv_sem.
  match goal with
  | H : Sem (plus (c1 " ")) _ ?w _ _ _ |- _ =>
      destruct (Sem_Quant_Char _ _ _ _ _ _ _ _ _ H I) as [Hgap [Hgap1 _]];
      exists (length w), post
  end.
  split; [exact Hgap1|].
  match goal with
  | H : Sem (c1 ".") _ _ _ _ _ |- _ => inv H
  end.
  captures_of m.
  rewrite <- Hgap. cbn [app lit].
  repeat (rewrite <- app_assoc || rewrite <- app_comm_cons).
  reflexivity.
Qed.

(** ** Paragraphs and code lines are lines of the text *)

Lemma sourcedState_initial L : sourcedState L initialState.
Proof. split; [constructor|intros l []]. Qed.

Lemma sourcedState_appendBlock L b st :
  sourced L b -> sourcedState L st -> sourcedState L (appendBlock b st).
Proof.
  intros Hb (Hbs & Hc). split; simpl; auto.
  apply Forall_app. split; [assumption|]. now constructor.
Qed.

Lemma sourcedState_pushSpacer L st :
  sourcedState L st -> sourcedState L (pushSpacer st).
Proof.
  intros (Hbs & Hc). split; simpl; auto.
  apply Forall_app. split; [assumption|]. now constructor.
Qed.

Lemma sourcedState_setCodeBlock L a l g f st :
  incl l L -> sourcedState L st -> sourcedState L (setCodeBlock a l g f st).
Proof. intros Hl (Hbs & Hc). split; simpl; auto. Qed.

Lemma sourcedState_setTable L a h d st :
  sourcedState L st -> sourcedState L (setTable a h d st).
Proof. intros H. exact H. Qed.

Lemma sourcedState_flushTable L w st :
  sourcedState L st -> sourcedState L (flushTable w st).
Proof.
  intros Hst. unfold flushTable.
  destruct (_ && _); [|assumption].
  apply sourcedState_appendBlock; [exact I|assumption].
Qed.

Lemma incl_snoc (L lines : list jsstring) line :
  incl lines L -> In line L -> incl (lines ++ [line]) L.
Proof.
  intros Hl Hin x Hx. apply in_app_or in Hx as [Hx|[<-|[]]]; auto.
Qed.

Lemma sourced_codeBlock L st :
  sourcedState L st ->
  sourced L (CodeBlock (codeBlockLines st) (codeBlockLanguage st)).
Proof. intros H. apply H. Qed.

Lemma sourced_lines L st : sourcedState L st -> incl (codeBlockLines st) L.
Proof. intros H. apply H. Qed.

Create HintDb source.

#[local] Hint Resolve sourcedState_appendBlock sourcedState_pushSpacer
  sourcedState_setCodeBlock sourcedState_setTable sourcedState_flushTable
  incl_snoc sourced_codeBlock sourced_lines incl_nil_l : source.

Lemma sourcedState_processLine L w st line next st' :
  In line L ->
  processLine w st line next = Returns st' ->
  sourcedState L st -> sourcedState L st'.
Proof.
  unfold processLine, bind. intros Hin H Hst.
  assert (Hpara : sourced L (Paragraph line)) by exact Hin.
  repeat match type of H with
  | Returns _ = Returns _ => injection H as <-
  | Throws _ = Returns _ => discriminate H
  | context [match ?e with _ => _ end] => destruct e eqn:?
  end;
  try solve [eauto 7 with source];
  apply sourcedState_appendBlock; auto;
  match goal with
  | H : exec patterns.header _ = Some _ |- _ =>
      destruct (header_line _ _ H) as (indent & Hcut);
      exists line, indent; split; assumption
  | H : exec patterns.unorderedList _ = Some _ |- _ =>
      exists line; split; [assumption|exact (unorderedList_line _ _ H)]
  | H : exec patterns.orderedList _ = Some _ |- _ =>
      exists line; split; [assumption|exact (orderedList_line _ _ H)]
  | _ => exact I
  end.
Qed.

Lemma sourcedState_processLines L w lines : forall st st',
  incl lines L ->
  processLines w st lines = Returns st' ->
  sourcedState L st -> sourcedState L st'.
Proof.
  induction lines as [|l lines IH]; intros st st' Hl H Hst; simpl in H.
  - now injection H as <-.
  - destruct (processLine w st l (hd_error lines)) as [st1|] eqn:H1;
      [|discriminate].
    simpl in H. eapply IH; eauto.
    + intros x Hx. apply Hl. now right.
    + eapply sourcedState_processLine; eauto. apply Hl. now left.
Qed.

Lemma sourced_finish L w st :
  sourcedState L st -> Forall (sourced L) (finish w st).
Proof.
  intros Hst. unfold finish.
  assert (H1 : sourcedState L
            (if codeBlockActive st
             then appendBlock (CodeBlock (codeBlockLines st) (codeBlockLanguage st)) st
             else st)).
  { destruct (codeBlockActive st); auto with source. }
  destruct (tableActive _); [apply (sourcedState_flushTable L w) in H1|];
    apply H1.
Qed.

Lemma renderMarkdown_sourced text options bs :
  renderMarkdown text options = Returns (Some bs) ->
  Forall (sourced (splitLines text)) bs.
Proof.
  unfold renderMarkdown. destruct text as [|c text]; [discriminate|].
  set (w := match terminalWidth options with Some w => w | None => 80%Z end).
  unfold renderLines.
  destruct (processLines w initialState _) as [st|] eqn:Hp; [|discriminate].
  simpl. intros H. injection H as <-.
  apply sourced_finish.
  eapply sourcedState_processLines; eauto.
  - apply incl_refl.
  - apply sourcedState_initial.
Qed.

(** ** The layout of a table has one cell per column *)

Lemma length_mapi {A B} (f : A -> nat -> B) l : length (mapi f l) = length l.
Proof.
  unfold mapi. rewrite length_map, length_combine, length_seq. lia.
Qed.

Lemma finalWidths_length h rows mw : length (finalWidths h rows mw) = length h.
Proof.
  unfold finalWidths, widthPerColumn. now rewrite length_map, length_mapi.
Qed.

Lemma BuildTable_layout h rows mw layout :
  BuildTable h rows mw = Returns layout ->
  columnWidths layout = finalWidths h rows mw /\
  headerRow layout = buildTableRow (finalWidths h rows mw) h /\
  bodyRows layout = map (buildTableRow (finalWidths h rows mw)) rows.
Proof.
  unfold BuildTable, bind.
  destruct (buildBorderLine _ 0x250C%N _ _); [|discriminate].
  destruct (buildBorderLine _ 0x251C%N _ _); [|discriminate].
  destruct (buildBorderLine _ 0x2514%N _ _); [|discriminate].
  intros H. injection H as <-. simpl. auto.
Qed.

(** X1.  Every table block [renderMarkdown] returns has at least one
    header cell and one data row, every data row has exactly as many
    cells as there are header cells, and the width it is laid out in is
    the terminal width [renderMarkdown] worked with.  When [BuildTable]
    lays such a block out, there is one column width per header cell and
    one cell per column in the header row and in every body row. *)
Theorem tables_are_rectangular text options bs columnHeaders dataRows maxWidth
    (Hrender : renderMarkdown text options = Returns (Some bs))
    (Htable : In (Table columnHeaders dataRows maxWidth) bs) :
  columnHeaders <> [] /\ dataRows <> [] /\
  (forall row, In row dataRows -> length row = length columnHeaders) /\
  maxWidth = widthOf options /\
  (forall layout,
      BuildTable columnHeaders dataRows maxWidth = Returns layout ->
      length (columnWidths layout) = length columnHeaders /\
      length (headerRow layout) = length columnHeaders /\
      (forall cells, In cells (bodyRows layout) ->
                     length cells = length (columnWidths layout))).
Proof.
  pose proof (renderMarkdown_wellFormed _ _ _ Hrender) as Hall.
  rewrite Forall_forall in Hall.
  destruct (Hall _ Htable) as (Hh & Hd & Hrect & Hw).
  unfold rectangular in Hrect. rewrite Forall_forall in Hrect.
  split; [|split; [|split; [|split]]]; auto.
  intros layout Hl.
  apply BuildTable_layout in Hl as (-> & -> & ->).
  unfold buildTableRow. rewrite length_mapi, finalWidths_length.
  split; [|split]; auto.
  intros cells Hc. apply in_map_iff in Hc as (row & <- & Hrow).
  rewrite length_mapi. now apply Hrect.
Qed.

(** A header of two cells, then a row of one cell and a row of three:
    both rows come out with two cells. *)
Lemma tables_are_rectangular_witness :
  [lit "A"; lit "B"] <> [] /\
  [[lit "1"; []]; [lit "1"; lit "2"]] <> [] /\
  (forall row, In row [[lit "1"; []]; [lit "1"; lit "2"]] ->
               length row = length [lit "A"; lit "B"]) /\
  80%Z = widthOf {| terminalWidth := None |} /\
  (forall layout,
      BuildTable [lit "A"; lit "B"] [[lit "1"; []]; [lit "1"; lit "2"]] 80
      = Returns layout ->
      length (columnWidths layout) = length [lit "A"; lit "B"] /\
      length (headerRow layout) = length [lit "A"; lit "B"] /\
      (forall cells, In cells (bodyRows layout) ->
                     length cells = length (columnWidths layout))).
Proof.
  apply (tables_are_rectangular
           (textOf [lit "| A | B |"; lit "| - | - |"; lit "| 1 |";
                    lit "| 1 | 2 | 3 |"])
           {| terminalWidth := None |}
           [Table [lit "A"; lit "B"] [[lit "1"; []]; [lit "1"; lit "2"]] 80]).
  - vm_compute. reflexivity.
  - simpl. left. reflexivity.
Defined.

(** X2.  Every header block [renderMarkdown] returns has a level from 1
    to 4, so the [default] branch of the [switch] on the level is never
    taken; and the header text holds no line terminator. *)
Theorem headers_have_level_1_to_4 text options bs level headerText
    (Hrender : renderMarkdown text options = Returns (Some bs))
    (Hheader : In (Header level headerText) bs) :
  1 <= level <= 4 /\
  headerStyle level <> PlainPrimary /\
  (forall c, In c headerText -> lineTerminator c = false).
Proof.
  pose proof (renderMarkdown_wellFormed _ _ _ Hrender) as Hall.
  rewrite Forall_forall in Hall.
  destruct (Hall _ Hheader) as ([Hlo Hhi] & Hdot).
  split; [lia|split].
  - destruct level as [|[|[|[|[|level]]]]]; simpl; try discriminate; lia.
  - rewrite Forall_forall in Hdot. intros c Hc.
    apply Hdot in Hc. unfold dot in Hc. now apply negb_true_iff in Hc.
Qed.

Lemma headers_have_level_1_to_4_witness :
  1 <= 4 <= 4 /\
  headerStyle 4 <> PlainPrimary /\
  (forall c, In c (lit "deep") -> lineTerminator c = false).
Proof.
  apply (headers_have_level_1_to_4
           (textOf [lit "# top"; lit "#### deep"])
           {| terminalWidth := Some 40%Z |}
           [Header 1 (lit "top"); Header 4 (lit "deep")]).
  - vm_compute. reflexivity.
  - simpl. right. left. reflexivity.
Defined.

(** X3.  Every list item [renderMarkdown] returns is well formed: the
    marker of an unordered item is one of the characters [-], [*] and
    [+], and the prefix [BuildListItem] shows is that character and a
    space; the marker of an ordered item is a non-empty string of digits,
    shown with a dot and a space after it; the indentation holds spaces
    and tabs only, and the padding on the left is one more than its
    length; the text of the item holds no line terminator. *)
Theorem list_items_are_well_formed text options bs listType marker indentation
    itemText
    (Hrender : renderMarkdown text options = Returns (Some bs))
    (Hitem : In (ListItem listType marker indentation itemText) bs) :
  match listType with
  | ul => exists c, (c = ch "-" \/ c = ch "*" \/ c = ch "+") /\
                    marker = [c] /\
                    displayPrefix ul marker = [c; ch " "]
  | ol => marker <> [] /\
          (forall c, In c marker -> digit c = true) /\
          displayPrefix ol marker = marker ++ [ch "."; ch " "] /\
          length (displayPrefix ol marker) = length marker + 2
  end /\
  (forall c, In c indentation -> c = ch " " \/ c = 0x9%N) /\
  paddingLeft indentation = length indentation + 1 /\
  (forall c, In c itemText -> lineTerminator c = false).
Proof.
  pose proof (renderMarkdown_wellFormed _ _ _ Hrender) as Hall.
  rewrite Forall_forall in Hall.
  pose proof (Hall _ Hitem) as Hwf.
  assert (Hind : forall s, Forall (fun c => patterns.spaceOrTab c = true) s ->
                 forall c, In c s -> c = ch " " \/ c = 0x9%N).
  { intros s Hs c Hc. rewrite Forall_forall in Hs. apply Hs in Hc.
    unfold patterns.spaceOrTab in Hc.
    apply orb_prop in Hc as [Hc|Hc]; apply N.eqb_eq in Hc; auto. }
  assert (Htext : forall s, Forall (fun c => dot c = true) s ->
                  forall c, In c s -> lineTerminator c = false).
  { intros s Hs c Hc. rewrite Forall_forall in Hs. apply Hs in Hc.
    unfold dot in Hc. now apply negb_true_iff in Hc. }
  destruct listType; simpl in Hwf.
  - destruct Hwf as ((c & -> & Hc) & Hi & Ht).
    split; [|split; [|split]]; eauto.
    exists c. split; [|split; reflexivity].
    cbv [oneOf lit existsb ch] in Hc.
    repeat (apply orb_prop in Hc as [Hc|Hc]); try discriminate Hc;
      apply N.eqb_eq in Hc; auto.
  - destruct Hwf as (Hne & Hd & Hi & Ht).
    split; [|split; [|split]]; eauto.
    split; [assumption|split; [|split]].
    + now apply Forall_forall.
    + reflexivity.
    + unfold displayPrefix. rewrite length_app. reflexivity.
Qed.

Lemma list_items_are_well_formed_witness :
  (lit "12" <> [] /\
   (forall c, In c (lit "12") -> digit c = true) /\
   displayPrefix ol (lit "12") = lit "12" ++ [ch "."; ch " "] /\
   length (displayPrefix ol (lit "12")) = length (lit "12") + 2) /\
  (forall c, In c (lit "  ") -> c = ch " " \/ c = 0x9%N) /\
  paddingLeft (lit "  ") = length (lit "  ") + 1 /\
  (forall c, In c (lit "twelve") -> lineTerminator c = false).
Proof.
  apply (list_items_are_well_formed
           (textOf [lit "- one"; lit "  12. twelve"])
           {| terminalWidth := None |}
           [ListItem ul (lit "-") [] (lit "one");
            ListItem ol (lit "12") (lit "  ") (lit "twelve")]
           ol).
  - vm_compute. reflexivity.
  - simpl. right. left. reflexivity.
Defined.

(** X4.  The language of every code block [renderMarkdown] returns is
    either absent or a non-empty string of word characters (letters,
    digits and the underscore), and [BuildCodeBlock] shows a label
    exactly when there is one; the text shown is the lines joined by line
    feeds. *)
Theorem code_block_language_is_a_word text options bs lines language
    (Hrender : renderMarkdown text options = Returns (Some bs))
    (Hcode : In (CodeBlock lines language) bs) :
  match language with
  | None => True
  | Some l => l <> [] /\ (forall c, In c l -> word c = true)
  end /\
  BuildCodeBlock lines language = (language, join [LF] lines).
Proof.
  pose proof (renderMarkdown_wellFormed _ _ _ Hrender) as Hall.
  rewrite Forall_forall in Hall.
  pose proof (Hall _ Hcode) as Hwf. simpl in Hwf.
  destruct language as [l|]; simpl in Hwf.
  - destruct Hwf as [Hne Hw]. split; [split|].
    + assumption.
    + now apply Forall_forall.
    + unfold BuildCodeBlock. destruct l; [contradiction|reflexivity].
  - split; [exact I|reflexivity].
Qed.

Lemma code_block_language_is_a_word_witness :
  (lit "js" <> [] /\ (forall c, In c (lit "js") -> word c = true)) /\
  BuildCodeBlock [lit "let x"] (Some (lit "js"))
  = (Some (lit "js"), join [LF] [lit "let x"]).
Proof.
  apply (code_block_language_is_a_word
           (textOf [lit "~~~ js"; lit "let x"; lit "~~~"])
           {| terminalWidth := None |}
           [CodeBlock [lit "let x"] (Some (lit "js"))]
           [lit "let x"] (Some (lit "js"))).
  - vm_compute. reflexivity.
  - simpl. left. reflexivity.
Defined.

(** X5.  A rule block is only ever returned at a terminal width of 4 or
    more, and the rule is then [min(40, width - 4)] copies of the
    box-drawing character U+2500 and nothing else. *)
Theorem rules_are_drawn_at_width_4_or_more text options bs rule
    (Hrender : renderMarkdown text options = Returns (Some bs))
    (Hrule : In (HorizontalRule rule) bs) :
  (4 <= widthOf options)%Z /\
  rule = List.repeat boxHorizontal
           (Z.to_nat (Z.min 40 (widthOf options - 4))) /\
  Z.of_nat (length rule) = Z.min 40 (widthOf options - 4).
Proof.
  pose proof (renderMarkdown_wellFormed _ _ _ Hrender) as Hall.
  rewrite Forall_forall in Hall.
  destruct (Hall _ Hrule) as (Hw & ->).
  split; [|split]; auto.
  rewrite repeat_length. lia.
Qed.

Lemma rules_are_drawn_at_width_4_or_more_witness :
  (4 <= widthOf {| terminalWidth := Some 10%Z |})%Z /\
  List.repeat boxHorizontal 6
  = List.repeat boxHorizontal
      (Z.to_nat (Z.min 40 (widthOf {| terminalWidth := Some 10%Z |} - 4))) /\
  Z.of_nat (length (List.repeat boxHorizontal 6))
  = Z.min 40 (widthOf {| terminalWidth := Some 10%Z |} - 4).
Proof.
  apply (rules_are_drawn_at_width_4_or_more
           (lit "* * *")
           {| terminalWidth := Some 10%Z |}
           [HorizontalRule (List.repeat boxHorizontal 6)]).
  - vm_compute. reflexivity.
  - simpl. left. reflexivity.
Defined.

(** X6.  Paragraphs and code are taken from the text as they are: the
    content of every paragraph [renderMarkdown] returns is one of the
    lines of the text, and that line is not blank; and every line of
    every code block is one of the lines of the text. *)
Theorem paragraphs_and_code_are_lines_of_the_text text options bs
    (Hrender : renderMarkdown text options = Returns (Some bs)) :
  (forall content, In (Paragraph content) bs ->
     In content (splitLines text) /\ isBlank content = false) /\
  (forall lines language l, In (CodeBlock lines language) bs -> In l lines ->
     In l (splitLines text)).
Proof.
  pose proof (renderMarkdown_wellFormed _ _ _ Hrender) as Hwf.
  pose proof (renderMarkdown_sourced _ _ _ Hrender) as Hsrc.
  rewrite Forall_forall in Hwf, Hsrc.
  split.
  - intros content Hin. split.
    + exact (Hsrc _ Hin).
    + exact (Hwf _ Hin).
  - intros lines language l Hin Hl. exact (Hsrc _ Hin l Hl).
Qed.

Lemma paragraphs_and_code_are_lines_of_the_text_witness :
  (forall content,
     In (Paragraph content)
        [Paragraph (lit "a **b**"); CodeBlock [lit "# c"] None] ->
     In content (splitLines (textOf [lit "a **b**"; lit "```"; lit "# c"]))
     /\ isBlank content = false) /\
  (forall lines language l,
     In (CodeBlock lines language)
        [Paragraph (lit "a **b**"); CodeBlock [lit "# c"] None] ->
     In l lines ->
     In l (splitLines (textOf [lit "a **b**"; lit "```"; lit "# c"]))).
Proof.
  apply (paragraphs_and_code_are_lines_of_the_text
           (textOf [lit "a **b**"; lit "```"; lit "# c"])
           {| terminalWidth := None |}).
  vm_compute. reflexivity.
Defined.

(** ** Lines that match no pattern *)

(** Outside a code block, a line that is not blank and matches none of
    the patterns closes the table, if one is open, and is pushed as a
    paragraph. *)
Lemma processLine_paragraph w st line next :
  codeBlockActive st = false ->
  isBlank line = false ->
  exec patterns.codeFence line = None ->
  exec patterns.header line = None ->
  exec patterns.unorderedList line = None ->
  exec patterns.orderedList line = None ->
  exec patterns.horizontalRule line = None ->
  exec patterns.tableRow line = None ->
  exec patterns.tableSeparator line = None ->
  processLine w st line next
  = Returns (appendBlock (Paragraph line) (closeTable w st)).
Proof.
  intros Hc Hb Hf Hh Hu Ho Hr Ht Hs.
  unfold processLine, closeTable. rewrite Hc, Hf, Hh, Hu, Ho, Hr, Ht, Hs.
  unfold isBlank in Hb.
  destruct (tableActive st); simpl.
  - apply Nat.eqb_neq in Hb.
    destruct (Nat.ltb_spec 0 (length (trim line))); [reflexivity|lia].
  - now rewrite Hb.
Qed.

Lemma nonwhite_start_nonblank c s :
  isWhiteSpace c = false -> isBlank (c :: s) = false.
Proof.
  intros Hc. destruct (isBlank (c :: s)) eqn:Hb; [|reflexivity].
  rewrite (isBlank_spec _ Hb c (or_introl eq_refl)) in Hc. discriminate.
Qed.

(** The cases of [starts r c = true] for a line pattern [r], each
    against [plainStart c = true]. *)
Ltac start_cases H Hplain :=
  cbv [re cat star plus opt atLeast lazyStar c1] in H;
  cbn [starts] in H;
  repeat match type of H with
  | context [nullable ?r] =>
      let b := eval vm_compute in (nullable r) in
      change (nullable r) with b in H
  end;
  cbn [orb andb] in H;
  repeat match type of H with
  | (_ || _) = true => apply orb_prop in H as [H|H]
  | (_ && _) = true => apply andb_prop in H as [_ H]
  end;
  first
    [ discriminate H
    | apply N.eqb_eq in H; subst; vm_compute in Hplain; discriminate Hplain
    | unfold plainStart in Hplain; unfold space, digit in *;
      rewrite H in Hplain; simpl in Hplain;
      rewrite ?andb_false_r in Hplain; discriminate Hplain
    | cbv [patterns.spaceOrTab oneOf lit existsb ch] in H;
      repeat (apply orb_prop in H as [H|H]);
      first [ discriminate H
            | apply N.eqb_eq in H; subst; vm_compute in Hplain;
              discriminate Hplain ] ].

Lemma plainStart_matches_nothing c s :
  plainStart c = true ->
  exec patterns.codeFence (c :: s) = None /\
  exec patterns.header (c :: s) = None /\
  exec patterns.unorderedList (c :: s) = None /\
  exec patterns.orderedList (c :: s) = None /\
  exec patterns.horizontalRule (c :: s) = None /\
  exec patterns.tableRow (c :: s) = None /\
  exec patterns.tableSeparator (c :: s) = None.
Proof.
  intros Hplain.
  split; [|split; [|split; [|split; [|split; [|split]]]]];
    (apply exec_starts; [reflexivity|reflexivity|]);
    match goal with |- starts ?r c = false =>
      destruct (starts r c) eqn:H; [exfalso|reflexivity]
    end.
  - cbv [patterns.codeFence] in H. start_cases H Hplain.
  - cbv [patterns.header] in H. start_cases H Hplain.
  - cbv [patterns.unorderedList] in H. start_cases H Hplain.
  - cbv [patterns.orderedList] in H. start_cases H Hplain.
  - cbv [patterns.horizontalRule] in H. start_cases H Hplain.
  - cbv [patterns.tableRow] in H. start_cases H Hplain.
  - cbv [patterns.tableSeparator] in H. start_cases H Hplain.
Qed.

Lemma plainStart_nonblank c s : plainStart c = true -> isBlank (c :: s) = false.
Proof.
  intros H. apply nonwhite_start_nonblank.
  unfold plainStart in H. destruct (isWhiteSpace c); [discriminate|reflexivity].
Qed.

Lemma processLine_plainLine w st line next :
  codeBlockActive st = false ->
  plainLine line = true ->
  processLine w st line next
  = Returns (appendBlock (Paragraph line) (closeTable w st)).
Proof.
  intros Hc Hp. destruct line as [|c s]; [discriminate|]. simpl in Hp.
  destruct (plainStart_matches_nothing c s Hp)
    as (Hf & Hh & Hu & Ho & Hr & Ht & Hs).
  apply processLine_paragraph; auto. now apply plainStart_nonblank.
Qed.

Lemma processLines_prose w lines : forall st,
  codeBlockActive st = false -> tableActive st = false ->
  Forall (fun l => plainLine l = true) lines ->
  exists st',
    processLines w st lines = Returns st' /\
    blocks st' = blocks st ++ map Paragraph lines /\
    codeBlockActive st' = false /\ tableActive st' = false.
Proof.
  induction lines as [|l lines IH]; intros st Hc Ht Hall.
  - exists st. simpl. now rewrite app_nil_r.
  - inversion Hall as [|? ? Hl Hrest]; subst.
    rewrite processLines_cons, (processLine_plainLine w st l _ Hc Hl).
    unfold closeTable. rewrite Ht. cbn [bind].
    destruct (IH (appendBlock (Paragraph l) st) Hc Ht Hrest)
      as (st' & Hp & Hb & Hc' & Ht').
    exists st'. split; [exact Hp|]. split; [|split; assumption].
    rewrite Hb. simpl. now rewrite <- app_assoc.
Qed.

(** X7.  Prose comes out line by line: when every line starts with a
    character that is not white space, not a digit and none of
    [# ` ~ - * + _ | :], the lines are pushed as paragraphs, one per line
    and unchanged, whatever follows the first character on each line and
    whatever the terminal width.  At any point outside a code block such
    a line is pushed as a paragraph, after the table is closed if one is
    open. *)
Theorem prose_gives_one_paragraph_per_line w lines
    (Hprose : Forall (fun l => plainLine l = true) lines) :
  renderLines w lines = Returns (map Paragraph lines) /\
  (forall st line next,
      codeBlockActive st = false -> In line lines ->
      processLine w st line next
      = Returns (appendBlock (Paragraph line) (closeTable w st))).
Proof.
  split.
  - destruct (processLines_prose w lines initialState eq_refl eq_refl Hprose)
      as (st' & Hp & Hb & Hc & Ht).
    unfold renderLines. rewrite Hp. cbn [bind].
    unfold finish. rewrite Hc, Ht. now rewrite Hb.
  - intros st line next Hc Hin. rewrite Forall_forall in Hprose.
    apply processLine_plainLine; auto.
Qed.

Lemma prose_gives_one_paragraph_per_line_witness :
  renderLines 2 [lit "A line - with *marks*, 1. and | more"; lit "another # one"]
  = Returns (map Paragraph
               [lit "A line - with *marks*, 1. and | more"; lit "another # one"]) /\
  (forall st line next,
      codeBlockActive st = false ->
      In line [lit "A line - with *marks*, 1. and | more"; lit "another # one"] ->
      processLine 2 st line next
      = Returns (appendBlock (Paragraph line) (closeTable 2 st))).
Proof.
  apply (prose_gives_one_paragraph_per_line 2
           [lit "A line - with *marks*, 1. and | more"; lit "another # one"]).
  repeat constructor.
Defined.

(** ** Headers deeper than level 4 *)

Lemma skipn_repeat_app {A} (x : A) b n (t : list A) :
  b <= n -> skipn b (List.repeat x n ++ t) = List.repeat x (n - b) ++ t.
Proof.
  revert n; induction b as [|b IH]; intros n Hb; simpl.
  - now rewrite Nat.sub_0_r.
  - destruct n as [|n]; [lia|]. simpl. apply IH. lia.
Qed.

Lemma header_needs_a_space_after_4 n rest :
  5 <= n -> exec patterns.header (List.repeat (ch "#") n ++ rest) = None.
Proof.
  intros Hn.
  destruct (exec patterns.header _) as [m|] eqn:He; [|reflexivity].
  exfalso.
  apply exec_Sem in He as (pre & w & post & Hl & Hi & Hsem).
  pose proof (Sem_anchoredStart _ _ _ _ _ _ Hsem eq_refl) as H0.
  rewrite H0 in Hi. destruct pre; [|discriminate]. simpl in Hl.
  cbv [patterns.header re cat] in Hsem.
  inv_sem.
  run_of "#"%char Hrun Hbound.
  match goal with
  | H : Sem (star (c1 " ")) _ _ _ _ _ |- _ =>
      destruct (Sem_Quant_Char _ _ _ _ _ _ _ _ _ H I) as [Hsp _]
  end.
  match goal with
  | H : Sem (plus (c1 " ")) _ _ _ _ _ |- _ =>
      destruct (Sem_Quant_Char _ _ _ _ _ _ _ _ _ H I) as [Hgap [Hgap1 _]]
  end.
  destruct Hbound as [_ Hhi]. simpl in Hl.
  rewrite <- ?app_assoc in Hl.
  destruct w0 as [|a w0].
  - simpl in Hl.
    apply (f_equal (skipn (length w2))) in Hl.
    rewrite skipn_repeat_app in Hl by lia.
    rewrite skipn_app, skipn_all, Nat.sub_diag in Hl. simpl in Hl.
    destruct (n - length w2) as [|d] eqn:Hd; [lia|].
    destruct w3 as [|b w3]; [simpl in Hgap1; lia|].
    simpl in Hgap, Hl. injection Hgap as -> _. discriminate Hl.
  - simpl in Hsp. injection Hsp as -> _.
    destruct n as [|n]; [lia|]. simpl in Hl. discriminate Hl.
Qed.

(** X8.  A line that starts with five or more hash characters is no
    header, whatever follows them: the header pattern does not match it,
    and outside a code block the line is pushed as a paragraph holding
    the whole line, after the table is closed if one is open.  Alone in a
    text it gives that one paragraph. *)
Theorem header_deeper_than_4_is_a_paragraph w st n rest next
    (Hdeep : 5 <= n)
    (Hcode : codeBlockActive st = false) :
  exec patterns.header (List.repeat (ch "#") n ++ rest) = None /\
  processLine w st (List.repeat (ch "#") n ++ rest) next
  = Returns (appendBlock (Paragraph (List.repeat (ch "#") n ++ rest))
               (closeTable w st)) /\
  renderLines w [List.repeat (ch "#") n ++ rest]
  = Returns [Paragraph (List.repeat (ch "#") n ++ rest)].
Proof.
  pose proof (header_needs_a_space_after_4 n rest Hdeep) as Hh.
  assert (Hline : forall st' next',
            codeBlockActive st' = false ->
            processLine w st' (List.repeat (ch "#") n ++ rest) next'
            = Returns (appendBlock (Paragraph (List.repeat (ch "#") n ++ rest))
                         (closeTable w st'))).
  { intros st' next' Hc.
    destruct n as [|n]; [lia|].
    change (List.repeat (ch "#") (S n) ++ rest)
      with (ch "#" :: (List.repeat (ch "#") n ++ rest)) in *.
    apply processLine_paragraph; auto.
    - now apply nonwhite_start_nonblank.
    - now apply exec_starts.
    - now apply exec_starts.
    - now apply exec_starts.
    - now apply exec_starts.
    - now apply exec_starts.
    - now apply exec_starts. }
  split; [exact Hh|split; [now apply Hline|]].
  unfold renderLines. rewrite processLines_cons, Hline by reflexivity.
  reflexivity.
Qed.

Lemma header_deeper_than_4_is_a_paragraph_witness :
  exec patterns.header (List.repeat (ch "#") 5 ++ lit " Title") = None /\
  processLine 80 tableOpen (List.repeat (ch "#") 5 ++ lit " Title") None
  = Returns (appendBlock (Paragraph (List.repeat (ch "#") 5 ++ lit " Title"))
               (closeTable 80 tableOpen)) /\
  renderLines 80 [List.repeat (ch "#") 5 ++ lit " Title"]
  = Returns [Paragraph (List.repeat (ch "#") 5 ++ lit " Title")].
Proof.
  apply (header_deeper_than_4_is_a_paragraph 80 tableOpen 5 (lit " Title") None).
  - lia.
  - reflexivity.
Defined.

(** ** A code block left open *)

(** X9.  A fence that is never closed: an opening fence followed, up to
    the end of the text, by lines none of which closes it gives exactly
    one code block, pushed at the end of the input, holding these lines
    as they are and the language of the opening fence.  No width makes
    this fail. *)
Theorem unterminated_fence_is_closed_at_the_end w open interior fm
    (Hopen : exec patterns.codeFence open = Some fm)
    (Hinterior : forall l, In l interior ->
                   closesCodeBlock (groupStr 1 fm) l = false) :
  renderLines w (open :: interior)
  = Returns [CodeBlock interior (orNull (groupStr 2 fm))].
Proof.
  unfold renderLines. rewrite processLines_cons.
  assert (H1 : processLine w initialState open (hd_error interior)
               = Returns (setCodeBlock true [] (orNull (groupStr 2 fm))
                            (groupStr 1 fm) initialState)).
  { unfold processLine. simpl. now rewrite Hopen. }
  rewrite H1. cbn [bind].
  rewrite <- (app_nil_r interior) at 1.
  rewrite processLines_interior; [|reflexivity|exact Hinterior].
  reflexivity.
Qed.

Lemma unterminated_fence_is_closed_at_the_end_witness :
  renderLines 1 (lit "```js" :: fencedLines)
  = Returns [CodeBlock fencedLines (orNull (groupStr 2 openFence))].
Proof.
  apply (unterminated_fence_is_closed_at_the_end 1
           (lit "```js") fencedLines openFence).
  - vm_compute. reflexivity.
  - intros l [<-|[<-|[<-|[]]]]; vm_compute; reflexivity.
Defined.

(** ** Blank lines *)

Lemma processLine_blank w st blank next :
  codeBlockActive st = false -> tableActive st = false ->
  isBlank blank = true ->
  processLine w st blank next
  = Returns (if previousLineWasEmpty st then st else pushSpacer st).
Proof.
  intros Hc Ht Hb.
  destruct (blank_matches_nothing _ Hb)
    as (Hf & Hh & Hu & Ho & Hr & Hrow & Hs).
  unfold processLine. rewrite Hc, Ht, Hf, Hh, Hu, Ho, Hr, Hrow. simpl.
  unfold isBlank in Hb. rewrite Hb. simpl.
  now destruct (previousLineWasEmpty st).
Qed.

Lemma processLines_blanks w blanks : forall st more,
  codeBlockActive st = false -> tableActive st = false ->
  Forall (fun l => isBlank l = true) blanks -> blanks <> [] ->
  processLines w st (blanks ++ more)
  = processLines w (if previousLineWasEmpty st then st else pushSpacer st) more.
Proof.
  induction blanks as [|b blanks IH]; intros st more Hc Ht Hall Hne;
    [contradiction|].
  inversion Hall as [|? ? Hb Hrest]; subst.
  change ((b :: blanks) ++ more) with (b :: (blanks ++ more)).
  rewrite processLines_cons, (processLine_blank w st b _ Hc Ht Hb). cbn [bind].
  destruct blanks as [|b' blanks]; [reflexivity|].
  rewrite IH; auto; try discriminate;
    destruct (previousLineWasEmpty st) eqn:Hp; simpl; rewrite ?Hp; auto.
Qed.

(** X10.  Blank lines collapse: outside code blocks and tables, one or
    more blank lines in a row leave the state as it is when the line
    before them was blank too (or there was none), and push exactly one
    spacer otherwise.  So two lines of prose with any number of blank
    lines between them, one at least, give the first paragraph, one
    spacer and the second paragraph. *)
Theorem blank_lines_collapse_to_one_spacer w st blanks more
    (Hblank : Forall (fun l => isBlank l = true) blanks)
    (Hsome : blanks <> [])
    (Hcode : codeBlockActive st = false)
    (Htable : tableActive st = false) :
  processLines w st (blanks ++ more)
  = processLines w (if previousLineWasEmpty st then st else pushSpacer st) more /\
  (forall p1 p2,
      plainLine p1 = true -> plainLine p2 = true ->
      renderLines w (p1 :: blanks ++ [p2])
      = Returns [Paragraph p1; Spacer; Paragraph p2]).
Proof.
  split; [now apply processLines_blanks|].
  intros p1 p2 H1 H2. unfold renderLines.
  rewrite processLines_cons, processLine_plainLine by auto. cbn [bind].
  rewrite processLines_blanks by auto.
  cbn [appendBlock previousLineWasEmpty closeTable initialState tableActive].
  rewrite processLines_cons, processLine_plainLine by auto.
  reflexivity.
Qed.

Lemma blank_lines_collapse_to_one_spacer_witness :
  processLines 80 (appendBlock (Header 1 (lit "T")) initialState)
    ([[]; lit "   "; [0x9%N]] ++ [lit "- item"])
  = processLines 80
      (if previousLineWasEmpty (appendBlock (Header 1 (lit "T")) initialState)
       then appendBlock (Header 1 (lit "T")) initialState
       else pushSpacer (appendBlock (Header 1 (lit "T")) initialState))
      [lit "- item"] /\
  (forall p1 p2,
      plainLine p1 = true -> plainLine p2 = true ->
      renderLines 80 (p1 :: [[]; lit "   "; [0x9%N]] ++ [p2])
      = Returns [Paragraph p1; Spacer; Paragraph p2]).
Proof.
  apply (blank_lines_collapse_to_one_spacer 80
           (appendBlock (Header 1 (lit "T")) initialState)
           [[]; lit "   "; [0x9%N]] [lit "- item"]).
  - repeat constructor.
  - discriminate.
  - reflexivity.
  - reflexivity.
Defined.

(** ** Texts of white space *)

Lemma white_is_blank line :
  (forall c, In c line -> isWhiteSpace c = true) -> isBlank line = true.
Proof.
  intros Hall. unfold isBlank, trim, trimEnd.
  assert (H : trimStart line = []).
  { induction line as [|a line IH]; [reflexivity|]. simpl.
    rewrite (Hall a (or_introl eq_refl)). apply IH.
    intros c Hc. apply Hall. now right. }
  now rewrite H.
Qed.

Lemma splitLines_units s : forall l c,
  In l (splitLines s) -> In c l -> In c s.
Proof.
  induction s as [|a s IH]; intros l c Hl Hc.
  - destruct Hl as [<-|[]]. destruct Hc.
  - simpl in Hl. destruct (N.eqb a LF).
    + destruct Hl as [<-|Hl]; [destruct Hc|]. right. eapply IH; eauto.
    + destruct (N.eqb a CR && _).
      * right. eapply IH; eauto.
      * destruct (splitLines s) as [|cur more] eqn:Hs.
        -- destruct Hl as [<-|[]]. destruct Hc as [<-|[]]. now left.
        -- destruct Hl as [<-|Hl].
           ++ destruct Hc as [<-|Hc]; [now left|].
              right. apply (IH cur c); [now left|assumption].
           ++ right. apply (IH l c); [now right|assumption].
Qed.

(** X11.  A text with nothing to show: [renderMarkdown] returns [null]
    for the empty text, and for a text that is not empty and holds only
    white space (blanks, tabs, line feeds, carriage returns and the
    like) it returns the empty list of blocks, whatever the width. *)
Theorem text_of_white_space_gives_no_block text options
    (Hsome : text <> [])
    (Hwhite : forall c, In c text -> isWhiteSpace c = true) :
  renderMarkdown text options = Returns (Some []) /\
  renderMarkdown [] options = Returns None.
Proof.
  split; [|reflexivity].
  unfold renderMarkdown. destruct text as [|a text]; [contradiction|].
  unfold renderLines.
  rewrite <- (app_nil_r (splitLines (a :: text))).
  rewrite processLines_blank_start; [reflexivity|].
  apply Forall_forall. intros l Hl. apply white_is_blank.
  intros c Hc. apply Hwhite. eapply splitLines_units; eauto.
Qed.

Lemma text_of_white_space_gives_no_block_witness :
  renderMarkdown [ch " "; CR; LF; 0x9%N; LF; LF; 0x3000%N]
    {| terminalWidth := Some 0%Z |}
  = Returns (Some []) /\
  renderMarkdown [] {| terminalWidth := Some 0%Z |} = Returns None.
Proof.
  apply (text_of_white_space_gives_no_block
           [ch " "; CR; LF; 0x9%N; LF; LF; 0x3000%N]
           {| terminalWidth := Some 0%Z |}).
  - discriminate.
  - intros c [<-|[<-|[<-|[<-|[<-|[<-|[<-|[]]]]]]]]; reflexivity.
Defined.

(** ** Splitting a text into lines *)

Lemma splitLines_some s : splitLines s <> [].
Proof.
  induction s as [|a s IH]; simpl; [discriminate|].
  destruct (N.eqb a LF); [discriminate|].
  destruct (N.eqb a CR && _); [exact IH|].
  destruct (splitLines s); discriminate.
Qed.

Lemma join_cons_some sep p more :
  more <> [] -> join sep (p :: more) = p ++ sep ++ join sep more.
Proof. destruct more; [contradiction|reflexivity]. Qed.

Lemma join_cons_unit (c : N) cur more :
  join [LF] ((c :: cur) :: more) = c :: join [LF] (cur :: more).
Proof. destruct more; reflexivity. Qed.

(** X12.  [text.split(/\r?\n/)] and [join('\n')]: the lines of a text
    hold no line feed and there is one line more than there are line
    feeds in the text, whatever the text; and when no carriage return
    stands right before a line feed, joining the lines by line feeds
    gives the text back. *)
Theorem lines_joined_give_the_text_back text :
  length (splitLines text) = S (count_occ N.eq_dec text LF) /\
  (forall l, In l (splitLines text) -> ~ In LF l) /\
  ((forall pre post, text <> pre ++ CR :: LF :: post) ->
   join [LF] (splitLines text) = text).
Proof.
  split; [|split].
  - induction text as [|a text IH]; [reflexivity|].
    cbn [splitLines count_occ].
    destruct (N.eqb_spec a LF) as [->|Ha].
    + destruct (N.eq_dec LF LF) as [_|Hn]; [|contradiction].
      simpl. now rewrite IH.
    + destruct (N.eq_dec a LF) as [E|_]; [contradiction|].
      destruct (N.eqb a CR && _); [exact IH|].
      destruct (splitLines text) as [|cur more] eqn:Hs;
        [exfalso; exact (splitLines_some _ Hs)|].
      simpl in *. exact IH.
  - intros l Hl Hin. revert l Hl Hin.
    induction text as [|a text IH]; intros l Hl Hin.
    + destruct Hl as [<-|[]]. destruct Hin.
    + simpl in Hl. destruct (N.eqb_spec a LF) as [->|Ha].
      * destruct Hl as [<-|Hl]; [destruct Hin|]. eapply IH; eauto.
      * destruct (N.eqb a CR && _); [eapply IH; eauto|].
        destruct (splitLines text) as [|cur more] eqn:Hs.
        -- destruct Hl as [<-|[]]. destruct Hin as [E|[]]. now apply Ha.
        -- destruct Hl as [<-|Hl].
           ++ destruct Hin as [E|Hin]; [now apply Ha|].
              apply (IH cur); [now left|assumption].
           ++ apply (IH l); [now right|assumption].
  - induction text as [|a text IH]; intros Hcr; [reflexivity|].
    assert (Htail : forall pre post, text <> pre ++ CR :: LF :: post).
    { intros pre post E. apply (Hcr (a :: pre) post). simpl. now rewrite E. }
    specialize (IH Htail).
    assert (Hnext : N.eqb a CR
                    && match text with d :: _ => N.eqb d LF | [] => false end
                    = false).
    { destruct (N.eqb_spec a CR) as [->|Hc]; [|reflexivity].
      destruct text as [|b t]; [reflexivity|].
      destruct (N.eqb_spec b LF) as [->|Hb]; [|reflexivity].
      exfalso. exact (Hcr [] t eq_refl). }
    cbn [splitLines]. rewrite Hnext.
    destruct (N.eqb_spec a LF) as [->|Ha].
    + rewrite join_cons_some by apply splitLines_some.
      simpl. f_equal. exact IH.
    + destruct (splitLines text) as [|cur more] eqn:Hs;
        [exfalso; exact (splitLines_some _ Hs)|].
      rewrite join_cons_unit. f_equal. exact IH.
Qed.

Lemma lines_joined_give_the_text_back_witness :
  (length (splitLines (lit "a" ++ [CR; LF; LF; CR] ++ lit "b" ++ [CR; LF]))
   = S (count_occ N.eq_dec
          (lit "a" ++ [CR; LF; LF; CR] ++ lit "b" ++ [CR; LF]) LF) /\
   (forall l,
      In l (splitLines (lit "a" ++ [CR; LF; LF; CR] ++ lit "b" ++ [CR; LF])) ->
      ~ In LF l) /\
   splitLines (lit "a" ++ [CR; LF; LF; CR] ++ lit "b" ++ [CR; LF])
   = [lit "a"; []; CR :: lit "b"; []]) /\
  join [LF] (splitLines (lit "a" ++ [LF; LF; CR] ++ lit "b" ++ [CR]))
  = lit "a" ++ [LF; LF; CR] ++ lit "b" ++ [CR].
Proof.
  split; [split; [|split]|].
  - apply (lines_joined_give_the_text_back
             (lit "a" ++ [CR; LF; LF; CR] ++ lit "b" ++ [CR; LF])).
  - apply (lines_joined_give_the_text_back
             (lit "a" ++ [CR; LF; LF; CR] ++ lit "b" ++ [CR; LF])).
  - vm_compute. reflexivity.
  - apply (lines_joined_give_the_text_back
             (lit "a" ++ [LF; LF; CR] ++ lit "b" ++ [CR])).
    intros pre post E.
    destruct pre as [|p1 [|p2 [|p3 [|p4 [|p5 [|p6 pre]]]]]]; simpl in E;
      try discriminate E.
    do 6 (destruct pre; simpl in E; try discriminate E).
Defined.

(** ** Texts without markers *)

Lemma startsWith_prefix (p t : jsstring) : startsWith (p ++ t) p = true.
Proof.
  induction p as [|a p IH]; simpl; [reflexivity|].
  now rewrite N.eqb_refl, IH.
Qed.

Lemma includes_infix (pre p post : jsstring) :
  includes (pre ++ p ++ post) p = true.
Proof.
  induction pre as [|a pre IH].
  - simpl. destruct (p ++ post) eqn:E; simpl.
    + now rewrite <- E, startsWith_prefix.
    + now rewrite <- E, startsWith_prefix.
  - simpl. rewrite IH. apply orb_true_r.
Qed.

Ltac inv_alts :=
  repeat match goal with
  | H : Sem (Group _ _) _ _ _ _ _ |- _ => inv H
  | H : Sem (Alt _ _) _ _ _ _ _ |- _ => inv H
  end.

Ltac inv_chars :=
  repeat match goal with
  | H : Sem (Seq _ _) _ _ _ _ _ |- _ => inv H
  | H : Sem (Char _) _ _ _ _ _ |- _ => inv H
  end.

(** A match of the inline pattern holds a marker character or starts
    with "http". *)
Lemma patternRegex_trigger i w post k k' :
  Sem patternRegex i w post k k' ->
  (exists c, In c w /\ isMarker c = true) \/
  (exists t, w = lit "http" ++ t).
Proof.
  intros H. cbv [patternRegex re alt] in H. inv_alts;
    try (left;
         match goal with
         | H : Sem ?r _ _ _ _ _ |- _ =>
             destruct (Sem_Needs (fun c => isMarker c = false) _ _ _ _ _ _ H)
               as (c & Hc & Hm);
             [cbv [re cat str lit map c1 plus]; needs|];
             exists c; split; [exact Hc|];
             destruct (isMarker c); [reflexivity|now elim Hm]
         end).
  right.
  match goal with
  | H : Sem _ _ _ _ _ _ |- _ => cbv [cat str lit map] in H
  end.
  inv_chars.
  eexists. cbn [lit app]. reflexivity.
Qed.

Lemma scan_patternRegex_none content :
  (forall c, In c content -> isMarker c = false) ->
  includes content (lit "http") = false ->
  scan patternRegex 0 content = None.
Proof.
  intros Hmark Hhttp.
  destruct (scan patternRegex 0 content) as [m|] eqn:Hs; [|reflexivity].
  exfalso.
  apply scan_sound in Hs as (pre & w & post & Hc & _ & _ & _ & Hsem).
  destruct (patternRegex_trigger _ _ _ _ _ Hsem) as [(c & Hin & Hm)|(t & ->)].
  - rewrite Hmark in Hm; [discriminate|].
    subst content. apply in_or_app. right. apply in_or_app. now left.
  - subst content. rewrite <- app_assoc in Hhttp.
    rewrite includes_infix in Hhttp. discriminate.
Qed.

(** X13.  A text that holds none of the characters [* _ ~ ` < \[] and
    nowhere the letters "http" is one plain run holding the whole text,
    on the fast path and on the general one: the inline pattern matches
    nowhere in it. *)
Theorem text_without_markers_is_one_plain_run content
    (Hmark : forall c, In c content -> isMarker c = false)
    (Hhttp : includes content (lit "http") = false) :
  ProcessInlineText content = [Plain content] /\
  execFrom patternRegex 0 content = None.
Proof.
  assert (Hnone : execFrom patternRegex 0 content = None).
  { unfold execFrom. simpl. now apply scan_patternRegex_none. }
  split; [|exact Hnone].
  unfold ProcessInlineText.
  destruct (test quickCheck content) eqn:Hq; [|reflexivity].
  cbn [negb inlineLoop]. rewrite Hnone.
  destruct content as [|a content]; [discriminate Hq|reflexivity].
Qed.

Lemma text_without_markers_is_one_plain_run_witness :
  ProcessInlineText (lit "what path: src/tips.ts?")
  = [Plain (lit "what path: src/tips.ts?")] /\
  execFrom patternRegex 0 (lit "what path: src/tips.ts?") = None.
Proof.
  apply (text_without_markers_is_one_plain_run
           (lit "what path: src/tips.ts?")).
  - intros c Hc.
    repeat (destruct Hc as [<-|Hc]; [reflexivity|]). destruct Hc.
  - vm_compute. reflexivity.
Defined.

(** ** No run is empty *)

Lemma length_sliceBoth (s : jsstring) a b :
  length (sliceBoth s a b) = length s - b - a.
Proof. unfold sliceBoth. rewrite length_firstn, length_skipn. lia. Qed.

Lemma sliceBoth_some (s : jsstring) a b :
  (a + b <? length s) = true -> sliceBoth s a b <> [].
Proof.
  intros H E. apply Nat.ltb_lt in H.
  apply (f_equal (@length N)) in E. rewrite length_sliceBoth in E.
  simpl in E. lia.
Qed.

Lemma urlPattern_http s :
  test urlPattern s = true -> startsWith s (lit "http") = true.
Proof.
  unfold test. destruct (exec urlPattern s) as [m|] eqn:He; [|discriminate].
  intros _.
  apply exec_Sem in He as (pre & w & post & Hl & Hi & Hsem).
  pose proof (Sem_anchoredStart _ _ _ _ _ _ Hsem eq_refl) as H0.
  rewrite H0 in Hi. destruct pre; [|discriminate].
  cbv [urlPattern re cat str lit map] in Hsem.
  inv_sem. inv_chars.
  reflexivity.
Qed.

Lemma formatMatch_shown content m sp :
  formatMatch content m = Some sp -> shown sp.
Proof.
  unfold formatMatch.
  destruct (startsWith _ (lit "**") && _ && _) eqn:Hbold.
  { intros H. injection H as <-. simpl.
    apply andb_prop in Hbold as [_ Hlen]. now apply sliceBoth_some. }
  destruct ((MARKER_ITALIC * 2 <? _) && _) eqn:Hitalic.
  { destruct (negb _ && negb _); [|discriminate].
    intros H. injection H as <-. simpl.
    apply andb_prop in Hitalic as [Hlen _]. now apply sliceBoth_some. }
  destruct (startsWith _ (lit "~~") && _ && _) eqn:Hstrike.
  { intros H. injection H as <-. simpl.
    apply andb_prop in Hstrike as [_ Hlen]. now apply sliceBoth_some. }
  destruct (startsWith _ (lit "`") && _ && _) eqn:Hcode.
  { destruct (exec codePattern _) as [cp|]; [|discriminate].
    destruct (isNonEmpty (groupStr 2 cp)) eqn:Hne; [|discriminate].
    intros H. injection H as <-. simpl.
    destruct (groupStr 2 cp); [discriminate Hne|discriminate]. }
  destruct (startsWith _ (lit "[") && _ && _) eqn:Hlink.
  { destruct (exec linkPattern _) as [lp|]; [|discriminate].
    intros H. injection H as <-. exact I. }
  destruct (startsWith _ (lit "<u>") && _) eqn:Hunder.
  { intros H. injection H as <-. exact I. }
  destruct (test urlPattern _) eqn:Hurl; [|discriminate].
  intros H. injection H as <-. simpl. now apply urlPattern_http.
Qed.

Lemma inlineLoop_shown content : forall fuel pos sp,
  In sp (inlineLoop fuel content pos) -> shown sp.
Proof.
  assert (Hrem : forall pos sp,
            In sp (if pos <? length content
                   then [Plain (skipn pos content)] else []) -> shown sp).
  { intros pos sp. destruct (Nat.ltb_spec pos (length content)) as [Hp|];
      [|intros []].
    intros [<-|[]]. simpl. intros E.
    apply (f_equal (@length N)) in E. rewrite length_skipn in E.
    simpl in E. lia. }
  induction fuel as [|fuel IH]; intros pos sp; simpl; [apply Hrem|].
  destruct (execFrom patternRegex pos content) as [m|] eqn:He; [|apply Hrem].
  intros Hin.
  unfold execFrom in He.
  destruct (pos <=? length content); [|discriminate].
  apply scan_sound in He as (pre & w & post & Hs & Hi & Hl & Hm & Hsem).
  apply in_app_or in Hin as [Hin|Hin].
  - destruct (Nat.ltb_spec pos (index m)) as [Hp|]; [|destruct Hin].
    destruct Hin as [<-|[]]. simpl.
    replace (index m - pos) with (length pre) by lia.
    rewrite Hs, firstn_app, Nat.sub_diag, firstn_all. simpl.
    rewrite app_nil_r. intros ->. simpl in Hi. lia.
  - destruct Hin as [<-|Hin]; [|eapply IH; eauto].
    destruct (formatMatch content m) as [el|] eqn:Hf.
    + eapply formatMatch_shown; eauto.
    + simpl. rewrite Hm.
      destruct (Sem_Needs _ _ _ _ _ _ _ Hsem patternRegex_needs) as (c & Hc & _).
      intros ->. destruct Hc.
Qed.

(** X14.  No run of a text that is not empty is empty, but for one
    kind: every plain, bold, italic, struck and code run
    [ProcessInlineText] returns holds at least one unit, and every bare
    link starts with "http".  An underlined run can be empty: the text
    "<u></u>" gives one. *)
Theorem runs_are_never_empty content sp
    (Hsome : content <> [])
    (Hrun : In sp (ProcessInlineText content)) :
  shown sp /\
  ProcessInlineText (lit "<u></u>") = [Underline []].
Proof.
  split; [|vm_compute; reflexivity].
  unfold ProcessInlineText in Hrun.
  destruct (negb (test quickCheck content)).
  - destruct Hrun as [<-|[]]. exact Hsome.
  - eapply inlineLoop_shown; eauto.
Qed.

Lemma runs_are_never_empty_witness :
  shown (Bold (lit "b")) /\
  ProcessInlineText (lit "<u></u>") = [Underline []].
Proof.
  apply (runs_are_never_empty (lit "a **b** ****")).
  - discriminate.
  - vm_compute. right. left. reflexivity.
Defined.

(** ** The width of a text against its length *)

Lemma getCapture_cleared parens n k g :
  getCapture n (cleared parens k) = Some g -> getCapture n k = Some g.
Proof.
  unfold cleared. induction parens as [|p parens IH]; simpl; [auto|].
  destruct (Nat.eqb p n); [discriminate|exact IH].
Qed.

(** What a group captured is part of what was matched. *)
Lemma Sem_capture_length r i w post k k' :
  Sem r i w post k k' ->
  forall n g, getCapture n k' = Some g ->
              getCapture n k = Some g \/ length g <= length w.
Proof.
  induction 1; intros n' cap Hg; auto.
  - destruct (IHSem2 _ _ Hg) as [Hk|Hk].
    + destruct (IHSem1 _ _ Hk) as [Hc|Hc]; auto.
      right. rewrite length_app. lia.
    + right. rewrite length_app. lia.
  - destruct (IHSem2 _ _ Hg) as [Hk|Hk].
    + destruct (IHSem1 _ _ Hk) as [Hc|Hc].
      * left. eapply getCapture_cleared; eauto.
      * right. rewrite length_app. lia.
    + right. rewrite length_app. lia.
  - simpl in Hg. destruct (Nat.eqb n n').
    + injection Hg as <-. right. lia.
    + auto.
Qed.

Lemma replaceG1_length r : forall fuel i s,
  length (replaceG1 fuel r i s) <= length s.
Proof.
  induction fuel as [|fuel IH]; intros i s; simpl; [lia|].
  destruct (scan r i s) as [m|] eqn:Hs; [|lia].
  apply scan_sound in Hs as (pre & w & post & Hc & Hi & Hl & _ & Hsem).
  assert (Hlen : length s = length pre + length w + length post).
  { rewrite Hc, !length_app. lia. }
  assert (Hg : length (groupStr 1 m) <= length w).
  { unfold groupStr, group.
    destruct (getCapture 1 (groups m)) as [g|] eqn:Hg; [|simpl; lia].
    destruct (Sem_capture_length _ _ _ _ _ _ Hsem _ _ Hg) as [H0|H0];
      [discriminate|exact H0]. }
  rewrite !length_app.
  assert (Hbefore : length (firstn (index m - i) s) <= length pre).
  { rewrite length_firstn. lia. }
  assert (Hafter : length (skipn (lastIndex m - i) s) = length post).
  { rewrite length_skipn. lia. }
  destruct (Nat.eqb (lastIndex m) (index m)).
  - destruct (skipn (lastIndex m - i) s) as [|a after'] eqn:Ha.
    + simpl. lia.
    + simpl in *. pose proof (IH (S (lastIndex m)) after'). lia.
  - pose proof (IH (lastIndex m) (skipn (lastIndex m - i) s)). lia.
Qed.

Lemma replaceAll1_length r s : length (replaceAll1 r s) <= length s.
Proof. apply replaceG1_length. Qed.

Lemma plainTextOf_length s : length (plainTextOf s) <= length s.
Proof.
  unfold plainTextOf.
  repeat (eapply Nat.le_trans; [apply replaceAll1_length|]). lia.
Qed.

Lemma charCodes_length : forall n s,
  length s <= n ->
  length (charCodes s) <= length s /\ (s <> [] -> charCodes s <> []).
Proof.
  induction n as [|n IH]; intros s Hn.
  - destruct s; [|simpl in Hn; lia]. split; [simpl; lia|congruence].
  - destruct s as [|a [|b t]].
    + split; [simpl; lia|congruence].
    + split; [simpl; lia|discriminate].
    + cbn [charCodes]. simpl in Hn.
      destruct (isHighSurrogate a && isLowSurrogate b).
      * destruct (IH t ltac:(lia)) as [H1 _].
        split; [simpl; lia|discriminate].
      * destruct (IH (b :: t) ltac:(simpl; lia)) as [H1 _].
        split; [simpl in *; lia|discriminate].
Qed.

Lemma sumOfWidths_bounds s :
  (Z.of_nat (length (charCodes s)) <= sumOfWidths s
   <= 2 * Z.of_nat (length (charCodes s)))%Z.
Proof.
  unfold sumOfWidths. induction (charCodes s) as [|c codes IH].
  - simpl. lia.
  - cbn [map fold_right length]. unfold charWidth at 1 3.
    destruct (isWide c); lia.
Qed.

(** X15.  The width of a text against its length: removing the markers
    never makes the text longer, the display width is at least 0 and at
    most twice the number of units of the text, and it is 0 exactly when
    nothing is left once the markers are removed. *)
Theorem width_is_at_most_twice_the_length content :
  length (plainTextOf content) <= length content /\
  (0 <= calculateTextWidth content <= 2 * Z.of_nat (length content))%Z /\
  (calculateTextWidth content = 0%Z <-> plainTextOf content = []).
Proof.
  pose proof (plainTextOf_length content) as Hlen.
  pose proof (sumOfWidths_bounds (plainTextOf content)) as Hsum.
  destruct (charCodes_length _ (plainTextOf content) (le_n _)) as [Hcodes Hsome].
  unfold calculateTextWidth. rewrite widthOfPlain_sum.
  split; [exact Hlen|split; [lia|split]].
  - intros H0. destruct (plainTextOf content) as [|a p] eqn:Hp; [reflexivity|].
    exfalso. assert (Hc : charCodes (a :: p) <> []) by (apply Hsome; discriminate).
    destruct (charCodes (a :: p)); [contradiction|]. simpl in Hsum. lia.
  - intros ->. reflexivity.
Qed.

(** ** Cells of narrow characters *)

Lemma narrow_spec c :
  narrow c = true ->
  isMarker c = false /\ isHighSurrogate c = false /\ isWide c = false.
Proof.
  unfold narrow. intros H. apply andb_prop in H as [H Hw].
  apply andb_prop in H as [Hm Hs].
  now rewrite !negb_true_iff in *.
Qed.

Lemma charCodes_narrow s :
  (forall c, In c s -> narrow c = true) -> charCodes s = s.
Proof.
  induction s as [|a s IH]; intros Hall; [reflexivity|].
  destruct (narrow_spec a (Hall a (or_introl eq_refl))) as (_ & Hs & _).
  cbn [charCodes]. rewrite Hs. cbn [andb].
  rewrite IH by (intros c Hc; apply Hall; now right).
  now destruct s.
Qed.

(** The width of a text of narrow units is its length. *)
Lemma calculateTextWidth_narrow s :
  (forall c, In c s -> narrow c = true) ->
  calculateTextWidth s = Z.of_nat (length s).
Proof.
  intros Hall.
  destruct (calculateTextWidth_without_markers s) as [_ ->].
  { intros c Hc. apply (narrow_spec c (Hall c Hc)). }
  unfold sumOfWidths. rewrite (charCodes_narrow s Hall).
  induction s as [|a s IH]; [reflexivity|].
  cbn [map fold_right length]. rewrite IH by (intros c Hc; apply Hall; now right).
  unfold charWidth.
  destruct (narrow_spec a (Hall a (or_introl eq_refl))) as (_ & _ & ->). lia.
Qed.

Lemma firstn_units {A} n (l : list A) c : In c (firstn n l) -> In c l.
Proof.
  revert l; induction n as [|n IH]; intros l H; [destruct H|].
  destruct l as [|a l]; [destruct H|].
  destruct H as [<-|H]; [now left|right; now apply IH].
Qed.

Lemma substring_from_0 (s : jsstring) b :
  (0 <= b <= Z.of_nat (length s))%Z ->
  substring s 0 b = firstn (Z.to_nat b) s.
Proof.
  intros Hb. unfold substring.
  rewrite (Z.max_l 0 0) by lia. rewrite (Z.min_l 0) by lia.
  rewrite (Z.max_l b 0) by lia. rewrite (Z.min_l b) by lia.
  rewrite (Z.min_l 0 b) by lia. rewrite (Z.max_r 0 b) by lia.
  simpl. now rewrite Z.sub_0_r.
Qed.

Lemma narrow_ellipsis s n :
  (forall c, In c s -> narrow c = true) ->
  forall c, In c (firstn n s ++ lit "...") -> narrow c = true.
Proof.
  intros Hs c Hc. apply in_app_or in Hc as [Hc|Hc].
  - apply Hs. eapply firstn_units; eauto.
  - simpl in Hc. destruct Hc as [<-|[<-|[<-|[]]]]; reflexivity.
Qed.

(** What [buildCell] shows of a text of narrow units that has room in
    its column. *)
Lemma buildCell_narrow cellText cellWidth :
  (forall c, In c cellText -> narrow c = true) ->
  hasRoom cellText cellWidth ->
  displayText (buildCell cellText cellWidth)
  = (if (Z.of_nat (length cellText) <=? cellWidth - 2)%Z then cellText
     else firstn (Z.to_nat (cellWidth - 5)) cellText ++ lit "...") /\
  (Z.of_nat (length (displayText (buildCell cellText cellWidth)))
   + paddingRequired (buildCell cellText cellWidth) = cellWidth - 2)%Z /\
  (0 <= paddingRequired (buildCell cellText cellWidth))%Z.
Proof.
  intros Hnarrow Hroom. unfold hasRoom, minimalCellWidth in Hroom.
  pose proof (calculateTextWidth_narrow cellText Hnarrow) as Hw.
  unfold buildCell. cbn [displayText paddingRequired].
  rewrite Hw. rewrite (Z.max_r 0 (cellWidth - 2)) by lia.
  destruct (Z.ltb_spec (cellWidth - 2) (Z.of_nat (length cellText))) as [Hcut|Hfit].
  - destruct (Z.leb_spec (Z.of_nat (length cellText)) (cellWidth - 2)); [lia|].
    rewrite (Z.max_r 0 (cellWidth - 2 - 3)) by lia.
    rewrite substring_from_0 by lia.
    replace (cellWidth - 2 - 3)%Z with (cellWidth - 5)%Z by lia.
    rewrite calculateTextWidth_narrow by (now apply narrow_ellipsis).
    rewrite length_app, length_firstn.
    change (length (lit "...")) with 3.
    split; [reflexivity|split; lia].
  - destruct (Z.leb_spec (Z.of_nat (length cellText)) (cellWidth - 2)); [|lia].
    rewrite Hw. split; [reflexivity|split; lia].
Qed.

(** X16.  A cell of narrow characters with room in its column fills
    the column exactly: when the text fits in the column width less 2,
    or the column is 5 wide or more, the text shown and the blanks after
    it take the column width less 2.  A text that fits is shown whole; a
    longer one is cut to the width less 5 and shown with the three dots
    of the ellipsis, without blanks after it. *)
Theorem cell_of_narrow_text_fills_its_column cellText cellWidth
    (Hnarrow : forall c, In c cellText -> narrow c = true)
    (Hroom : hasRoom cellText cellWidth) :
  (calculateTextWidth (displayText (buildCell cellText cellWidth))
   + paddingRequired (buildCell cellText cellWidth) = cellWidth - 2)%Z /\
  displayText (buildCell cellText cellWidth)
  = (if (Z.of_nat (length cellText) <=? cellWidth - 2)%Z then cellText
     else firstn (Z.to_nat (cellWidth - 5)) cellText ++ lit "...") /\
  ((cellWidth - 2 < Z.of_nat (length cellText))%Z ->
   paddingRequired (buildCell cellText cellWidth) = 0%Z).
Proof.
  destruct (buildCell_narrow cellText cellWidth Hnarrow Hroom)
    as (Hshown & Hfill & Hpad).
  split; [|split; [exact Hshown|]].
  - rewrite calculateTextWidth_narrow; [exact Hfill|].
    rewrite Hshown. destruct (_ <=? _)%Z; [exact Hnarrow|].
    now apply narrow_ellipsis.
  - intros Hcut. rewrite Hshown in Hfill.
    unfold hasRoom, minimalCellWidth in Hroom.
    destruct (Z.leb_spec (Z.of_nat (length cellText)) (cellWidth - 2)); [lia|].
    rewrite length_app, length_firstn in Hfill.
    change (length (lit "...")) with 3 in Hfill. lia.
Qed.

Lemma cell_of_narrow_text_fills_its_column_witness :
  (calculateTextWidth (displayText (buildCell (lit "Description") 10))
   + paddingRequired (buildCell (lit "Description") 10) = 10 - 2)%Z /\
  displayText (buildCell (lit "Description") 10)
  = (if (Z.of_nat (length (lit "Description")) <=? 10 - 2)%Z
     then lit "Description"
     else firstn (Z.to_nat (10 - 5)) (lit "Description") ++ lit "...") /\
  ((10 - 2 < Z.of_nat (length (lit "Description")))%Z ->
   paddingRequired (buildCell (lit "Description") 10) = 0%Z).
Proof.
  apply (cell_of_narrow_text_fills_its_column (lit "Description") 10).
  - intros c Hc.
    repeat (destruct Hc as [<-|Hc]; [reflexivity|]). destruct Hc.
  - left. unfold minimalCellWidth. lia.
Defined.

(** ** The border lines of a table *)

Lemma concat_repeat_unit {A} (x : A) n :
  concat (List.repeat [x] n) = List.repeat x n.
Proof. induction n as [|n IH]; simpl; [reflexivity|]. now rewrite IH. Qed.

Lemma segments_of_widths widths :
  fold_right (fun width acc =>
                rest <- acc ;;
                seg <- JsString.repeat [boxHorizontal] width ;;
                Returns (seg :: rest))
             (Returns []) widths
  = if forallb (fun w => (0 <=? w)%Z) widths
    then Returns (map (fun w => List.repeat boxHorizontal (Z.to_nat w)) widths)
    else Throws RangeError.
Proof.
  induction widths as [|w widths IH]; [reflexivity|].
  cbn [fold_right forallb map]. rewrite IH.
  unfold JsString.repeat.
  destruct (forallb _ widths); cbn [bind].
  - destruct (Z.ltb_spec w 0) as [Hw|Hw].
    + destruct (Z.leb_spec 0 w); [lia|reflexivity].
    + destruct (Z.leb_spec 0 w); [|lia].
      cbn [bind andb]. do 2 f_equal. apply concat_repeat_unit.
  - now rewrite andb_false_r.
Qed.

Lemma totalRequiredWidth_sum widths :
  totalRequiredWidth widths
  = (1 + fold_right (fun w sum => w + 1 + sum) 0 widths)%Z.
Proof.
  unfold totalRequiredWidth.
  assert (H : forall ws acc,
            fold_left (fun sum w => (sum + w + 1)%Z) ws acc
            = (acc + fold_right (fun w sum => w + 1 + sum) 0 ws)%Z).
  { induction ws as [|w ws IH]; intros acc; simpl; [lia|].
    rewrite IH. lia. }
  apply H.
Qed.

Lemma length_joined_segments (j : N) widths :
  widths <> [] ->
  Forall (fun w => (0 <= w)%Z) widths ->
  Z.of_nat (length (join [j]
                      (map (fun w => List.repeat boxHorizontal (Z.to_nat w)) widths)))
  = (fold_right (fun w sum => w + 1 + sum) 0 widths - 1)%Z.
Proof.
  induction widths as [|w widths IH]; intros Hne Hall; [contradiction|].
  inversion Hall as [|? ? Hw Hrest]; subst.
  destruct widths as [|w' widths].
  - simpl. rewrite repeat_length. lia.
  - cbn [map]. rewrite join_cons_some by discriminate.
    rewrite !length_app, repeat_length. cbn [fold_right length].
    cbn [map] in IH. cbn [fold_right] in IH.
    specialize (IH ltac:(discriminate) Hrest).
    rewrite !Nat2Z.inj_add. lia.
Qed.

Lemma buildBorderLine_value widths leftCorner junction rightCorner :
  buildBorderLine widths leftCorner junction rightCorner
  = (if forallb (fun w => (0 <=? w)%Z) widths
     then Returns ([leftCorner]
                   ++ join [junction]
                        (map (fun w => List.repeat boxHorizontal (Z.to_nat w))
                           widths)
                   ++ [rightCorner])
     else Throws RangeError).
Proof.
  unfold buildBorderLine. rewrite segments_of_widths.
  now destruct (forallb _ widths).
Qed.

Lemma buildBorderLine_length widths leftCorner junction rightCorner line :
  widths <> [] ->
  buildBorderLine widths leftCorner junction rightCorner = Returns line ->
  Z.of_nat (length line) = totalRequiredWidth widths.
Proof.
  intros Hsome Hret. rewrite buildBorderLine_value in Hret.
  destruct (forallb _ widths) eqn:Hall; [|discriminate].
  injection Hret as <-.
  assert (Hpos : Forall (fun w => (0 <= w)%Z) widths).
  { apply Forall_forall. intros w Hw.
    rewrite forallb_forall in Hall. apply Hall in Hw. now apply Z.leb_le. }
  pose proof (length_joined_segments junction widths Hsome Hpos) as Hlen.
  cbn [app length]. rewrite length_app. cbn [length].
  rewrite totalRequiredWidth_sum. lia.
Qed.

(** X17.  A border line of a table: when no column width is negative it
    is the left corner, the runs of U+2500, one per column and as long as
    the column is wide, joined by the junction, and the right corner; it
    throws as soon as one width is negative.  With one column or more
    and no negative width, the line is exactly as long as the required
    width computed from these widths, 1 + sum of (width + 1). *)
Theorem border_line_spans_the_columns widths leftCorner junction rightCorner
    (Hsome : widths <> []) :
  buildBorderLine widths leftCorner junction rightCorner
  = (if forallb (fun w => (0 <=? w)%Z) widths
     then Returns ([leftCorner]
                   ++ join [junction]
                        (map (fun w => List.repeat boxHorizontal (Z.to_nat w))
                           widths)
                   ++ [rightCorner])
     else Throws RangeError) /\
  (forall line,
      buildBorderLine widths leftCorner junction rightCorner = Returns line ->
      Z.of_nat (length line) = totalRequiredWidth widths).
Proof.
  split; [apply buildBorderLine_value|].
  intros line. now apply buildBorderLine_length.
Qed.

Lemma border_line_spans_the_columns_witness :
  buildBorderLine [3%Z; 0%Z; 5%Z] 0x250C 0x252C 0x2510
  = (if forallb (fun w => (0 <=? w)%Z) [3%Z; 0%Z; 5%Z]
     then Returns ([0x250C%N]
                   ++ join [0x252C%N]
                        (map (fun w => List.repeat boxHorizontal (Z.to_nat w))
                           [3%Z; 0%Z; 5%Z])
                   ++ [0x2510%N])
     else Throws RangeError) /\
  (forall line,
      buildBorderLine [3%Z; 0%Z; 5%Z] 0x250C 0x252C 0x2510 = Returns line ->
      Z.of_nat (length line) = totalRequiredWidth [3%Z; 0%Z; 5%Z]).
Proof.
  apply (border_line_spans_the_columns [3%Z; 0%Z; 5%Z] 0x250C 0x252C 0x2510).
  discriminate.
Defined.

(** ** Data rows *)

Lemma nth_coerceCells n cells i :
  i < n -> nth i (coerceCells n cells) [] = nth i cells [].
Proof.
  intros Hi. unfold coerceCells. rewrite nth_firstn.
  destruct (Nat.ltb_spec i n) as [_|]; [|lia].
  destruct (Nat.lt_ge_cases i (length cells)) as [Hc|Hc].
  - now rewrite app_nth1.
  - rewrite app_nth2 by lia. rewrite (nth_overflow cells) by lia.
    apply nth_repeat.
Qed.

(** X18.  Cell coercion: while a table is open, a row line that is no
    separator adds one data row and nothing else; the row has exactly as
    many cells as the header, cell [i] being cell [i] of the line, trimmed,
    when the line has one and the empty string otherwise; the cells of
    the line beyond the header are dropped. *)
Theorem data_row_is_coerced_to_the_header w st line next m
    (Hcode : codeBlockActive st = false)
    (Htable : tableActive st = true)
    (Hrow : exec patterns.tableRow line = Some m)
    (Hsep : test patterns.tableSeparator line = false) :
  exists row,
    processLine w st line next
    = Returns (setTable true (tableHeaderCells st) (tableDataRows st ++ [row]) st) /\
    length row = length (tableHeaderCells st) /\
    (forall i, i < length (tableHeaderCells st) ->
               nth i row [] = nth i (map trim (splitOn (ch "|") (groupStr 1 m))) []).
Proof.
  exists (coerceCells (length (tableHeaderCells st)) (splitCells (groupStr 1 m))).
  split; [|split].
  - unfold processLine.
    rewrite Hcode, Htable, (tableRow_is_no_fence _ _ Hrow), Hrow.
    unfold test in Hsep.
    destruct (exec patterns.tableSeparator line); [discriminate|].
    reflexivity.
  - apply coerceCells_length.
  - intros i Hi. now apply nth_coerceCells.
Qed.

Lemma data_row_is_coerced_to_the_header_witness :
  exists row,
    processLine 80 tableOpen (lit "| x | y | z |") None
    = Returns (setTable true (tableHeaderCells tableOpen)
                 (tableDataRows tableOpen ++ [row]) tableOpen) /\
    length row = length (tableHeaderCells tableOpen) /\
    (forall i, i < length (tableHeaderCells tableOpen) ->
               nth i row []
               = nth i (map trim (splitOn (ch "|") (lit " x | y | z "))) []).
Proof.
  destruct (exec patterns.tableRow (lit "| x | y | z |")) as [m|] eqn:He;
    [|vm_compute in He; discriminate He].
  assert (Hg : groupStr 1 m = lit " x | y | z ").
  { vm_compute in He. injection He as <-. reflexivity. }
  rewrite <- Hg.
  apply (data_row_is_coerced_to_the_header 80 tableOpen (lit "| x | y | z |")
           None m).
  - reflexivity.
  - reflexivity.
  - exact He.
  - vm_compute. reflexivity.
Defined.

(** ** Where the runs stand in the content *)

Lemma between_markers (w p q : jsstring) :
  startsWith w p = true -> endsWith w q = true ->
  length p + length q <= length w ->
  w = p ++ sliceBoth w (length p) (length q) ++ q.
Proof.
  intros Hp Hq Hlen.
  apply startsWith_app in Hp.
  unfold endsWith in Hq. apply startsWith_app in Hq.
  rewrite length_rev, skipn_rev in Hq.
  apply (f_equal (@rev N)) in Hq.
  rewrite rev_involutive, rev_app_distr, !rev_involutive in Hq.
  unfold sliceBoth.
  rewrite Hq at 1. rewrite app_assoc. f_equal.
  transitivity (firstn (length w - length q) (p ++ skipn (length p) w)).
  - now rewrite <- Hp.
  - rewrite firstn_app, firstn_all2 by lia. reflexivity.
Qed.

Lemma test_class_unit p c : test (Class p) [c] = p c.
Proof. unfold test, exec. simpl. unfold step1. simpl. now destruct (p c). Qed.

Lemma test_class_empty p : test (Class p) [] = false.
Proof. reflexivity. Qed.

Lemma substring_unit (a b : jsstring) c :
  substring (a ++ c :: b) (Z.of_nat (length a)) (Z.of_nat (length a) + 1) = [c].
Proof.
  unfold substring. rewrite length_app. cbn [length].
  set (L := Z.of_nat (length a)).
  set (len := Z.of_nat (length a + S (length b))).
  assert (HL : (0 <= L < len)%Z) by (subst L len; lia).
  replace (Z.min (Z.max L 0) len) with L by lia.
  replace (Z.min (Z.max (L + 1) 0) len) with (L + 1)%Z by lia.
  replace (Z.min L (L + 1)) with L by lia.
  replace (Z.max L (L + 1)) with (L + 1)%Z by lia.
  replace (L + 1 - L)%Z with 1%Z by lia.
  subst L. rewrite Nat2Z.id, skipn_app, skipn_all, Nat.sub_diag. reflexivity.
Qed.

Lemma underline_markers_fit (w : jsstring) :
  startsWith w (lit "<u>") = true -> endsWith w (lit "</u>") = true ->
  length (lit "<u>") + length (lit "</u>") <= length w.
Proof.
  intros Hs He.
  destruct w as [|a [|b [|c [|d [|e [|f [|g w]]]]]]];
    try (simpl; lia); try discriminate Hs; exfalso;
    cbn in Hs, He;
    repeat match goal with
    | H : _ && _ = true |- _ => apply andb_prop in H as [? ?]
    | H : N.eqb _ _ = true |- _ => apply N.eqb_eq in H; subst
    end; discriminate.
Qed.

Lemma codePattern_shape w cp :
  exec codePattern w = Some cp ->
  exists n, 1 <= n /\
    w = List.repeat (ch "`") n ++ groupStr 2 cp ++ List.repeat (ch "`") n.
Proof.
  intros He.
  apply exec_anchored in He; [|reflexivity|reflexivity].
  cbv [codePattern re cat] in He.
  inv_sem.
  match goal with
  | H : Sem (plus (c1 "`")) _ _ _ _ _ |- _ =>
      destruct (Sem_Quant_Char _ _ _ _ _ _ _ _ _ H I) as [Hrun [Hlo _]]
  end.
  match goal with
  | H : Sem (Backref 1) _ _ _ _ _ |- _ => inv H
  end.
  match goal with
  | H : Sem (lazyPlus _) _ _ _ _ _ |- _ =>
      apply Sem_nogroups in H; [subst|reflexivity]
  end.
  match goal with
  | H : _ \/ _ |- _ => cbn [getCapture Nat.eqb] in H; destruct H as [H|H];
                        [discriminate H|injection H as <-]
  end.
  exists (length w0). split; [exact Hlo|].
  unfold groupStr, group.
  match goal with H : _ = groups cp |- _ => rewrite <- H end.
  cbn [getCapture Nat.eqb app]. rewrite app_nil_r, <- Hrun. reflexivity.
Qed.

Lemma linkPattern_shape w lp :
  exec linkPattern w = Some lp ->
  exists pre post,
    w = pre ++ lit "[" ++ groupStr 1 lp ++ lit "](" ++ groupStr 2 lp
            ++ lit ")" ++ post.
Proof.
  intros He.
  apply exec_Sem in He as (pre & w' & post & Hl & _ & Hsem).
  exists pre, post. subst w. f_equal.
  cbv [linkPattern re cat c1] in Hsem.
  inv_sem. inv_chars.
  repeat match goal with
  | H : Sem (lazyStar _) _ _ _ _ _ |- _ =>
      apply Sem_nogroups in H; [subst|reflexivity]
  end.
  unfold groupStr, group.
  match goal with
  | H : _ = groups lp |- _ => rewrite <- H
  | H : groups lp = _ |- _ => rewrite H
  end.
  cbn [getCapture Nat.eqb lit app].
  repeat (rewrite <- app_assoc || rewrite <- app_comm_cons).
  reflexivity.
Qed.


Lemma formatMatch_standsIn content m sp before w after :
  content = before ++ w ++ after ->
  index m = length before ->
  lastIndex m = length before + length w ->
  matched m = w ->
  formatMatch content m = Some sp -> standsIn content sp.
Proof.
  intros Hc Hi Hl Hm. unfold formatMatch. rewrite Hm.
  destruct (startsWith w (lit "**") && _ && _) eqn:Hbold.
  { intros H. injection H as <-.
    apply andb_prop in Hbold as [Hse Hlen].
    apply andb_prop in Hse as [Hs He]. apply Nat.ltb_lt in Hlen.
    exists before, after. rewrite Hc. f_equal.
    rewrite (between_markers w _ _ Hs He) at 1 by (simpl; unfold MARKER_BOLD in Hlen; lia).
    now rewrite <- !app_assoc. }
  destruct ((MARKER_ITALIC * 2 <? _) && _) eqn:Hitalic.
  { destruct (negb (test _ _) && negb (test _ _)) eqn:Hctx; [|discriminate].
    intros H. injection H as <-.
    apply andb_prop in Hitalic as [Hlen Hd]. apply Nat.ltb_lt in Hlen.
    apply andb_prop in Hctx as [Hprev Hnext].
    apply negb_true_iff in Hprev, Hnext. cbv [re] in Hprev, Hnext.
    assert (Hw : exists d, (d = ch "*" \/ d = ch "_") /\
                           w = [d] ++ sliceBoth w 1 1 ++ [d]).
    { apply orb_prop in Hd as [Hd|Hd]; apply andb_prop in Hd as [Hs He].
      - exists (ch "*"). split; [now left|].
        apply (between_markers w (lit "*") (lit "*") Hs He).
        simpl. unfold MARKER_ITALIC in Hlen. lia.
      - exists (ch "_"). split; [now right|].
        apply (between_markers w (lit "_") (lit "_") Hs He).
        simpl. unfold MARKER_ITALIC in Hlen. lia. }
    destruct Hw as (d & Hd' & Hw).
    exists before, after, d. split; [|split; [exact Hd'|split]].
    - rewrite Hc. f_equal. rewrite Hw at 1. now rewrite <- !app_assoc.
    - intros pre c ->. rewrite Hc, Hi in Hprev.
      rewrite length_app in Hprev. cbn [length] in Hprev.
      replace (Z.of_nat (length pre + 1) - 1)%Z with (Z.of_nat (length pre))
        in Hprev by lia.
      replace (Z.of_nat (length pre + 1)) with (Z.of_nat (length pre) + 1)%Z
        in Hprev by lia.
      rewrite <- app_assoc in Hprev. cbn [app] in Hprev.
      rewrite substring_unit, test_class_unit in Hprev. exact Hprev.
    - intros c rest ->. rewrite Hc, Hl in Hnext.
      rewrite app_assoc in Hnext. rewrite <- length_app in Hnext.
      rewrite substring_unit, test_class_unit in Hnext. exact Hnext. }
  destruct (startsWith w (lit "~~") && _ && _) eqn:Hstrike.
  { intros H. injection H as <-.
    apply andb_prop in Hstrike as [Hse Hlen].
    apply andb_prop in Hse as [Hs He]. apply Nat.ltb_lt in Hlen.
    exists before, after. rewrite Hc. f_equal.
    rewrite (between_markers w _ _ Hs He) at 1 by (simpl; unfold MARKER_STRIKE in Hlen; lia).
    now rewrite <- !app_assoc. }
  destruct (startsWith w (lit "`") && _ && _) eqn:Hcode.
  { destruct (exec codePattern w) as [cp|] eqn:Hcp; [|discriminate].
    destruct (isNonEmpty (groupStr 2 cp)); [|discriminate].
    intros H. injection H as <-.
    destruct (codePattern_shape _ _ Hcp) as (n & Hn & Hw).
    exists before, after, n. split; [exact Hn|].
    rewrite Hc. f_equal. rewrite Hw at 1. now rewrite <- !app_assoc. }
  destruct (startsWith w (lit "[") && _ && _) eqn:Hlink.
  { destruct (exec linkPattern w) as [lp|] eqn:Hlp; [|discriminate].
    intros H. injection H as <-.
    destruct (linkPattern_shape _ _ Hlp) as (pre & post & Hw).
    exists (before ++ pre), (post ++ after).
    rewrite Hc, Hw. now rewrite <- !app_assoc. }
  destruct (startsWith w (lit "<u>") && _) eqn:Hunder.
  { intros H. injection H as <-.
    apply andb_prop in Hunder as [Hs He].
    exists before, after. rewrite Hc. f_equal.
    rewrite (between_markers w _ _ Hs He) at 1
      by (now apply underline_markers_fit).
    now rewrite <- !app_assoc. }
  destruct (test urlPattern w); [|discriminate].
  intros H. injection H as <-. exists before, after. exact Hc.
Qed.

Lemma inlineLoop_standsIn content : forall fuel pos sp,
  In sp (inlineLoop fuel content pos) -> standsIn content sp.
Proof.
  assert (Hrem : forall pos sp,
            In sp (if pos <? length content
                   then [Plain (skipn pos content)] else []) ->
            standsIn content sp).
  { intros pos sp. destruct (pos <? length content); [|intros []].
    intros [<-|[]]. exists (firstn pos content), [].
    now rewrite app_nil_r, firstn_skipn. }
  induction fuel as [|fuel IH]; intros pos sp; simpl; [apply Hrem|].
  destruct (execFrom patternRegex pos content) as [m|] eqn:He; [|apply Hrem].
  intros Hin.
  unfold execFrom in He.
  destruct (pos <=? length content); [|discriminate].
  apply scan_sound in He as (pre & w & post & Hs & Hi & Hl & Hm & Hsem).
  assert (Hc : content = (firstn pos content ++ pre) ++ w ++ post).
  { rewrite <- app_assoc, <- Hs. now rewrite firstn_skipn. }
  assert (Hpos : pos <= length content -> length (firstn pos content) = pos).
  { intros Hp. rewrite length_firstn. lia. }
  apply in_app_or in Hin as [Hin|Hin].
  - destruct (pos <? index m); [|destruct Hin].
    destruct Hin as [<-|[]].
    replace (index m - pos) with (length pre) by lia.
    exists (firstn pos content), (w ++ post).
    rewrite Hs, firstn_app, Nat.sub_diag, firstn_all. simpl.
    rewrite app_nil_r, <- Hs. now rewrite firstn_skipn.
  - destruct Hin as [<-|Hin]; [|eapply IH; eauto].
    destruct (formatMatch content m) as [el|] eqn:Hf.
    + destruct (Nat.le_gt_cases pos (length content)) as [Hp|Hp].
      * eapply (formatMatch_standsIn content m el _ w post Hc); auto.
        -- rewrite length_app, Hpos by assumption. exact Hi.
        -- rewrite length_app, Hpos by assumption. lia.
      * exfalso. rewrite skipn_all2 in Hs by lia.
        destruct pre; [|discriminate]. destruct w; [|discriminate].
        destruct (Sem_Needs _ _ _ _ _ _ _ Hsem patternRegex_needs)
          as (c & Hc' & _). destruct Hc'.
    + rewrite Hm. exists (firstn pos content ++ pre), post. exact Hc.
Qed.

(** X27.  Every run stands in the content it is made from, between its
    markers: a bold run between two pairs of stars, a struck run between
    two pairs of tildes, an underlined run between "<u>" and "</u>", a
    code run between two runs of backticks of the same length, a link as
    its label and its address in "[label](address)", a plain run and a
    bare link as they are.  An italic run stands between two stars or two
    underscores, with no word character right before the first nor right
    after the second: inside a word such as file_name_here no run is
    italic. *)
Theorem runs_stand_between_their_markers content sp
    (Hrun : In sp (ProcessInlineText content)) :
  standsIn content sp.
Proof.
  unfold ProcessInlineText in Hrun.
  destruct (negb (test quickCheck content)).
  - destruct Hrun as [<-|[]]. exists [], []. now rewrite app_nil_r.
  - eapply inlineLoop_standsIn; eauto.
Qed.

Lemma runs_stand_between_their_markers_witness :
  standsIn (lit "the _word_ is in file_name_here") (Italic (lit "word")).
Proof.
  apply (runs_stand_between_their_markers
           (lit "the _word_ is in file_name_here") (Italic (lit "word"))).
  vm_compute. right. left. reflexivity.
Defined.

(** ** The text of a row *)

Lemma startsWith_unit (w : jsstring) c p :
  startsWith w (c :: p) = true -> In c w.
Proof.
  destruct w as [|a w]; simpl; [discriminate|].
  intros H. apply andb_prop in H as [H _]. apply N.eqb_eq in H. now left.
Qed.

(** A match without marker characters is shown as it is. *)
Lemma formatMatch_runText content m sp :
  (forall c, In c (matched m) -> isMarker c = false) ->
  formatMatch content m = Some sp -> runText sp = matched m.
Proof.
  intros Hm. unfold formatMatch.
  assert (Hno : forall c p, isMarker c = true ->
                startsWith (matched m) (c :: p) = false).
  { intros c p Hc. destruct (startsWith (matched m) (c :: p)) eqn:Hs;
      [|reflexivity].
    apply startsWith_unit in Hs. apply Hm in Hs. congruence. }
  cbn [lit].
  rewrite (Hno (ch "*") [ch "*"] eq_refl), (Hno (ch "*") [] eq_refl),
    (Hno (ch "_") [] eq_refl), (Hno (ch "~") [ch "~"] eq_refl),
    (Hno (ch "`") [] eq_refl), (Hno (ch "[") [] eq_refl),
    (Hno (ch "<") [ch "u"; ch ">"] eq_refl).
  cbn [andb orb]. rewrite andb_false_r.
  destruct (test urlPattern (matched m)); [|discriminate].
  intros H. now injection H as <-.
Qed.

Lemma inlineLoop_runText content :
  (forall c, In c content -> isMarker c = false) ->
  forall fuel pos,
    concat (map runText (inlineLoop fuel content pos)) = skipn pos content.
Proof.
  intros Hmark.
  assert (Hrem : forall pos,
            concat (map runText (if pos <? length content
                                 then [Plain (skipn pos content)] else []))
            = skipn pos content).
  { intros pos. destruct (Nat.ltb_spec pos (length content)); simpl.
    - apply app_nil_r.
    - now rewrite skipn_all2. }
  induction fuel as [|fuel IH]; intros pos; simpl; [apply Hrem|].
  destruct (execFrom patternRegex pos content) as [m|] eqn:He; [|apply Hrem].
  unfold execFrom in He.
  destruct (pos <=? length content); [|discriminate].
  apply scan_sound in He as (pre & w & post & Hs & Hi & Hl & Hm & Hsem).
  rewrite map_app, concat_app. cbn [map concat].
  rewrite IH.
  assert (Hel : runText (match formatMatch content m with
                         | Some el => el
                         | None => Plain (matched m)
                         end) = w).
  { destruct (formatMatch content m) as [el|] eqn:Hf; [|exact Hm].
    rewrite (formatMatch_runText content m el); [exact Hm| |exact Hf].
    intros c Hc. apply Hmark. rewrite Hm in Hc.
    rewrite <- (firstn_skipn pos content), Hs.
    apply in_or_app. right. apply in_or_app. right.
    apply in_or_app. now left. }
  rewrite Hel.
  assert (Hpost : skipn (lastIndex m) content = post).
  { replace (lastIndex m) with (length (pre ++ w) + pos)
      by (rewrite length_app; lia).
    rewrite <- skipn_skipn, Hs, app_assoc, skipn_app, skipn_all, Nat.sub_diag.
    reflexivity. }
  rewrite Hpost, Hs.
  destruct (Nat.ltb_spec pos (index m)) as [Hlt|Hge].
  - cbn [map concat runText].
    replace (index m - pos) with (length pre) by lia.
    rewrite firstn_app, Nat.sub_diag, firstn_all. simpl.
    now rewrite !app_nil_r.
  - destruct pre; [reflexivity|simpl in Hi; lia].
Qed.

Lemma inlineText_narrow content :
  (forall c, In c content -> narrow c = true) -> inlineText content = content.
Proof.
  intros Hn. unfold inlineText, ProcessInlineText.
  destruct (negb (test quickCheck content)); [apply app_nil_r|].
  apply (inlineLoop_runText content).
  intros c Hc. apply (narrow_spec c (Hn c Hc)).
Qed.

(** The text of a cell of narrow units with room in its column is as
    long as the column is wide, less 2. *)
Lemma cellText_length cell cellWidth :
  (forall c, In c cell -> narrow c = true) ->
  hasRoom cell cellWidth ->
  Z.of_nat (length (cellText (buildCell cell cellWidth))) = (cellWidth - 2)%Z.
Proof.
  intros Hn Hroom.
  destruct (buildCell_narrow cell cellWidth Hn Hroom) as (Hshown & Hfill & Hpad).
  unfold cellText, blanks.
  rewrite inlineText_narrow.
  - rewrite length_app, repeat_length. lia.
  - rewrite Hshown. destruct (_ <=? _)%Z; [exact Hn|].
    now apply narrow_ellipsis.
Qed.

Lemma mapi_mapi {A B C} (f : B -> nat -> C) (g : A -> nat -> B) l :
  mapi f (mapi g l) = mapi (fun x i => f (g x i) i) l.
Proof.
  unfold mapi. rewrite length_map, length_combine, length_seq, Nat.min_id.
  generalize 0 as k. induction l as [|a l IH]; intros k; [reflexivity|].
  simpl. f_equal. apply IH.
Qed.

Lemma nth_skipn_head {A} (l : list A) k d w ws :
  skipn k l = w :: ws -> nth k l d = w /\ skipn (S k) l = ws.
Proof.
  revert l; induction k as [|k IH]; intros l H.
  - simpl in H. subst l. split; reflexivity.
  - destruct l as [|a l]; [discriminate|]. simpl in H.
    destruct (IH l H) as [H1 H2]. split; [exact H1|].
    exact H2.
Qed.

Lemma row_body_length widths n : forall cells k,
  k + length cells = n ->
  Forall2 (fun w cell => (forall c, In c cell -> narrow c = true)
                         /\ hasRoom cell w) (skipn k widths) cells ->
  Z.of_nat
    (length
       (concat
          (map (fun p =>
                  cellText (buildCell (snd p) (nth (fst p) widths 0%Z))
                  ++ (if (Z.of_nat (fst p) <? Z.of_nat n - 1)%Z
                      then [ch " "; 0x2502%N; ch " "] else []))
             (combine (seq k (length cells)) cells))))
  = (fold_right (fun w sum => w + 1 + sum) 0 (skipn k widths)
     - 3 * (if Nat.eqb (length cells) 0 then 0 else 1))%Z.
Proof.
  induction cells as [|cell cells IH]; intros k Hn Hall.
  - inversion Hall as [Hws|]. reflexivity.
  - destruct (skipn k widths) as [|w ws'] eqn:Hws; [inversion Hall|].
    apply Forall2_cons_iff in Hall as [[Hnarrow Hroom] Hrest].
    destruct (nth_skipn_head widths k 0%Z w ws' Hws) as [Hw Hs].
    rewrite <- Hs in Hrest.
    cbn [length seq combine map concat fst snd].
    rewrite length_app, Nat2Z.inj_add.
    rewrite (IH (S k)); [|simpl in Hn; lia|exact Hrest].
    rewrite length_app, Nat2Z.inj_add, Hw.
    rewrite (cellText_length cell w Hnarrow Hroom).
    rewrite Hs. cbn [fold_right].
    cbn [length] in Hn.
    destruct cells as [|cell' cells]; cbn [length Nat.eqb] in *.
    + destruct (Z.ltb_spec (Z.of_nat k) (Z.of_nat n - 1)); [lia|].
      cbn [length]. lia.
    + destruct (Z.ltb_spec (Z.of_nat k) (Z.of_nat n - 1)); [|lia].
      cbn [length]. lia.
Qed.


(** X28.  Rows and borders line up: when every cell of a row holds
    narrow characters only and has room in its column, the text of the
    row (a bar and a blank, the cells separated by a blank, a bar and a
    blank, a blank and a bar) is exactly as long as the required width
    computed from the column widths, and so exactly as long as each of
    the three border lines, which do not throw. *)
Theorem rows_are_as_long_as_the_borders widths rowCells
    (Hsome : rowCells <> [])
    (Hcells : Forall2 (fun w cell => (forall c, In c cell -> narrow c = true)
                                     /\ hasRoom cell w) widths rowCells) :
  Z.of_nat (length (rowText (buildTableRow widths rowCells)))
  = totalRequiredWidth widths /\
  (forall leftCorner junction rightCorner,
     exists line,
       buildBorderLine widths leftCorner junction rightCorner = Returns line /\
       length line = length (rowText (buildTableRow widths rowCells))).
Proof.
  assert (Hlen : length widths = length rowCells)
    by (eapply Forall2_length; eauto).
  assert (Hrow : Z.of_nat (length (rowText (buildTableRow widths rowCells)))
                 = totalRequiredWidth widths).
  { unfold rowText, buildTableRow.
    rewrite mapi_mapi, length_mapi. unfold mapi.
    cbn [app length]. rewrite length_app. cbn [length].
    pose proof (row_body_length widths (length rowCells) rowCells 0 eq_refl Hcells)
      as Hbody.
    cbn [skipn] in Hbody.
    destruct rowCells as [|cell rowCells]; [contradiction|].
    cbn [length Nat.eqb] in Hbody.
    rewrite totalRequiredWidth_sum.
    cbn [length] in *.
    match goal with
    | |- context [length (concat ?m)] => set (body := length (concat m))
    end.
    assert (Hb : Z.of_nat body
                 = (fold_right (fun w sum => w + 1 + sum) 0 widths - 3 * 1)%Z)
      by exact Hbody.
    clearbody body. lia. }
  split; [exact Hrow|].
  intros leftCorner junction rightCorner.
  assert (Hpos : forallb (fun w => (0 <=? w)%Z) widths = true).
  { apply forallb_forall. intros w Hw. apply Z.leb_le.
    clear Hrow Hlen Hsome.
    induction Hcells as [|w' cell ws cells [_ Hroom] _ IH]; [destruct Hw|].
    destruct Hw as [<-|Hw]; [|now apply IH].
    unfold hasRoom, minimalCellWidth in Hroom. lia. }
  pose proof (buildBorderLine_value widths leftCorner junction rightCorner) as Hb.
  rewrite Hpos in Hb.
  eexists. split; [exact Hb|].
  apply Nat2Z.inj. rewrite Hrow.
  apply (buildBorderLine_length widths leftCorner junction rightCorner).
  - intros ->. destruct rowCells; [contradiction|discriminate].
  - exact Hb.
Qed.

Lemma rows_are_as_long_as_the_borders_witness :
  Z.of_nat (length (rowText (buildTableRow [6%Z; 8%Z]
                               [lit "Name"; lit "Description"])))
  = totalRequiredWidth [6%Z; 8%Z] /\
  (forall leftCorner junction rightCorner,
     exists line,
       buildBorderLine [6%Z; 8%Z] leftCorner junction rightCorner
       = Returns line /\
       length line
       = length (rowText (buildTableRow [6%Z; 8%Z]
                            [lit "Name"; lit "Description"]))).
Proof.
  apply (rows_are_as_long_as_the_borders [6%Z; 8%Z]
           [lit "Name"; lit "Description"]).
  - discriminate.
  - constructor; [|constructor; [|constructor]].
    + split.
      * intros c Hc.
        repeat (destruct Hc as [<-|Hc]; [reflexivity|]). destruct Hc.
      * right. simpl. lia.
    + split.
      * intros c Hc.
        repeat (destruct Hc as [<-|Hc]; [reflexivity|]). destruct Hc.
      * left. unfold minimalCellWidth. lia.
Defined.

(** ** Headers and list items against their lines *)

(** X29.  Headers and list items are cut from their lines: the text of
    every header [renderMarkdown] returns stands in one of the lines of
    the text, after blanks, exactly as many hash characters as the level
    of the header and one blank or more; the text of every list item
    stands in one of the lines, after the indentation and the marker as
    they are in the block (and the dot, for an ordered item) and one
    blank or more. *)
Theorem headers_and_items_are_cut_from_their_lines text options bs
    (Hrender : renderMarkdown text options = Returns (Some bs)) :
  (forall level headerText,
     In (Header level headerText) bs ->
     exists line indent gap rest,
       In line (splitLines text) /\ 1 <= gap /\
       line = (List.repeat (ch " ") indent ++ List.repeat (ch "#") level)
              ++ List.repeat (ch " ") gap ++ headerText ++ rest) /\
  (forall marker indentation itemText,
     In (ListItem ul marker indentation itemText) bs ->
     exists line gap rest,
       In line (splitLines text) /\ 1 <= gap /\
       line = (indentation ++ marker)
              ++ List.repeat (ch " ") gap ++ itemText ++ rest) /\
  (forall marker indentation itemText,
     In (ListItem ol marker indentation itemText) bs ->
     exists line gap rest,
       In line (splitLines text) /\ 1 <= gap /\
       line = (indentation ++ marker ++ lit ".")
              ++ List.repeat (ch " ") gap ++ itemText ++ rest).
Proof.
  pose proof (renderMarkdown_sourced _ _ _ Hrender) as Hsrc.
  rewrite Forall_forall in Hsrc.
  split; [|split].
  - intros level headerText Hin.
    destruct (Hsrc _ Hin) as (line & indent & Hline & gap & rest & Hgap & Hcut).
    now exists line, indent, gap, rest.
  - intros marker indentation itemText Hin.
    destruct (Hsrc _ Hin) as (line & Hline & gap & rest & Hgap & Hcut).
    now exists line, gap, rest.
  - intros marker indentation itemText Hin.
    destruct (Hsrc _ Hin) as (line & Hline & gap & rest & Hgap & Hcut).
    now exists line, gap, rest.
Qed.

Lemma headers_and_items_are_cut_from_their_lines_witness :
  (forall level headerText,
     In (Header level headerText)
        [Header 2 (lit "Plan"); ListItem ol (lit "1") (lit " ") (lit "go")] ->
     exists line indent gap rest,
       In line (splitLines (textOf [lit " ##  Plan"; lit " 1. go"])) /\
       1 <= gap /\
       line = (List.repeat (ch " ") indent ++ List.repeat (ch "#") level)
              ++ List.repeat (ch " ") gap ++ headerText ++ rest) /\
  (forall marker indentation itemText,
     In (ListItem ul marker indentation itemText)
        [Header 2 (lit "Plan"); ListItem ol (lit "1") (lit " ") (lit "go")] ->
     exists line gap rest,
       In line (splitLines (textOf [lit " ##  Plan"; lit " 1. go"])) /\
       1 <= gap /\
       line = (indentation ++ marker)
              ++ List.repeat (ch " ") gap ++ itemText ++ rest) /\
  (forall marker indentation itemText,
     In (ListItem ol marker indentation itemText)
        [Header 2 (lit "Plan"); ListItem ol (lit "1") (lit " ") (lit "go")] ->
     exists line gap rest,
       In line (splitLines (textOf [lit " ##  Plan"; lit " 1. go"])) /\
       1 <= gap /\
       line = (indentation ++ marker ++ lit ".")
              ++ List.repeat (ch " ") gap ++ itemText ++ rest).
Proof.
  apply (headers_and_items_are_cut_from_their_lines
           (textOf [lit " ##  Plan"; lit " 1. go"])
           {| terminalWidth := None |}).
  vm_compute. reflexivity.
Defined.

(** ** Rules before list items *)

Lemma horizontalRule_excludes line m :
  exec patterns.horizontalRule line = Some m ->
  exec patterns.codeFence line = None /\
  exec patterns.tableRow line = None /\
  exec patterns.tableSeparator line = None /\
  exec patterns.header line = None /\
  exec patterns.orderedList line = None.
Proof.
  intros He.
  split; [|split; [|split; [|split]]];
    (eapply exec_disjoint; [exact He|reflexivity|reflexivity|]).
  - cbv [patterns.codeFence re cat star atLeast c1]. needs.
  - cbv [patterns.tableRow re cat star plus c1]. needs.
  - cbv [patterns.tableSeparator re cat star plus opt c1]. needs.
  - cbv [patterns.header re cat star plus c1]. needs.
  - cbv [patterns.orderedList re cat star plus c1]. needs.
Qed.

(** X30.  A rule line is a rule before it is anything else: a line
    that matches the rule pattern matches none of the patterns of the
    fence, the table row, the separator, the header and the ordered
    item, and outside code blocks and tables it is pushed as a rule (or
    makes [repeat] throw, below width 4) even when it also matches the
    pattern of the unordered item, as "- - -" and "* * *" do. *)
Theorem rule_line_is_a_rule_before_a_list_item w st line next m
    (Hrule : exec patterns.horizontalRule line = Some m)
    (Hcode : codeBlockActive st = false)
    (Htable : tableActive st = false) :
  processLine w st line next
  = (rule <- ruleOf w ;; Returns (appendBlock (HorizontalRule rule) st)) /\
  (exec patterns.codeFence line = None /\
   exec patterns.tableRow line = None /\
   exec patterns.tableSeparator line = None /\
   exec patterns.header line = None /\
   exec patterns.orderedList line = None) /\
  (test patterns.unorderedList (lit "- - -") = true /\
   test patterns.horizontalRule (lit "- - -") = true /\
   test patterns.unorderedList (lit "* * *") = true /\
   test patterns.horizontalRule (lit "* * *") = true).
Proof.
  pose proof (horizontalRule_excludes _ _ Hrule) as Hex.
  split; [|split; [exact Hex|]].
  - destruct Hex as (Hf & Hr & _).
    unfold processLine. rewrite Hcode, Htable, Hf, Hr, Hrule. reflexivity.
  - repeat split; vm_compute; reflexivity.
Qed.

Lemma rule_line_is_a_rule_before_a_list_item_witness :
  processLine 80 initialState (lit "- - -") None
  = (rule <- ruleOf 80 ;;
     Returns (appendBlock (HorizontalRule rule) initialState)) /\
  (exec patterns.codeFence (lit "- - -") = None /\
   exec patterns.tableRow (lit "- - -") = None /\
   exec patterns.tableSeparator (lit "- - -") = None /\
   exec patterns.header (lit "- - -") = None /\
   exec patterns.orderedList (lit "- - -") = None) /\
  (test patterns.unorderedList (lit "- - -") = true /\
   test patterns.horizontalRule (lit "- - -") = true /\
   test patterns.unorderedList (lit "* * *") = true /\
   test patterns.horizontalRule (lit "* * *") = true).
Proof.
  destruct (exec patterns.horizontalRule (lit "- - -")) as [m|] eqn:He;
    [|vm_compute in He; discriminate He].
  apply (rule_line_is_a_rule_before_a_list_item 80 initialState (lit "- - -")
           None m He); reflexivity.
Defined.

End Coverage.

(* ================================================================== *)
(** * Properties of the file viewer *)
(* ================================================================== *)

Module ViewerFacts.

Import FileViewer.

(** ** Highlighting *)

Lemma indexOfFrom_found s p : forall i j,
  p <> [] -> indexOfFrom s p i = Some j ->
  i <= j /\ j - i + length p <= length s /\
  startsWith (skipn (j - i) s) p = true.
Proof.
  induction s as [|a s IH]; intros i j Hp H; simpl in H.
  - destruct (startsWith [] p) eqn:Hs; [|discriminate].
    destruct p; [contradiction|discriminate].
  - destruct (startsWith (a :: s) p) eqn:Hs.
    + injection H as <-. rewrite Nat.sub_diag. simpl skipn.
      split; [lia|split; [|exact Hs]].
      apply RegExpFacts.startsWith_app in Hs.
      apply (f_equal (@length N)) in Hs. rewrite length_app in Hs.
      cbn [length] in *. lia.
    + destruct (IH _ _ Hp H) as (Hle & Hlen & Hst).
      split; [lia|].
      replace (j - i) with (S (j - S i)) by lia. simpl. split; [lia|exact Hst].
Qed.

(** A term that is not empty is found at or after the place the search
    starts from, and it fits in the string there. *)
Lemma indexOf_found s p from j :
  p <> [] -> indexOf s p from = Some j ->
  from <= j /\ j + length p <= length s /\
  startsWith (skipn j s) p = true.
Proof.
  unfold indexOf. intros Hp H.
  destruct (indexOfFrom_found _ _ _ _ Hp H) as (Hle & Hlen & Hst).
  rewrite length_skipn in Hlen. rewrite skipn_skipn in Hst.
  destruct (Nat.le_gt_cases from (length s)) as [Hf|Hf].
  - rewrite Nat.min_l in * by lia.
    replace (j - from + from) with j in Hst by lia.
    split; [lia|split; [lia|exact Hst]].
  - exfalso. destruct p; [contradiction|]. simpl in Hlen. lia.
Qed.

Section Highlight.

Variable toLowerCase : jsstring -> jsstring.

Lemma slice_then_rest (line : jsstring) a b :
  a <= b -> slice line a b ++ skipn b line = skipn a line.
Proof.
  intros Hab. unfold slice.
  rewrite <- (firstn_skipn (b - a) (skipn a line)) at 2.
  rewrite skipn_skipn. now replace (b - a + a) with b by lia.
Qed.

(** The loop comes to its end, and the parts it gives are the line
    from [lastIndex] on, cut in pieces. *)
Lemma highlightLoop_text line lowerLine lowerTerm n :
  lowerTerm <> [] -> 0 < n ->
  forall fuel lastIndex index,
    match index with
    | Some i => lastIndex <= i /\ i < length lowerLine /\
                length lowerLine - i <= fuel
    | None => True
    end ->
    exists parts,
      highlightLoop fuel line lowerLine lowerTerm n lastIndex index = Some parts /\
      concat (map partText parts) = skipn lastIndex line.
Proof.
  intros Hterm Hn.
  induction fuel as [|fuel IH]; intros lastIndex index Hidx.
  - destruct index as [i|]; [lia|].
    simpl. eexists. split; [reflexivity|].
    destruct (Nat.ltb_spec lastIndex (length line)); simpl.
    + apply app_nil_r.
    + now rewrite skipn_all2.
  - destruct index as [i|].
    + destruct Hidx as (Hle & Hi & Hfuel). simpl.
      destruct (IH (i + n) (indexOf lowerLine lowerTerm (i + n)))
        as (parts & -> & Hparts).
      { destruct (indexOf lowerLine lowerTerm (i + n)) as [j|] eqn:Hj; [|exact I].
        destruct (indexOf_found _ _ _ _ Hterm Hj) as (Hfrom & Hfit & _).
        destruct lowerTerm; [contradiction|]. simpl in Hfit. lia. }
      simpl. eexists. split; [reflexivity|].
      rewrite map_app, concat_app. cbn [map concat partText].
      rewrite Hparts, slice_then_rest by lia.
      destruct (Nat.ltb_spec lastIndex i) as [Hlt|Hge]; simpl.
      * rewrite app_nil_r. apply slice_then_rest. lia.
      * now replace lastIndex with i by lia.
    + simpl. eexists. split; [reflexivity|].
      destruct (Nat.ltb_spec lastIndex (length line)); simpl.
      * apply app_nil_r.
      * now rewrite skipn_all2.
Qed.

(** X19.  Highlighting loses nothing: whatever [toLowerCase] does, as
    long as it does not turn a term that is not empty into the empty
    string, [highlightSearch] comes to its end and the texts of the parts
    it returns, put end to end, are the line.  For the empty term it
    returns the line itself, not a fragment. *)
Theorem highlighting_keeps_the_line line term
    (Hlower : term <> [] -> toLowerCase term <> []) :
  (exists node,
     highlightSearch toLowerCase line term = Some node /\
     nodeText node = line) /\
  highlightSearch toLowerCase line [] = Some (Line line).
Proof.
  split; [|reflexivity].
  unfold highlightSearch. destruct term as [|c term].
  - exists (Line line). split; reflexivity.
  - assert (Hterm : toLowerCase (c :: term) <> []) by (apply Hlower; discriminate).
    destruct (highlightLoop_text line (toLowerCase line) (toLowerCase (c :: term))
                (length (c :: term)) Hterm ltac:(simpl; lia)
                (S (length (toLowerCase line))) 0
                (indexOf (toLowerCase line) (toLowerCase (c :: term)) 0))
      as (parts & -> & Hparts).
    { destruct (indexOf _ _ 0) as [j|] eqn:Hj; [|exact I].
      destruct (indexOf_found _ _ _ _ Hterm Hj) as (Hfrom & Hfit & _).
      destruct (toLowerCase (c :: term)); [contradiction|]. simpl in Hfit. lia. }
    simpl. eexists. split; [reflexivity|].
    destruct parts as [|p parts]; [reflexivity|exact Hparts].
Qed.

End Highlight.

Lemma highlighting_keeps_the_line_witness :
  (exists node,
     highlightSearch
       (map asciiLower)
       (lit "To do: TODO, todo") (lit "Todo")
     = Some node /\
     nodeText node = lit "To do: TODO, todo") /\
  highlightSearch (map asciiLower) (lit "To do: TODO, todo") []
  = Some (Line (lit "To do: TODO, todo")).
Proof.
  apply (highlighting_keeps_the_line
           (map asciiLower)
           (lit "To do: TODO, todo") (lit "Todo")).
  intros _. discriminate.
Defined.


(** ** What is highlighted *)

Section UnitWise.

(** A case mapping that works unit by unit, as [toLowerCase] does on
    ASCII text. *)
Variable lower : N -> N.

Lemma lowered_slice line term i :
  startsWith (skipn i (map lower line)) (map lower term) = true ->
  map lower (slice line i (i + length term)) = map lower term /\
  length (slice line i (i + length term)) = length term.
Proof.
  intros Hs. apply RegExpFacts.startsWith_app in Hs.
  assert (Hm : map lower (slice line i (i + length term)) = map lower term).
  { unfold slice. replace (i + length term - i) with (length term) by lia.
    rewrite <- firstn_map, <- skipn_map, Hs.
    rewrite <- (length_map lower term) at 1.
    rewrite firstn_app, Nat.sub_diag, firstn_all. simpl. apply app_nil_r. }
  split; [exact Hm|].
  apply (f_equal (@length N)) in Hm. now rewrite !length_map in Hm.
Qed.

Lemma highlightLoop_marks line term : forall fuel lastIndex index parts,
  term <> [] ->
  (forall i, index = Some i ->
             startsWith (skipn i (map lower line)) (map lower term) = true) ->
  highlightLoop fuel line (map lower line) (map lower term) (length term)
    lastIndex index = Some parts ->
  forall text, In (Highlight text) parts ->
    map lower text = map lower term /\ length text = length term.
Proof.
  induction fuel as [|fuel IH]; intros lastIndex index parts Hterm Hidx Hloop
    text Hin.
  - destruct index as [i|]; [discriminate|]. simpl in Hloop.
    injection Hloop as <-.
    destruct (lastIndex <? length line); [|destruct Hin].
    destruct Hin as [Hin|[]]. discriminate.
  - destruct index as [i|]; simpl in Hloop.
    + destruct (highlightLoop fuel _ _ _ _ _ _) as [rest|] eqn:Hrest;
        [|discriminate].
      simpl in Hloop. injection Hloop as <-.
      apply in_app_or in Hin as [Hin|[Hin|Hin]].
      * destruct (lastIndex <? i); [|destruct Hin].
        destruct Hin as [Hin|[]]. discriminate.
      * injection Hin as <-. apply lowered_slice. now apply Hidx.
      * eapply (IH _ _ _ Hterm); [|exact Hrest|exact Hin].
        intros j Hj.
        apply (indexOf_found _ _ _ _) in Hj as (_ & _ & Hs); [exact Hs|].
        destruct term; [contradiction|discriminate].
    + injection Hloop as <-.
      destruct (lastIndex <? length line); [|destruct Hin].
      destruct Hin as [Hin|[]]. discriminate.
Qed.

(** X20.  What is highlighted is the term: when the case mapping works
    unit by unit, every highlighted part [highlightSearch] returns is as
    long as the term and differs from it in case only. *)
Theorem highlighted_parts_are_the_term line term parts text
    (Hterm : term <> [])
    (Hparts : highlightSearch (map lower) line term = Some (Fragment parts))
    (Hpart : In (Highlight text) parts) :
  map lower text = map lower term /\ length text = length term.
Proof.
  unfold highlightSearch in Hparts. destruct term as [|c term]; [contradiction|].
  destruct (highlightLoop _ _ _ _ _ _ _) as [ps|] eqn:Hloop; [|discriminate].
  simpl in Hparts.
  assert (Hps : ps = parts).
  { destruct ps; [discriminate|]. now injection Hparts. }
  subst ps.
  eapply highlightLoop_marks; [discriminate| |exact Hloop|exact Hpart].
  intros i Hi.
  apply (indexOf_found _ _ _ _) in Hi as (_ & _ & Hs); [exact Hs|discriminate].
Qed.

End UnitWise.

Lemma highlighted_parts_are_the_term_witness :
  map asciiLower (lit "ToDo") = map asciiLower (lit "TODO") /\
  length (lit "ToDo") = length (lit "TODO").
Proof.
  apply (highlighted_parts_are_the_term asciiLower
           (lit "a ToDo, todo") (lit "TODO")
           [TextPart (lit "a "); Highlight (lit "ToDo"); TextPart (lit ", ");
            Highlight (lit "todo")]
           (lit "ToDo")).
  - discriminate.
  - vm_compute. reflexivity.
  - simpl. right. left. reflexivity.
Defined.

(** ** Scrolling *)

(** X21.  In a file of 20 lines or more the window stays inside the
    file: from an offset between 0 and the number of lines less 20, the
    arrow, page, home and end keys lead to such an offset again, and the
    window shows exactly 20 lines. *)
Theorem window_stays_inside_a_long_file v key
    (Hlong : (visibleLines <= Z.of_nat (length (lines v)))%Z)
    (Hinside : (0 <= scrollOffset v
                <= Z.of_nat (length (lines v)) - visibleLines)%Z)
    (Hmove : isMove key = true) :
  (0 <= scrollOffset (press key v)
   <= Z.of_nat (length (lines (press key v))) - visibleLines)%Z /\
  lines (press key v) = lines v /\
  length (visibleContent (press key v)) = 20.
Proof.
  unfold visibleLines in *.
  assert (Hoff : (0 <= scrollOffset (press key v)
                  <= Z.of_nat (length (lines v)) - 20)%Z /\
                 lines (press key v) = lines v).
  { destruct key; try discriminate Hmove; unfold press, visibleLines;
      cbn [setScrollOffset scrollOffset lines]; split; auto; lia. }
  destruct Hoff as [Hoff Hlines].
  rewrite Hlines. split; [exact Hoff|split; [reflexivity|]].
  unfold visibleContent, sliceLines, visibleLines. rewrite Hlines.
  destruct (Z.ltb_spec (scrollOffset (press key v)) 0); [lia|].
  destruct (Z.ltb_spec (scrollOffset (press key v) + 20) 0); [lia|].
  rewrite length_firstn, length_skipn. lia.
Qed.

Lemma window_stays_inside_a_long_file_witness :
  (0 <= scrollOffset
          (press PageDown
             thirtyLines)
   <= Z.of_nat
        (length
           (lines
              (press PageDown
                 thirtyLines)))
      - visibleLines)%Z /\
  lines (press PageDown
           thirtyLines)
  = lines thirtyLines /\
  length (visibleContent
            (press PageDown
               thirtyLines)) = 20.
Proof.
  apply (window_stays_inside_a_long_file
           thirtyLines PageDown).
  - vm_compute. discriminate.
  - vm_compute. split; discriminate.
  - reflexivity.
Defined.

(** X22.  In a file of fewer than 20 lines the down keys scroll before
    the start: from an offset that is not negative, the down arrow and
    the page-down key both set the offset to the number of lines less 20,
    a negative number; the window, cut with [slice] from that offset,
    then starts at line [2 * length - 20] when this is positive, so that
    the lines before are not shown; the up arrow brings the offset back
    to 0. *)
Theorem down_key_in_a_short_file_scrolls_before_the_start v
    (Hshort : (Z.of_nat (length (lines v)) < visibleLines)%Z)
    (Hstart : (0 <= scrollOffset v)%Z) :
  scrollOffset (press ArrowDown v)
  = (Z.of_nat (length (lines v)) - visibleLines)%Z /\
  scrollOffset (press PageDown v)
  = (Z.of_nat (length (lines v)) - visibleLines)%Z /\
  (scrollOffset (press ArrowDown v) < 0)%Z /\
  visibleContent (press ArrowDown v)
  = skipn (2 * length (lines v) - 20) (lines v) /\
  scrollOffset (press ArrowUp (press ArrowDown v)) = 0%Z.
Proof.
  unfold visibleLines in *.
  assert (Hdown : scrollOffset (press ArrowDown v)
                  = (Z.of_nat (length (lines v)) - 20)%Z).
  { unfold press, visibleLines. cbn [setScrollOffset scrollOffset]. lia. }
  split; [exact Hdown|split; [|split; [|split]]].
  - unfold press, visibleLines. cbn [setScrollOffset scrollOffset]. lia.
  - lia.
  - unfold visibleContent, sliceLines, visibleLines. rewrite Hdown.
    cbn [press setScrollOffset lines].
    destruct (Z.ltb_spec (Z.of_nat (length (lines v)) - 20) 0); [|lia].
    destruct (Z.ltb_spec (Z.of_nat (length (lines v)) - 20 + 20) 0); [lia|].
    replace (Z.to_nat (Z.max (Z.of_nat (length (lines v))
                              + (Z.of_nat (length (lines v)) - 20)) 0))
      with (2 * length (lines v) - 20) by lia.
    apply firstn_all2. rewrite length_skipn. lia.
  - unfold press at 1. cbn [setScrollOffset scrollOffset]. lia.
Qed.

Lemma down_key_in_a_short_file_scrolls_before_the_start_witness :
  scrollOffset
    (press ArrowDown
       twelveLines)
  = (Z.of_nat 12 - visibleLines)%Z /\
  scrollOffset
    (press PageDown
       twelveLines)
  = (Z.of_nat 12 - visibleLines)%Z /\
  (scrollOffset
     (press ArrowDown
        twelveLines) < 0)%Z /\
  visibleContent
    (press ArrowDown
       twelveLines)
  = skipn (2 * 12 - 20)
      (map (fun n => [n]) [1; 2; 3; 4; 5; 6; 7; 8; 9; 10; 11; 12]%N) /\
  scrollOffset
    (press ArrowUp
       (press ArrowDown
          twelveLines)) = 0%Z.
Proof.
  apply (down_key_in_a_short_file_scrolls_before_the_start
           twelveLines).
  - reflexivity.
  - discriminate.
Defined.

(** ** Going from match to match *)

Lemma rem_next c n :
  (0 <= c < n)%Z -> (0 <= Z.rem (c + 1) n < n)%Z.
Proof.
  intros H. rewrite Z.rem_mod_nonneg by lia. apply Z.mod_pos_bound. lia.
Qed.

Lemma rem_previous c n :
  (0 <= c < n)%Z -> (0 <= Z.rem (c - 1 + n) n < n)%Z.
Proof.
  intros H. rewrite Z.rem_mod_nonneg by lia. apply Z.mod_pos_bound. lia.
Qed.

Lemma rem_next_previous c n :
  (0 <= c < n)%Z -> Z.rem (Z.rem (c + 1) n - 1 + n) n = c.
Proof.
  intros H. rewrite (Z.rem_mod_nonneg (c + 1) n) by lia.
  pose proof (Z.mod_pos_bound (c + 1) n ltac:(lia)) as Hb.
  rewrite Z.rem_mod_nonneg by lia.
  destruct (Z.eq_dec (c + 1) n) as [E|E].
  - rewrite E, Z.mod_same by lia.
    replace (0 - 1 + n)%Z with (n - 1)%Z by lia.
    rewrite Z.mod_small by lia. lia.
  - rewrite (Z.mod_small (c + 1)) by lia.
    replace (c + 1 - 1 + n)%Z with (c + 1 * n)%Z by lia.
    rewrite Z.mod_add by lia. apply Z.mod_small. lia.
Qed.

Lemma rem_previous_next c n :
  (0 <= c < n)%Z -> Z.rem (Z.rem (c - 1 + n) n + 1) n = c.
Proof.
  intros H. rewrite (Z.rem_mod_nonneg (c - 1 + n) n) by lia.
  pose proof (Z.mod_pos_bound (c - 1 + n) n ltac:(lia)) as Hb.
  rewrite Z.rem_mod_nonneg by lia.
  destruct (Z.eq_dec c 0) as [E|E].
  - subst c. replace (0 - 1 + n)%Z with (n - 1)%Z by lia.
    rewrite (Z.mod_small (n - 1)) by lia.
    replace (n - 1 + 1)%Z with n by lia. apply Z.mod_same. lia.
  - replace (c - 1 + n)%Z with (c - 1 + 1 * n)%Z by lia.
    rewrite Z.mod_add by lia. rewrite (Z.mod_small (c - 1)) by lia.
    replace (c - 1 + 1)%Z with c by lia. apply Z.mod_small. lia.
Qed.

(** X23.  Going from match to match: while the current match is one of
    the matches, the keys [n] and [N] lead to a match again, each undoes
    the other, and after either the line of the current match is inside
    the window, at most 5 lines below its top: the offset is that line
    less 5, or 0. *)
Theorem next_and_previous_match_undo_each_other v
    (Hmatch : onAMatch v) :
  onAMatch (press NextMatch v) /\
  onAMatch (press PreviousMatch v) /\
  currentMatch (press PreviousMatch (press NextMatch v)) = currentMatch v /\
  currentMatch (press NextMatch (press PreviousMatch v)) = currentMatch v /\
  (forall key, key = NextMatch \/ key = PreviousMatch ->
     scrollOffset (press key v)
     = Z.max 0 (matchLine v (currentMatch (press key v)) - 5) /\
     (scrollOffset (press key v)
      <= matchLine v (currentMatch (press key v))
      <= scrollOffset (press key v) + 5)%Z).
Proof.
  unfold onAMatch in *.
  set (n := Z.of_nat (length (matchLines v))) in *.
  assert (Hn : (0 <? n)%Z = true) by (apply Z.ltb_lt; lia).
  assert (Hnext : press NextMatch v
                  = setScrollOffset
                      (Z.max 0 (matchLine v (Z.rem (currentMatch v + 1) n) - 5))
                      (setCurrentMatch (Z.rem (currentMatch v + 1) n) v)).
  { unfold press. fold n. now rewrite Hn. }
  assert (Hprev : press PreviousMatch v
                  = setScrollOffset
                      (Z.max 0 (matchLine v (Z.rem (currentMatch v - 1 + n) n) - 5))
                      (setCurrentMatch (Z.rem (currentMatch v - 1 + n) n) v)).
  { unfold press. fold n. now rewrite Hn. }
  split; [|split; [|split; [|split]]].
  - rewrite Hnext. cbn [setScrollOffset setCurrentMatch currentMatch matchLines].
    fold n. now apply rem_next.
  - rewrite Hprev. cbn [setScrollOffset setCurrentMatch currentMatch matchLines].
    fold n. now apply rem_previous.
  - rewrite Hnext. unfold press.
    cbn [setScrollOffset setCurrentMatch currentMatch matchLines].
    fold n. rewrite Hn.
    cbn [setScrollOffset setCurrentMatch currentMatch].
    now apply rem_next_previous.
  - rewrite Hprev. unfold press.
    cbn [setScrollOffset setCurrentMatch currentMatch matchLines].
    fold n. rewrite Hn.
    cbn [setScrollOffset setCurrentMatch currentMatch].
    now apply rem_previous_next.
  - assert (Hline : forall i, (0 <= matchLine v i)%Z).
    { intros i. unfold matchLine. lia. }
    intros key [->| ->]; [rewrite Hnext|rewrite Hprev];
      cbn [setScrollOffset setCurrentMatch currentMatch scrollOffset];
      (split; [reflexivity|]).
    + pose proof (Hline (Z.rem (currentMatch v + 1) n)). lia.
    + pose proof (Hline (Z.rem (currentMatch v - 1 + n) n)). lia.
Qed.

Lemma next_and_previous_match_undo_each_other_witness :
  onAMatch (press NextMatch
              threeMatches) /\
  onAMatch (press PreviousMatch
              threeMatches) /\
  currentMatch
    (press PreviousMatch
       (press NextMatch
          threeMatches))
  = currentMatch threeMatches /\
  currentMatch
    (press NextMatch
       (press PreviousMatch
          threeMatches))
  = currentMatch threeMatches /\
  (forall key, key = NextMatch \/ key = PreviousMatch ->
     scrollOffset
       (press key threeMatches)
     = Z.max 0
         (matchLine threeMatches
            (currentMatch
               (press key threeMatches))
          - 5) /\
     (scrollOffset
        (press key threeMatches)
      <= matchLine threeMatches
           (currentMatch
              (press key threeMatches))
      <= scrollOffset
           (press key threeMatches) + 5)%Z).
Proof.
  apply (next_and_previous_match_undo_each_other
           threeMatches).
  unfold onAMatch. simpl. lia.
Defined.

(** ** The lines that hold the term *)

Section Matches.

Variable toLowerCase : jsstring -> jsstring.

Lemma matchesFrom_spec searchTerm : forall ls idx i,
  In i (matchesFrom toLowerCase idx ls searchTerm) <->
  idx <= i < idx + length ls /\
  includes (toLowerCase (nth (i - idx) ls []))
           (toLowerCase searchTerm) = true.
Proof.
  induction ls as [|line more IH]; intros idx i; simpl.
  - split; [intros []|intros [H _]; lia].
  - rewrite in_app_iff, IH. split.
    + intros [Hin|[Hr Hm]].
      * destruct (includes _ _) eqn:Hinc; [|destruct Hin].
        destruct Hin as [<-|[]]. rewrite Nat.sub_diag. split; [lia|exact Hinc].
      * split; [lia|].
        replace (i - idx) with (S (i - S idx)) by lia. exact Hm.
    + intros [Hr Hm]. destruct (Nat.eq_dec i idx) as [->|Hne].
      * left. rewrite Nat.sub_diag in Hm. rewrite Hm. now left.
      * right. split; [lia|].
        replace (i - idx) with (S (i - S idx)) in Hm by lia. exact Hm.
Qed.

Lemma matchesFrom_sorted searchTerm : forall ls idx,
  StronglySorted lt (matchesFrom toLowerCase idx ls searchTerm).
Proof.
  induction ls as [|line more IH]; intros idx; simpl; [constructor|].
  destruct (includes _ _); simpl; [|apply IH].
  constructor; [apply IH|].
  apply Forall_forall. intros i Hi.
  apply matchesFrom_spec in Hi. lia.
Qed.

(** X24.  The matches of a search: for a term that is not empty,
    [matchLines] lists, in increasing order and once each, exactly the
    indices of the lines that hold the term, case apart; the current
    match is the first one; and when there is a match the window is moved
    so that its top is the line of the first match less 5, or 0, and it
    is left where it is when there is none. *)
Theorem search_lists_the_lines_that_hold_the_term searchTerm v
    (Hterm : searchTerm <> []) :
  (forall i, In i (matchLines (search toLowerCase searchTerm v)) <->
             i < length (lines v) /\
             includes (toLowerCase (nth i (lines v) []))
                      (toLowerCase searchTerm) = true) /\
  StronglySorted lt (matchLines (search toLowerCase searchTerm v)) /\
  currentMatch (search toLowerCase searchTerm v) = 0%Z /\
  lines (search toLowerCase searchTerm v) = lines v /\
  scrollOffset (search toLowerCase searchTerm v)
  = match matchLines (search toLowerCase searchTerm v) with
    | first :: _ => Z.max 0 (Z.of_nat first - 5)
    | [] => scrollOffset v
    end.
Proof.
  destruct searchTerm as [|c term]; [contradiction|].
  cbn [search matchLines currentMatch lines scrollOffset].
  split; [|split; [|split; [|split]]]; try reflexivity.
  - intros i. rewrite matchesFrom_spec, Nat.sub_0_r. simpl.
    split; intros [Hi Hinc]; (split; [lia|exact Hinc]).
  - apply matchesFrom_sorted.
Qed.

End Matches.

Lemma search_lists_the_lines_that_hold_the_term_witness :
  (forall i,
     In i (matchLines
             (search (fun s => s) (lit "b")
                threeLines)) <->
     i < length (lines threeLines) /\
     includes (nth i (lines threeLines) [])
              (lit "b") = true) /\
  StronglySorted lt
    (matchLines
       (search (fun s => s) (lit "b")
          threeLines)) /\
  currentMatch
    (search (fun s => s) (lit "b")
       threeLines) = 0%Z /\
  lines (search (fun s => s) (lit "b")
           threeLines)
  = lines threeLines /\
  scrollOffset
    (search (fun s => s) (lit "b")
       threeLines)
  = match matchLines
            (search (fun s => s) (lit "b")
               threeLines) with
    | first :: _ => Z.max 0 (Z.of_nat first - 5)
    | [] => 7%Z
    end.
Proof.
  apply (search_lists_the_lines_that_hold_the_term (fun s => s) (lit "b")
           threeLines).
  discriminate.
Defined.

End ViewerFacts.
(* ================================================================== *)
(** * Properties of the platform checks *)
(* ================================================================== *)

Module PlatformFacts.

Import Platform.

Lemma sameString_eq a b : sameString a b = true -> a = b.
Proof.
  unfold sameString. intros H. apply andb_prop in H as [Hl Hs].
  apply Nat.eqb_eq in Hl. apply RegExpFacts.startsWith_app in Hs.
  rewrite Hs. rewrite skipn_all2 by lia. apply app_nil_r.
Qed.

Lemma checks_cached platform spawns available :
  checks platform spawns (Some available)
  = (List.repeat available (length spawns), Some available).
Proof.
  induction spawns as [|which more IH]; [reflexivity|].
  cbn [checks checkClaudeCLI]. now rewrite IH.
Qed.

(** X25.  The check for the claude CLI is made once: of any number of
    calls to [checkClaudeCLI] that start with the cache empty, the first
    returns what [isClaudeCLIAvailable] answers at that time and all the
    others return the same, whatever the spawn would do by then;
    [resetClaudeCLICache] makes the next call ask again.  The answer is
    [false] on every platform that is neither macOS nor Linux, Windows
    for one, where every feature is off. *)
Theorem check_for_the_claude_CLI_is_made_once platform which more cache :
  checks platform (which :: more) None
  = (List.repeat (isClaudeCLIAvailable platform which) (S (length more)),
     Some (isClaudeCLIAvailable platform which)) /\
  checks platform (which :: more) (resetClaudeCLICache cache)
  = checks platform (which :: more) None /\
  (isUnixLike platform = false ->
   isClaudeCLIAvailable platform which = false) /\
  (isWindows platform = true ->
   isUnixLike platform = false /\
   features platform
   = {| processManager := false; diskUtils := false; ai := false |}).
Proof.
  split; [|split; [|split]].
  - cbn [checks checkClaudeCLI]. now rewrite checks_cached.
  - reflexivity.
  - intros Hu. unfold isClaudeCLIAvailable. now rewrite Hu.
  - intros Hw. apply sameString_eq in Hw. subst platform. split; reflexivity.
Qed.

End PlatformFacts.

(* ================================================================== *)
(** * Properties of the history of the AI command modal *)
(* ================================================================== *)

Module ModalFacts.

Import Markdown Modal.







End ModalFacts.
